(** * cmdsproc: the command-description processor of fb-adb

    A shallow embedding of [cmdsproc.py] and the properties of its
    reader, intermediate representation, C emitter and documentation
    walker.

    Conventions of the embedding.
    - A Python [str] is a [string]; every character is one [ascii] that
      stands for a code point in 0..255.  [py_isspace] lists Python's
      white space below 256, and [upper] is [str.upper] on these code
      points.
    - A Python exception ends the run: every fallible function returns a
      [result], whose [Err] carries the kind of the exception.  [die]
      raises [ValueError]; its messages are the constructors of [die_msg].
    - Where Python goes on with a text that has a code point above 255
      (the upper case of U+00B5 and of U+00FF), or formats an argument
      with a conversion other than a plain [%s], the run is not followed
      further: the function returns [Err OutsideModel], which is no
      exception of the program.
    - The XML parser (expat) is outside the program: a parse is a list of
      the events it delivers to the four handlers of [UsageFileReader]. *)

From Stdlib Require Import ZArith NArith List Ascii String DecimalString Lia Bool.
From stdpp Require Import base option list strings gmap sorting.

Local Open Scope Z_scope.

(** ** Exceptions *)

Inductive die_msg : Type :=
| InvalidName (s : string)           (* "invalid name %r" *)
| InvalidID (s : string)             (* "invalid ID %r" *)
| InvalidBool (s : string)           (* "invalid bool value %r" *)
| NoIfdefCondition                   (* "no ifdef condition supplied" *)
| IfdefSyntaxError                   (* "ifdef syntax error" *)
| InvalidEndifSyntax                 (* "invalid endif syntax" *)
| BadlyFormedIfdef                   (* "badly formed ifdef: levels do not match" *)
| UnknownPI (target : string)        (* "unknown processing instruction %r" *)
| InvalidContext                     (* "invalid context" *)
| NoNamesGiven                       (* "no names given" *)
| DuplicateCommandNames              (* "duplicate command names: %r" *)
| OptgroupConflict (og existing : string)
                                     (* "optgroup %s conflicts with optgroup %s: %r" *)
| DuplicateArgumentName (s : string) (* "duplicate argument name %r" *)
| MandatoryFollowsOptional           (* "mandatory argument follows optional argument" *)
| RepeatMustBeLast                   (* "if argument is repeated, it must be last" *)
| ConflictingOptions                 (* "conflicting options: %r" *)
| IllegalShortOption (s : string)    (* "illegal short option name %r" *)
| TypeWithoutArg                     (* "cannot specify type without arg" *)
| NoOptgroupCalled (s : string)      (* "no optgroup called %r" *)
| Pod2textFailed.                    (* "pod2text failed on %r" *)

Inductive error : Type :=
| Die (m : die_msg)      (* die(): ValueError(fmt % args) *)
| KeyError               (* d[k], d.pop(k) on a missing key *)
| IndexError             (* pop from an empty list *)
| TypeError              (* bad keyword arguments, bad operand of % or write *)
| ValueError             (* a bad format string *)
| AttributeError         (* getattr of a missing handler or attribute *)
| AssertionError         (* a failed assert *)
| OutsideModel.          (* no exception: the run leaves what is modelled *)

Inductive result (A : Type) : Type :=
| Ok (a : A)
| Err (e : error).
Arguments Ok {A} a.
Arguments Err {A} e.

Definition die {A} (m : die_msg) : result A := Err (Die m).

Definition rbind {A B} (f : A -> result B) (r : result A) : result B :=
  match r with
  | Ok a => f a
  | Err e => Err e
  end.

#[global] Instance result_ret : MRet result := @Ok.
#[global] Instance result_bind : MBind result := @rbind.
#[global] Instance result_fmap : FMap result :=
  fun A B f r => match r with Ok a => Ok (f a) | Err e => Err e end.

Definition is_ok {A} (r : result A) : bool :=
  match r with Ok _ => true | Err _ => false end.

(** ** Python strings *)

Module PyStr.

Definition ord (c : ascii) : N := N_of_ascii c.

Definition dquote : ascii := ascii_of_nat 34.
Definition squote : ascii := ascii_of_nat 39.
Definition backslash : ascii := ascii_of_nat 92.
Definition newline : ascii := ascii_of_nat 10.

Definition chr_eqb (a b : ascii) : bool := Ascii.eqb a b.

Definition between (lo hi : N) (c : ascii) : bool :=
  (lo <=? ord c)%N && (ord c <=? hi)%N.

Definition is_lower (c : ascii) : bool := between 97 122 c.
Definition is_upper (c : ascii) : bool := between 65 90 c.
Definition is_digit (c : ascii) : bool := between 48 57 c.

(** [str.isspace] on the code points below 256. *)
Definition py_isspace (c : ascii) : bool :=
  between 9 13 c || between 28 32 c
  || (ord c =? 133)%N || (ord c =? 160)%N.

(** The character class of [ONLYWS] and [WSRUNS]: space, tab, CR, LF, VT. *)
Definition re_ws (c : ascii) : bool :=
  (ord c =? 32)%N || (ord c =? 9)%N || (ord c =? 13)%N
  || (ord c =? 10)%N || (ord c =? 11)%N.

Definition str1 (c : ascii) : string := String c EmptyString.

Fixpoint concat (l : list string) : string :=
  match l with
  | [] => EmptyString
  | s :: l' => s +:+ concat l'
  end.

Fixpoint repeat_str (s : string) (n : nat) : string :=
  match n with
  | O => EmptyString
  | S n' => s +:+ repeat_str s n'
  end.

Fixpoint map_chars (f : ascii -> ascii) (s : string) : string :=
  match s with
  | EmptyString => EmptyString
  | String c r => String (f c) (map_chars f r)
  end.

(** [s.replace(a, b)] for one-character [a] and [b]. *)
Definition replace_char (a b : ascii) (s : string) : string :=
  map_chars (fun c => if chr_eqb c a then b else c) s.

(** [c.upper()] for one code point below 256: the letters a..z and
    U+00E0..U+00FE other than the division sign U+00F7 move down by 32,
    the sharp s U+00DF becomes [SS], and every other code point stays,
    except the micro sign U+00B5 and U+00FF, whose upper case lies
    above 255. *)
Definition upper_char (c : ascii) : result string :=
  if is_lower c || (between 224 254 c && negb (ord c =? 247)%N)
  then Ok (String (ascii_of_N (ord c - 32)) EmptyString)
  else if (ord c =? 223)%N then Ok "SS"
  else if (ord c =? 181)%N || (ord c =? 255)%N then Err OutsideModel
  else Ok (String c EmptyString).

(** [s.upper()] *)
Fixpoint upper (s : string) : result string :=
  match s with
  | EmptyString => Ok EmptyString
  | String c r => u ← upper_char c; (fun t => u +:+ t) <$> upper r
  end.

Fixpoint lstrip (s : string) : string :=
  match s with
  | EmptyString => EmptyString
  | String c r => if py_isspace c then lstrip r else s
  end.

Fixpoint rev_onto (s acc : string) : string :=
  match s with
  | EmptyString => acc
  | String c r => rev_onto r (String c acc)
  end.

Definition rev (s : string) : string := rev_onto s EmptyString.

Definition rstrip (s : string) : string := rev (lstrip (rev s)).

Definition strip (s : string) : string := rstrip (lstrip s).

(** [s.split(sep)] for a one-character separator: never an empty list. *)
Fixpoint split_on (sep : ascii) (s : string) : list string :=
  match s with
  | EmptyString => [EmptyString]
  | String c r =>
      if chr_eqb c sep then EmptyString :: split_on sep r
      else match split_on sep r with
           | w :: ws => String c w :: ws
           | [] => [str1 c]
           end
  end.

(** [s.split()]: the maximal runs of characters that are not white space.
    [cur] is the run being read, in reverse. *)
Fixpoint split_ws_aux (s : string) (cur : string) : list string :=
  match s with
  | EmptyString =>
      match cur with EmptyString => [] | _ => [rev cur] end
  | String c r =>
      if py_isspace c then
        match cur with
        | EmptyString => split_ws_aux r EmptyString
        | _ => rev cur :: split_ws_aux r EmptyString
        end
      else split_ws_aux r (String c cur)
  end.

Definition split_ws (s : string) : list string := split_ws_aux s EmptyString.

(** [re.sub(WSRUNS, " ", s)]: every maximal run of [re_ws] characters
    becomes one space.  [in_run] says that the previous character
    belonged to a run whose space is already written. *)
Fixpoint sub_wsruns_aux (in_run : bool) (s : string) : string :=
  match s with
  | EmptyString => EmptyString
  | String c r =>
      if re_ws c then
        if in_run then sub_wsruns_aux true r
        else String " " (sub_wsruns_aux true r)
      else String c (sub_wsruns_aux false r)
  end.

Definition sub_wsruns (s : string) : string := sub_wsruns_aux false s.

(** The flags of a conversion. *)
Definition is_flag (c : ascii) : bool :=
  chr_eqb c "-" || chr_eqb c "+" || chr_eqb c " " || chr_eqb c "#"
  || chr_eqb c "0".

Fixpoint drop_flags (s : string) : string :=
  match s with
  | EmptyString => EmptyString
  | String c r => if is_flag c then drop_flags r else s
  end.

(** The digits of a width or of a precision: what follows them, or
    [None] when the number read so far, [acc], passes the bound
    ("width too big", "precision too big"). *)
Fixpoint take_number (bound acc : N) (s : string) : option string :=
  match s with
  | EmptyString => Some EmptyString
  | String c r =>
      if is_digit c then
        let d := (ord c - 48)%N in
        if ((bound - d) / 10 <? acc)%N then None
        else take_number bound (acc * 10 + d)%N r
      else Some s
  end.

(** [PY_SSIZE_T_MAX] and [INT_MAX] of CPython on a 64-bit platform. *)
Definition ssize_max : N := 9223372036854775807.
Definition int_max : N := 2147483647.

(** What [fmt % ()] raises at a conversion: [spec] is the text after the
    percent sign, which is not empty and does not start with a percent
    sign.  A mapping key, a starred width or precision and a complete
    conversion all ask for an argument that is not there ([TypeError]);
    a number that is too big and a format that ends before its
    conversion character are the format's own fault ([ValueError]). *)
Definition conversion_without_argument (spec : string) : error :=
  match spec with
  | EmptyString => ValueError
  | String c0 _ =>
      if chr_eqb c0 "(" then TypeError
      else
        let s1 := drop_flags spec in
        let starred (s : string) : bool :=
          match s with
          | String c _ => chr_eqb c "*"
          | EmptyString => false
          end in
        if starred s1 then TypeError
        else
          match take_number ssize_max 0 s1 with
          | None => ValueError
          | Some s2 =>
              let after_precision : result string :=
                match s2 with
                | String c s3 =>
                    if chr_eqb c "." then
                      if starred s3 then Err TypeError
                      else match take_number int_max 0 s3 with
                           | None => Err ValueError
                           | Some s4 => Ok s4
                           end
                    else Ok s2
                | EmptyString => Ok s2
                end in
              match after_precision with
              | Err e => e
              | Ok s4 =>
                  let s5 :=
                    match s4 with
                    | String c r =>
                        if chr_eqb c "h" || chr_eqb c "l" || chr_eqb c "L"
                        then r else s4
                    | EmptyString => s4
                    end in
                  match s5 with
                  | EmptyString => ValueError
                  | String _ _ => TypeError
                  end
              end
          end
  end.

(** [fmt % args] for a tuple [args] of strings.  [%%] is a percent sign
    and a plain [%s] the next argument.  Without an argument left, any
    other conversion raises as [conversion_without_argument] says; with
    one, a mapping key raises [TypeError], and the other conversions
    (flags, widths, [%r], [%c], ...), which the program never writes
    together with arguments, are outside the model.  Arguments that are
    left over raise [TypeError]. *)
Fixpoint pyfmt (fmt : string) (args : list string) : result string :=
  match fmt with
  | EmptyString =>
      match args with [] => Ok EmptyString | _ => Err TypeError end
  | String c r =>
      if chr_eqb c "%" then
        match r with
        | EmptyString => Err ValueError
        | String d r' =>
            if chr_eqb d "%" then String "%" <$> pyfmt r' args
            else
              match args with
              | [] => Err (conversion_without_argument r)
              | a :: args' =>
                  if chr_eqb d "s" then (fun t => a +:+ t) <$> pyfmt r' args'
                  else if chr_eqb d "(" then Err TypeError
                  else Err OutsideModel
              end
        end
      else String c <$> pyfmt r args
  end.

(** The tail [cls* $] of the identifier patterns.  Python's [$] also
    matches just before a final newline. *)
Fixpoint re_tail (cls : ascii -> bool) (s : string) : bool :=
  match s with
  | EmptyString => true
  | String c r =>
      if cls c then re_tail cls r
      else chr_eqb c newline && (match r with EmptyString => true | _ => false end)
  end.

Definition id_start (c : ascii) : bool :=
  is_lower c || is_upper c || chr_eqb c "_".
Definition id_char (c : ascii) : bool := id_start c || is_digit c.
Definition id_dash_char (c : ascii) : bool := id_char c || chr_eqb c "-".

(** [ID.match(s)] and [ID_DASH.match(s)]. *)
Definition ID (s : string) : bool :=
  match s with
  | EmptyString => false
  | String c r => id_start c && re_tail id_char r
  end.

Definition ID_DASH (s : string) : bool :=
  match s with
  | EmptyString => false
  | String c r => id_start c && re_tail id_dash_char r
  end.

(** ["%03o" % n] *)
Definition octal_digit (n : N) : ascii := ascii_of_N (48 + n).

Fixpoint octal_digits (fuel : nat) (n : N) (acc : string) : string :=
  match fuel with
  | O => acc
  | S f =>
      let acc' := String (octal_digit (n mod 8)) acc in
      if (n / 8 =? 0)%N then acc' else octal_digits f (n / 8) acc'
  end.

Definition format_o (n : N) : string :=
  octal_digits (S (N.size_nat n)) n EmptyString.

Definition zero_pad (width : nat) (s : string) : string :=
  repeat_str "0" (width - String.length s) +:+ s.

Definition format_03o (n : N) : string := zero_pad 3 (format_o n).

(** [str(n)] for a natural number. *)
Definition str_of_nat (n : nat) : string :=
  NilEmpty.string_of_uint (Nat.to_uint n).

End PyStr.
Import PyStr.

Definition check_id_dash (s : string) : result string :=
  if ID_DASH s then Ok s else die (InvalidName s).

Definition check_id (s : string) : result string :=
  if ID s then Ok s else die (InvalidID s).

(** An attribute that is read as a boolean holds the text of the XML
    attribute or, when the attribute is absent, the handler's default,
    a Python [bool]. *)
Inductive bool_attr : Type :=
| Native (b : bool)
| Text (s : string).

Definition check_bool (v : bool_attr) : result bool :=
  match v with
  | Native b => Ok b
  | Text s =>
      if bool_decide (s ∈ ["yes"; "true"; "1"]) then Ok true
      else if bool_decide (s ∈ ["no"; "false"; "0"]) then Ok false
      else die (InvalidBool s)
  end.

Definition on_start_function (tag_name : string) : string :=
  "on_" +:+ replace_char "-" "_" tag_name +:+ "_start".

Definition on_stop_function (tag_name : string) : string :=
  "on_" +:+ replace_char "-" "_" tag_name +:+ "_end".


(** ** The C writer *)

(** [CWriter]: the output stream, written by appending, and the current
    indentation.  An emitter is a function from writer to writer that can
    raise. *)
Record CWriter : Type := mkCWriter {
  out : string;
  indent : Z
}.

Definition emitter : Type := CWriter -> result CWriter.

Definition skip : emitter := fun hf => Ok hf.

Definition and_then (a b : emitter) : emitter := fun hf => hf' ← a hf; b hf'.

Declare Scope emit_scope.
Delimit Scope emit_scope with emit.
Bind Scope emit_scope with emitter.
Notation "a ;; b" := (and_then a b)
  (at level 100, b at level 200, right associativity) : emit_scope.

(** [for x in l: body x] *)
Fixpoint for_each {A} (l : list A) (body : A -> emitter) : emitter :=
  match l with
  | [] => skip
  | x :: l' => and_then (body x) (for_each l' body)
  end.

Module CW.

Definition write (text : string) : emitter :=
  fun hf => Ok {| out := out hf +:+ text; indent := indent hf |}.

(** [" " * self.indent * 2] under the assertion [self.indent >= 0]. *)
Definition indentation (n : Z) : string :=
  repeat_str (repeat_str " " (Z.to_nat n)) 2.

Definition writeln (fmt : string) (args : list string) : emitter :=
  fun hf =>
    if indent hf <? 0 then Err AssertionError
    else
      hf1 ← write (indentation (indent hf)) hf;
      text ← pyfmt fmt args;
      hf2 ← write text hf1;
      write (str1 newline) hf2.

Definition set_indent (f : Z -> Z) : emitter :=
  fun hf => Ok {| out := out hf; indent := f (indent hf) |}.

(** [with hf.indented(after): body] *)
Definition indented (after : option string) (body : emitter) : emitter :=
  (set_indent (fun i => i + 1) ;;
   body ;;
   set_indent (fun i => i - 1) ;;
   match after with
   | Some a => writeln "%s" [a]
   | None => skip
   end)%emit.

(** [with switch.case(value_fmt, *args): body] and
    [with switch.default(): body] *)
Definition case (value_fmt : string) (args : list string) (body : emitter)
  : emitter :=
  (writeln ("case " +:+ value_fmt +:+ ": {") args ;;
   indented (Some "}") (body ;; writeln "break;" []))%emit.

Definition default (body : emitter) : emitter :=
  (writeln "default: {" [] ;;
   indented (Some "}") (body ;; writeln "break;" []))%emit.

Definition switch (value_fmt : string) (args : list string) (body : emitter)
  : emitter :=
  (writeln ("switch (" +:+ value_fmt +:+ ") {") args ;;
   indented (Some "}") body)%emit.

Definition while_ (condition_fmt : string) (args : list string)
  (body : emitter) : emitter :=
  (writeln ("while (" +:+ condition_fmt +:+ ") {") args ;;
   indented (Some "}") body)%emit.

Definition if_ (condition_fmt : string) (args : list string)
  (body : emitter) : emitter :=
  (writeln ("if (" +:+ condition_fmt +:+ ") {") args ;;
   indented (Some "}") body)%emit.

Definition sysinclude (header : string) : emitter :=
  writeln "#include <%s>" [header].

Definition include (header : string) : emitter :=
  writeln ("#include " +:+ str1 dquote +:+ "%s" +:+ str1 dquote) [header].

Definition char_literal (c quote : ascii) : string :=
  if chr_eqb c quote || chr_eqb c backslash then String backslash (str1 c)
  else if (ord c <=? 31)%N || (ord c =? 127)%N
       then String backslash (format_03o (ord c))
       else str1 c.

Definition quote_char (c : ascii) : string :=
  str1 squote +:+ char_literal c squote +:+ str1 squote.

Fixpoint quoted_parts (s : string) : list string :=
  match s with
  | EmptyString => []
  | String c r => char_literal c dquote :: quoted_parts r
  end.

Definition quote_string (s : string) : string :=
  concat ([str1 dquote] ++ quoted_parts s ++ [str1 dquote]).

End CW.

(** ** Reading a C string literal back

    The value of a C string literal (C11 6.4.5 with the escape sequences
    of 6.4.4.4): the text between the quotes, where a backslash starts a
    simple escape or an octal escape of one to three digits.  A literal
    that is not closed, has text after its closing quote, holds a raw
    newline or an escape this reader does not know has no value. *)
Module CLiteral.

Definition is_octal (c : ascii) : bool := between 48 55 c.

Definition octal_value (c : ascii) : N := (ord c - 48)%N.

Definition simple_escape (c : ascii) : option ascii :=
  if chr_eqb c dquote then Some dquote
  else if chr_eqb c squote then Some squote
  else if chr_eqb c backslash then Some backslash
  else if chr_eqb c "?" then Some "?"%char
  else if chr_eqb c "a" then Some (ascii_of_nat 7)
  else if chr_eqb c "b" then Some (ascii_of_nat 8)
  else if chr_eqb c "f" then Some (ascii_of_nat 12)
  else if chr_eqb c "n" then Some (ascii_of_nat 10)
  else if chr_eqb c "r" then Some (ascii_of_nat 13)
  else if chr_eqb c "t" then Some (ascii_of_nat 9)
  else if chr_eqb c "v" then Some (ascii_of_nat 11)
  else None.

Definition cons_char (n : N) (r : option string) : option string :=
  if (n <=? 255)%N then String (ascii_of_N n) <$> r else None.

(** The characters after the opening quote. *)
Fixpoint s_chars (s : string) : option string :=
  match s with
  | EmptyString => None
  | String c r =>
      if chr_eqb c dquote then
        match r with EmptyString => Some EmptyString | _ => None end
      else if chr_eqb c newline then None
      else if chr_eqb c backslash then
        match r with
        | EmptyString => None
        | String e r1 =>
            if is_octal e then
              match r1 with
              | EmptyString => None
              | String d2 r2 =>
                  if is_octal d2 then
                    match r2 with
                    | EmptyString => None
                    | String d3 r3 =>
                        if is_octal d3 then
                          cons_char (octal_value e * 64 + octal_value d2 * 8
                                     + octal_value d3) (s_chars r3)
                        else
                          cons_char (octal_value e * 8 + octal_value d2)
                                    (s_chars r2)
                    end
                  else cons_char (octal_value e) (s_chars r1)
              end
            else
              match simple_escape e with
              | Some v => String v <$> s_chars r1
              | None => None
              end
        end
      else String c <$> s_chars r
  end.

Definition value (literal : string) : option string :=
  match literal with
  | EmptyString => None
  | String c r => if chr_eqb c dquote then s_chars r else None
  end.

End CLiteral.


(** ** The intermediate representation *)

(** Python truthiness of a value that is [None] or a string. *)
Definition truthy (o : option string) : bool :=
  match o with
  | Some (String _ _) => true
  | _ => false
  end.

Record FunctionSignature : Type := mkSig {
  ret : string;
  fname : string;
  args : list (string * string)
}.

Module Option.
(** [short] is checked to be one character when the option is built.
    The back reference [option.optgroup] is not stored: an option is
    added to exactly one group, and every reader of the field reaches
    the option through that group (see [Command.iter_options]). *)
Record t : Type := mk {
  short : option ascii;
  long : string;
  symbol : string;
  arg : option string;
  type : option string;
  accumulate : option string
}.

Definition init (short : option string) (long_ : string)
  (arg type accumulate : option string) : result t :=
  short' ← match short with
           | None => Ok None
           | Some (String c EmptyString) => Ok (Some c)
           | Some s => die (IllegalShortOption s)
           end;
  _ ← match arg, type with
      | None, Some _ => die TypeWithoutArg
      | _, _ => Ok ()
      end;
  long' ← check_id_dash long_;
  symbol' ← check_id (replace_char "-" "_" long_);
  accumulate' ← match accumulate with
                | Some a => Some <$> check_id a
                | None => Ok None
                end;
  Ok {| short := short'; long := long'; symbol := symbol'; arg := arg;
        type := type; accumulate := accumulate' |}.

(** The keys an option claims in its group: the set [new_options] of
    [OptGroup.add_option]. *)
Definition keys (o : t) : list string :=
  ["long:" +:+ long o; "symbol:" +:+ symbol o]
  ++ match short o with
     | Some c => ["short:" +:+ str1 c]
     | None => []
     end.
End Option.

Module Argument.
Record t : Type := mk {
  name : string;
  symbol : string;
  type : string;
  repeat : bool;
  optional : bool
}.

Definition init (name type : string) (repeat optional : bool_attr) : result t :=
  name' ← check_id_dash name;
  symbol' ← check_id (replace_char "-" "_" name');
  repeat' ← check_bool repeat;
  optional' ← check_bool optional;
  Ok {| name := name'; symbol := symbol'; type := type;
        repeat := repeat'; optional := optional' |}.
End Argument.

Module OptGroup.
Record t : Type := mk {
  name : string;
  symbol : string;
  forward : bool;
  export_emit_args : bool;
  known_options : gset string;
  accumulations : gset string;
  options : list Option.t;
  private : bool;
  human : option string
}.

Definition init (name : string) (forward export_emit_args : bool_attr)
  (human : option string) : result t :=
  name' ← check_id name;
  symbol' ← check_id name;
  forward' ← check_bool forward;
  export_emit_args' ← check_bool export_emit_args;
  Ok {| name := name'; symbol := symbol'; forward := forward';
        export_emit_args := export_emit_args'; known_options := ∅;
        accumulations := ∅; options := []; private := false;
        human := human |}.

Definition set_private (og : t) : t :=
  {| name := name og; symbol := symbol og; forward := forward og;
     export_emit_args := export_emit_args og;
     known_options := known_options og;
     accumulations := accumulations og; options := options og;
     private := true; human := human og |}.

Definition struct_name (og : t) : string := name og +:+ "_opts".

Definition emit_args_function (og : t) : FunctionSignature :=
  {| ret := "void";
     fname := "emit_args_" +:+ name og +:+ "_opts";
     args := [("struct strlist*", "dest");
              ("const struct " +:+ struct_name og +:+ "*", "info")] |}.

Definition add_option (og : t) (option : Option.t) : result t :=
  let new_options : gset string := list_to_set (Option.keys option) in
  if bool_decide (new_options ∩ known_options og ≠ ∅) then
    die ConflictingOptions
  else
    Ok {| name := name og; symbol := symbol og; forward := forward og;
          export_emit_args := export_emit_args og;
          known_options := known_options og ∪ new_options;
          accumulations :=
            match Option.accumulate option with
            | Some a => accumulations og ∪ {[a]}
            | None => accumulations og
            end;
          options := options og ++ [option];
          private := private og; human := human og |}.
End OptGroup.

Module Command.
(** [optgroups] holds the attached groups.  A group is attached when
    its element ends or when it is referenced, and no handler changes a
    group after that ([add_option] only reaches the group that is still
    open), so the attached object and its value at the time it was
    attached are the same thing.  [has_doc] is the attribute that
    [op_c] attaches late; [None] stands for its absence. *)
Record t : Type := mk {
  name : string;
  symbol : string;
  altnames : list string;
  optgroups : list OptGroup.t;
  known_arguments : gset string;
  export_parse_args : bool;
  arguments : list Argument.t;
  has_doc : option bool
}.

Definition init (name symbol : string) (altnames : list string)
  (export_parse_args : bool_attr) : result t :=
  name' ← check_id_dash name;
  symbol' ← check_id symbol;
  altnames' ← mapM check_id_dash altnames;
  export_parse_args' ← check_bool export_parse_args;
  Ok {| name := name'; symbol := symbol'; altnames := altnames';
        optgroups := []; known_arguments := ∅;
        export_parse_args := export_parse_args'; arguments := [];
        has_doc := None |}.

Definition allnames (c : t) : list string := [name c] ++ altnames c.

(** The generator yields the options of the attached groups in order;
    each is paired with the group it is read from, which is what
    [option.optgroup] holds. *)
Definition iter_options (c : t) : list (OptGroup.t * Option.t) :=
  og ← optgroups c; option ← OptGroup.options og; [(og, option)].

Definition struct_name (c : t) : string := "cmd_" +:+ name c +:+ "_info".

Definition dispatch_function (c : t) : FunctionSignature :=
  {| ret := "int";
     fname := symbol c +:+ "_dispatch";
     args := [("int", "argc"); ("const char**", "argv")] |}.

Definition main_function (c : t) : FunctionSignature :=
  {| ret := "int";
     fname := symbol c +:+ "_main";
     args := [("const struct cmd_" +:+ symbol c +:+ "_info*", "info")] |}.

Definition make_args_function (c : t) : FunctionSignature :=
  {| ret := "struct strlist*";
     fname := "make_args_cmd_" +:+ name c;
     args := [("unsigned", "which");
              ("const struct cmd_" +:+ symbol c +:+ "_info*", "info")] |}.

Definition parse_args_function (c : t) : FunctionSignature :=
  {| ret := "void";
     fname := "parse_args_cmd_" +:+ symbol c;
     args := [("struct " +:+ struct_name c +:+ "*", "ret");
              ("int", "argc"); ("const char**", "argv")] |}.

(** The first attached group whose keys meet those of [og], if any. *)
Definition conflicting_optgroup (c : t) (og : OptGroup.t)
  : option OptGroup.t :=
  find (fun existing_og =>
          bool_decide (OptGroup.known_options existing_og
                       ∩ OptGroup.known_options og ≠ ∅))
       (optgroups c).

Definition add_optgroup (c : t) (og : OptGroup.t) : result t :=
  match conflicting_optgroup c og with
  | Some existing_og =>
      die (OptgroupConflict (OptGroup.name og) (OptGroup.name existing_og))
  | None =>
      Ok {| name := name c; symbol := symbol c; altnames := altnames c;
            optgroups := optgroups c ++ [og];
            known_arguments := known_arguments c;
            export_parse_args := export_parse_args c;
            arguments := arguments c; has_doc := has_doc c |}
  end.

Definition add_argument (c : t) (argument : Argument.t) : result t :=
  if bool_decide (Argument.name argument ∈ known_arguments c) then
    die (DuplicateArgumentName (Argument.name argument))
  else
    _ ← match last (arguments c) with
        | Some last_argument =>
            if Argument.optional last_argument
               && negb (Argument.optional argument)
            then die MandatoryFollowsOptional
            else if Argument.repeat last_argument
            then die RepeatMustBeLast
            else Ok ()
        | None => Ok ()
        end;
    Ok {| name := name c; symbol := symbol c; altnames := altnames c;
          optgroups := optgroups c;
          known_arguments := known_arguments c ∪ {[Argument.name argument]};
          export_parse_args := export_parse_args c;
          arguments := arguments c ++ [argument];
          has_doc := has_doc c |}.

Definition set_has_doc (c : t) (b : bool) : t :=
  {| name := name c; symbol := symbol c; altnames := altnames c;
     optgroups := optgroups c; known_arguments := known_arguments c;
     export_parse_args := export_parse_args c; arguments := arguments c;
     has_doc := Some b |}.
End Command.

(** ** The reader *)

(** What expat delivers. *)
Inductive event : Type :=
| StartElement (name : string) (attributes : list (string * string))
| EndElement (name : string)
| CharacterData (cdata : string)
| ProcessingInstruction (target data : string).

(** The keyword arguments of a start handler:
    [dict((k.replace("-","_"), v) for k, v in attributes.items())]. *)
Definition fixed_attr (attributes : list (string * string))
  : gmap string string :=
  foldl (fun d kv => <[replace_char "-" "_" kv.1 := kv.2]> d) ∅ attributes.

(** Binding keyword arguments to the parameters of a method: every
    required parameter is given, no keyword is named [self] (the
    instance is bound to that parameter already), and, unless the method
    takes extra keywords, no other keyword is given. *)
Definition bind_kwargs (required optional : list string) (rest : bool)
  (kw : gmap string string) : result unit :=
  if forallb (fun k => bool_decide (k ∈ dom kw)) required
     && negb (bool_decide ("self" ∈ dom kw))
     && (rest || bool_decide (dom kw ⊆ list_to_set (required ++ optional)))
  then Ok ()
  else Err TypeError.

(** A required keyword argument, once bound. *)
Definition kwarg (kw : gmap string string) (k : string) : result string :=
  match kw !! k with
  | Some v => Ok v
  | None => Err TypeError
  end.

(** The handlers a reader class supplies: the methods [on_<tag>_start],
    [on_<tag>_end], found by name, and [on_cdata]. *)
Class Handlers (S : Type) : Type := {
  start_handler : string -> gmap string string -> S -> result S;
  end_handler : string -> S -> result S;
  on_cdata : string -> S -> result S
}.

Section UsageFileReader.
Context {S : Type} `{Handlers S}.

Record UsageFileReader : Type := mkReader {
  defs : gset string;
  ifdefs : list (bool * Z);
  level : Z;
  self : S
}.

Definition reader_init (defs : gset string) (s : S) : UsageFileReader :=
  {| defs := defs; ifdefs := []; level := 0; self := s |}.

Definition enabled_p (r : UsageFileReader) : bool :=
  forallb fst (ifdefs r).

Definition CharacterDataHandler (cdata : string) (r : UsageFileReader)
  : result UsageFileReader :=
  if negb (enabled_p r) then Ok r
  else
    s ← on_cdata cdata (self r);
    Ok {| defs := defs r; ifdefs := ifdefs r; level := level r; self := s |}.

Definition StartElementHandler (name : string)
  (attributes : list (string * string)) (r : UsageFileReader)
  : result UsageFileReader :=
  if negb (enabled_p r) then Ok r
  else
    let fixed := fixed_attr attributes in
    let level' := level r + 1 in
    s ← start_handler (on_start_function name) fixed (self r);
    Ok {| defs := defs r; ifdefs := ifdefs r; level := level'; self := s |}.

Definition EndElementHandler (name : string) (r : UsageFileReader)
  : result UsageFileReader :=
  if negb (enabled_p r) then Ok r
  else
    s ← end_handler (on_stop_function name) (self r);
    Ok {| defs := defs r; ifdefs := ifdefs r; level := level r - 1;
          self := s |}.

Definition ProcessingInstructionHandler (target data : string)
  (r : UsageFileReader) : result UsageFileReader :=
  let args := split_ws data in
  if bool_decide (target ∈ ["ifdef"; "ifndef"]) then
    match args with
    | [] => die NoIfdefCondition
    | [condition] =>
        let enable :=
          eqb (bool_decide (condition ∈ defs r))
              (bool_decide (target = "ifdef")) in
        Ok {| defs := defs r; ifdefs := ifdefs r ++ [(enable, level r)];
              level := level r; self := self r |}
    | _ => die IfdefSyntaxError
    end
  else if bool_decide (target = "endif") then
    match args with
    | _ :: _ => die InvalidEndifSyntax
    | [] =>
        match last (ifdefs r) with
        | None => Err IndexError
        | Some (_, saved_level) =>
            if bool_decide (level r ≠ saved_level) then die BadlyFormedIfdef
            else Ok {| defs := defs r; ifdefs := removelast (ifdefs r);
                       level := level r; self := self r |}
        end
    end
  else die (UnknownPI target).

Definition handle (ev : event) (r : UsageFileReader)
  : result UsageFileReader :=
  match ev with
  | StartElement name attributes => StartElementHandler name attributes r
  | EndElement name => EndElementHandler name r
  | CharacterData cdata => CharacterDataHandler cdata r
  | ProcessingInstruction target data =>
      ProcessingInstructionHandler target data r
  end.

(** [parse]: the events of the file, in order; the first exception ends
    the parse. *)
Fixpoint parse (file : list event) (r : UsageFileReader)
  : result UsageFileReader :=
  match file with
  | [] => Ok r
  | ev :: file' => r' ← handle ev r; parse file' r'
  end.
End UsageFileReader.
Arguments UsageFileReader S : clear implicits.

(** ** Ingest: [CommandSlurpingReader] *)

Definition MARKUP_TAGS : list string :=
  ["b"; "i"; "tt"; "section"; "ul"; "li"; "dl"; "dt"; "dd"; "usage";
   "synopsis"; "vspace"; "pre"].

(** [self.current], a dict whose keys are among the five scope kinds. *)
Record Current : Type := mkCurrent {
  cur_command : option Command.t;
  cur_optgroup : option OptGroup.t;
  cur_option : option Option.t;
  cur_argument : option Argument.t;
  cur_optgroup_reference : option OptGroup.t
}.

Record CommandSlurpingReader : Type := mkSlurp {
  commands : list Command.t;
  optgroups : list OptGroup.t;
  known_commands : gset string;
  current : Current
}.

Module Slurp.

Definition empty_current : Current :=
  {| cur_command := None; cur_optgroup := None; cur_option := None;
     cur_argument := None; cur_optgroup_reference := None |}.

Definition init : CommandSlurpingReader :=
  {| commands := []; optgroups := []; known_commands := ∅;
     current := empty_current |}.

Definition has_command (c : Current) : bool := bool_decide (is_Some (cur_command c)).
Definition has_optgroup (c : Current) : bool := bool_decide (is_Some (cur_optgroup c)).
Definition has_option (c : Current) : bool := bool_decide (is_Some (cur_option c)).
Definition has_argument (c : Current) : bool := bool_decide (is_Some (cur_argument c)).
Definition has_optgroup_reference (c : Current) : bool :=
  bool_decide (is_Some (cur_optgroup_reference c)).

Definition with_current (r : CommandSlurpingReader) (c : Current)
  : CommandSlurpingReader :=
  {| commands := commands r; optgroups := optgroups r;
     known_commands := known_commands r; current := c |}.

Definition set_command (c : Current) (v : option Command.t) : Current :=
  {| cur_command := v; cur_optgroup := cur_optgroup c;
     cur_option := cur_option c; cur_argument := cur_argument c;
     cur_optgroup_reference := cur_optgroup_reference c |}.
Definition set_optgroup (c : Current) (v : option OptGroup.t) : Current :=
  {| cur_command := cur_command c; cur_optgroup := v;
     cur_option := cur_option c; cur_argument := cur_argument c;
     cur_optgroup_reference := cur_optgroup_reference c |}.
Definition set_option (c : Current) (v : option Option.t) : Current :=
  {| cur_command := cur_command c; cur_optgroup := cur_optgroup c;
     cur_option := v; cur_argument := cur_argument c;
     cur_optgroup_reference := cur_optgroup_reference c |}.
Definition set_argument (c : Current) (v : option Argument.t) : Current :=
  {| cur_command := cur_command c; cur_optgroup := cur_optgroup c;
     cur_option := cur_option c; cur_argument := v;
     cur_optgroup_reference := cur_optgroup_reference c |}.
Definition set_optgroup_reference (c : Current) (v : option OptGroup.t)
  : Current :=
  {| cur_command := cur_command c; cur_optgroup := cur_optgroup c;
     cur_option := cur_option c; cur_argument := cur_argument c;
     cur_optgroup_reference := v |}.

(** [d.pop(k)] and [d[k]] *)
Definition need {A} (o : option A) : result A :=
  match o with
  | Some a => Ok a
  | None => Err KeyError
  end.

Definition bool_kwarg (kw : gmap string string) (k : string) (default : bool)
  : bool_attr :=
  match kw !! k with
  | Some v => Text v
  | None => Native default
  end.

Definition on_command_start (kw : gmap string string)
  (r : CommandSlurpingReader) : result CommandSlurpingReader :=
  _ ← bind_kwargs ["names"] ["export_parse_args"] false kw;
  names ← kwarg kw "names";
  let cur := current r in
  if has_command cur || has_optgroup cur || has_option cur
     || has_argument cur || has_optgroup_reference cur
  then die InvalidContext
  else
    names ← mapM check_id_dash (split_on "," names);
    match names with
    | [] => die NoNamesGiven
    | name0 :: altnames =>
        let symbol := replace_char "-" "_" name0 in
        let nameset : gset string := list_to_set names ∪ {[symbol]} in
        if bool_decide (known_commands r ∩ nameset ≠ ∅) then
          die DuplicateCommandNames
        else
          command ← Command.init name0 symbol altnames
                      (bool_kwarg kw "export_parse_args" false);
          Ok {| commands := commands r; optgroups := optgroups r;
                known_commands := known_commands r ∪ nameset;
                current := set_command cur (Some command) |}
    end.

Definition on_command_end (r : CommandSlurpingReader)
  : result CommandSlurpingReader :=
  command ← need (cur_command (current r));
  Ok {| commands := commands r ++ [command]; optgroups := optgroups r;
        known_commands := known_commands r;
        current := set_command (current r) None |}.

Definition on_optgroup_start (kw : gmap string string)
  (r : CommandSlurpingReader) : result CommandSlurpingReader :=
  _ ← bind_kwargs ["name"] ["forward"; "export_emit_args"; "human"] false kw;
  name ← kwarg kw "name";
  let cur := current r in
  if has_optgroup cur || has_option cur || has_argument cur
     || has_optgroup_reference cur
  then die InvalidContext
  else
    og ← OptGroup.init name (bool_kwarg kw "forward" true)
           (bool_kwarg kw "export_emit_args" false) (kw !! "human");
    let og := if has_command cur then OptGroup.set_private og else og in
    Ok (with_current r (set_optgroup cur (Some og))).

Definition on_optgroup_end (r : CommandSlurpingReader)
  : result CommandSlurpingReader :=
  optgroup ← need (cur_optgroup (current r));
  let cur := set_optgroup (current r) None in
  match cur_command cur with
  | Some command =>
      command' ← Command.add_optgroup command optgroup;
      Ok {| commands := commands r; optgroups := optgroups r ++ [optgroup];
            known_commands := known_commands r;
            current := set_command cur (Some command') |}
  | None =>
      Ok {| commands := commands r; optgroups := optgroups r ++ [optgroup];
            known_commands := known_commands r; current := cur |}
  end.

Definition on_option_start (kw : gmap string string)
  (r : CommandSlurpingReader) : result CommandSlurpingReader :=
  _ ← bind_kwargs ["long"] ["short"; "arg"; "type"; "accumulate"] false kw;
  long ← kwarg kw "long";
  let cur := current r in
  if negb (has_optgroup cur && negb (has_option cur))
  then die InvalidContext
  else
    option ← Option.init (kw !! "short") long (kw !! "arg")
               (kw !! "type") (kw !! "accumulate");
    Ok (with_current r (set_option cur (Some option))).

Definition on_option_end (r : CommandSlurpingReader)
  : result CommandSlurpingReader :=
  option ← need (cur_option (current r));
  let cur := set_option (current r) None in
  optgroup ← need (cur_optgroup cur);
  optgroup' ← OptGroup.add_option optgroup option;
  Ok (with_current r (set_optgroup cur (Some optgroup'))).

Definition on_argument_start (kw : gmap string string)
  (r : CommandSlurpingReader) : result CommandSlurpingReader :=
  _ ← bind_kwargs ["name"] ["optional"; "repeat"; "type"] false kw;
  name ← kwarg kw "name";
  let cur := current r in
  if negb (has_command cur && negb (has_argument cur))
  then die InvalidContext
  else
    argument ← Argument.init name (default "string" (kw !! "type"))
                 (bool_kwarg kw "repeat" false)
                 (bool_kwarg kw "optional" false);
    Ok (with_current r (set_argument cur (Some argument))).

Definition on_argument_end (r : CommandSlurpingReader)
  : result CommandSlurpingReader :=
  command ← need (cur_command (current r));
  argument ← need (cur_argument (current r));
  let cur := set_argument (current r) None in
  command' ← Command.add_argument command argument;
  Ok (with_current r (set_command cur (Some command'))).

Definition on_optgroup_reference_start (kw : gmap string string)
  (r : CommandSlurpingReader) : result CommandSlurpingReader :=
  _ ← bind_kwargs ["name"] [] false kw;
  name ← kwarg kw "name";
  let cur := current r in
  if negb (has_command cur && negb (has_optgroup_reference cur))
  then die InvalidContext
  else
    match find (fun candidate_og =>
                  bool_decide (OptGroup.name candidate_og = name))
               (optgroups r) with
    | None => die (NoOptgroupCalled name)
    | Some og => Ok (with_current r (set_optgroup_reference cur (Some og)))
    end.

Definition on_optgroup_reference_end (r : CommandSlurpingReader)
  : result CommandSlurpingReader :=
  command ← need (cur_command (current r));
  og ← need (cur_optgroup_reference (current r));
  let cur := set_optgroup_reference (current r) None in
  command' ← Command.add_optgroup command og;
  Ok (with_current r (set_command cur (Some command'))).

(** [IgnoreMarkup._ignore(self, **kwargs)] *)
Definition _ignore (kw : gmap string string) (r : CommandSlurpingReader)
  : result CommandSlurpingReader :=
  _ ← bind_kwargs [] [] true kw;
  Ok r.

Definition markup_starts : list string := on_start_function <$> MARKUP_TAGS.
Definition markup_ends : list string := on_stop_function <$> MARKUP_TAGS.

(** [getattr(self, method)] called with the keyword arguments [kw] *)
Definition start (method : string) (kw : gmap string string)
  (r : CommandSlurpingReader) : result CommandSlurpingReader :=
  if bool_decide (method = "on_command_start") then on_command_start kw r
  else if bool_decide (method = "on_optgroup_start") then on_optgroup_start kw r
  else if bool_decide (method = "on_option_start") then on_option_start kw r
  else if bool_decide (method = "on_argument_start") then on_argument_start kw r
  else if bool_decide (method = "on_optgroup_reference_start")
       then on_optgroup_reference_start kw r
  else if bool_decide (method ∈ markup_starts) then _ignore kw r
  else Err AttributeError.

(** [getattr(self, method)()] *)
Definition stop (method : string) (r : CommandSlurpingReader)
  : result CommandSlurpingReader :=
  if bool_decide (method = "on_command_end") then on_command_end r
  else if bool_decide (method = "on_optgroup_end") then on_optgroup_end r
  else if bool_decide (method = "on_option_end") then on_option_end r
  else if bool_decide (method = "on_argument_end") then on_argument_end r
  else if bool_decide (method = "on_optgroup_reference_end")
       then on_optgroup_reference_end r
  else if bool_decide (method ∈ markup_ends) then _ignore ∅ r
  else Err AttributeError.

#[global] Instance handlers : Handlers CommandSlurpingReader := {
  start_handler := start;
  end_handler := stop;
  on_cdata := fun _ r => Ok r
}.

(** The ingest of [main]: a fresh reader parses the file. *)
Definition ingest (defs : gset string) (file : list event)
  : result (UsageFileReader CommandSlurpingReader) :=
  parse file (reader_init defs init).

End Slurp.

(** ** The C emitters *)

Definition dq : string := str1 dquote.

(** [sep.join(parts)] *)
Fixpoint join (sep : string) (parts : list string) : string :=
  match parts with
  | [] => EmptyString
  | [p] => p
  | p :: ps => p +:+ sep +:+ join sep ps
  end.

Module Emit.
Import CW.

Definition signature_args (fn : FunctionSignature) : string :=
  join ", " ((fun a => a.1 +:+ " " +:+ a.2) <$> args fn).

Definition prototype (fn : FunctionSignature) (static : bool) : emitter :=
  writeln "%s%s %s(%s);"
    [if static then "static " else EmptyString; ret fn; fname fn;
     signature_args fn].

(** [with hf.function_definition(fn): body] *)
Definition function_definition (fn : FunctionSignature) (body : emitter)
  : emitter :=
  (writeln "%s" [ret fn] ;;
   writeln "%s(%s)" [fname fn; signature_args fn] ;;
   writeln "{" [] ;;
   indented (Some "}") body)%emit.

Definition emit_make_args_cmd_function (command : Command.t) : emitter :=
  function_definition (Command.make_args_function command)
    (writeln "struct strlist* dest = strlist_new();" [] ;;
     for_each (Command.optgroups command) (fun og =>
       let flag := if OptGroup.forward og then "CMD_ARG_FORWARDED"
                   else "CMD_ARG_NON_FORWARDED" in
       if_ "which & %s" [flag]
         (writeln "%s(dest, &info->%s);"
            [fname (OptGroup.emit_args_function og); OptGroup.symbol og])) ;;
     if_ "which & CMD_ARG_FORWARDED" []
       (writeln ("strlist_append(dest, " +:+ dq +:+ "--" +:+ dq +:+ ");") []) ;;
     for_each (Command.arguments command) (fun argument =>
       if_ "which & CMD_ARG_FORWARDED" []
         (if Argument.repeat argument then
            writeln "strlist_extend_argv(dest, info->%s);"
              [Argument.symbol argument]
          else
            writeln "strlist_append(dest, info->%s);"
              [Argument.symbol argument])) ;;
     writeln "return dest;" [])%emit.

(** [option.optgroup] is the group [og] the option is read from. *)
Definition emit_record_option (og : OptGroup.t) (option : Option.t)
  : emitter :=
  match Option.accumulate option with
  | Some (String _ _ as accumulate) =>
      writeln "accumulate_option((struct strlist**)&ret->%s.%s, %s, %s);"
        [OptGroup.symbol og; accumulate; quote_string (Option.long option);
         match Option.arg option with None => "NULL" | Some _ => "optarg" end]
  | _ =>
      match Option.arg option with
      | None =>
          writeln "ret->%s.%s = 1;" [OptGroup.symbol og; Option.symbol option]
      | Some _ =>
          writeln "ret->%s.%s = optarg;"
            [OptGroup.symbol og; Option.symbol option]
      end
  end.

(** The loop that builds [short_spec_parts]. *)
Fixpoint short_spec_parts (options : list (OptGroup.t * Option.t))
  : list string :=
  match options with
  | [] => []
  | (_, option) :: rest =>
      match Option.short option with
      | None => []
      | Some c =>
          [str1 c] ++ match Option.arg option with
                      | Some _ => [":"]
                      | None => []
                      end
      end ++ short_spec_parts rest
  end.

Definition short_spec (command : Command.t) : string :=
  concat (["+:"] ++ short_spec_parts (Command.iter_options command)).

Definition need_long_only (command : Command.t) : bool :=
  existsb (fun x => bool_decide (Option.short x.2 = None))
          (Command.iter_options command).

(** One row of [long_opts]. *)
Definition long_opt_row (option : Option.t) : emitter :=
  writeln "{%s, %s, NULL, %s},"
    [quote_string (Option.long option);
     match Option.arg option with
     | None => "no_argument"
     | Some _ => "required_argument"
     end;
     match Option.short option with
     | None => "0"
     | Some c => quote_char c
     end].

(** [enumerate(l)] *)
Definition enumerate {A} (l : list A) : list (nat * A) :=
  zip (seq 0%nat (length l)) l.

Definition emit_capture_argument (argument : Argument.t) : emitter :=
  if Argument.repeat argument then
    writeln ("ret->" +:+ Argument.symbol argument +:+ " = argv;") []
  else
    writeln "ret->%s = *argv++;" [Argument.symbol argument].

(** [command.has_doc], an attribute that [op_c] attaches. *)
Definition read_has_doc (command : Command.t) (k : bool -> emitter)
  : emitter :=
  match Command.has_doc command with
  | Some b => k b
  | None => fun _ => Err AttributeError
  end.

Definition emit_parse_args_cmd_function (command : Command.t) : emitter :=
  function_definition (Command.parse_args_function command)
    (let short_spec := short_spec command in
     let need_long_only := need_long_only command in
     writeln "optind = 1;" [] ;;
     writeln "static const struct option long_opts[] = {" [] ;;
     indented (Some "};")
       (for_each (Command.iter_options command) (fun x => long_opt_row x.2) ;;
        writeln "{0}" []) ;;
     writeln "static const char short_opts[] = %s;" [quote_string short_spec] ;;
     while_ "1" []
       (writeln "int long_idx = -1; (void) long_idx;" [] ;;
        writeln ("int c = getopt_long(argc, (char**) argv, "
                 +:+ "short_opts, long_opts, %s);")
          [if need_long_only then "&long_idx" else "NULL"] ;;
        if_ "c == -1" [] (writeln "break;" []) ;;
        switch "c" []
          (for_each (Command.iter_options command) (fun x =>
             match Option.short x.2 with
             | None => skip
             | Some c => case "%s" [quote_char c] (emit_record_option x.1 x.2)
             end) ;;
           (if need_long_only then
              case "0" []
                (switch "long_idx" []
                   (for_each (enumerate (Command.iter_options command))
                      (fun ix =>
                         match Option.short ix.2.2 with
                         | Some _ => skip
                         | None =>
                             case "%s" [str_of_nat ix.1]
                               (emit_record_option ix.2.1 ix.2.2)
                         end)))
            else skip) ;;
           default
             (read_has_doc command (fun has_doc =>
                writeln "default_getopt(c, argv, %s);"
                  [if has_doc then Command.symbol command +:+ "_usage"
                   else "NULL"])))) ;;
     writeln "argv += optind;" [] ;;
     for_each (Command.arguments command) (fun argument =>
       (if negb (Argument.optional argument) then
          if_ "*argv == NULL" []
            (writeln ("usage_error(" +:+ dq +:+ "argument %%s not present"
                      +:+ dq +:+ ", %s);")
               [quote_string (Argument.name argument)])
        else skip) ;;
       (if Argument.optional argument && negb (Argument.repeat argument) then
          if_ "*argv != NULL" [] (emit_capture_argument argument)
        else emit_capture_argument argument)) ;;
     (let saw_repeat := existsb Argument.repeat (Command.arguments command) in
      if negb saw_repeat then
        if_ "*argv != NULL" []
          (writeln ("usage_error(" +:+ dq +:+ "too many arguments" +:+ dq
                    +:+ ");") [])
      else skip))%emit.

(** [sorted(s)] for a set of strings. *)
Definition sorted (s : gset string) : list string :=
  merge_sort String.le (elements s).

Definition emit_emit_args_og_function (og : OptGroup.t) : emitter :=
  function_definition (OptGroup.emit_args_function og)
    (for_each (sorted (OptGroup.accumulations og)) (fun accumulation =>
       if_ "info->%s != NULL" [accumulation]
         (writeln "append_argv_accumulation(dest, info->%s);" [accumulation])) ;;
     for_each (OptGroup.options og) (fun option =>
       if truthy (Option.accumulate option) then skip
       else
         let cond :=
           if truthy (Option.arg option)
           then "info->" +:+ Option.symbol option +:+ " != NULL"
           else "info->" +:+ Option.symbol option +:+ " != 0" in
         if_ "%s" [cond]
           (writeln ("strlist_append(dest, " +:+ dq +:+ "-%s" +:+ dq +:+ ");")
              [match Option.short option with
               | Some c => str1 c
               | None => "-" +:+ Option.long option
               end] ;;
            if truthy (Option.arg option) then
              writeln "strlist_append(dest, info->%s);" [Option.symbol option]
            else skip)))%emit.

Definition emit_dispatch_function (command : Command.t) : emitter :=
  (prototype (Command.dispatch_function command) true ;;
   function_definition (Command.dispatch_function command)
     (writeln "struct %s info;" [Command.struct_name command] ;;
      writeln "memset(&info, 0, sizeof(info));" [] ;;
      writeln "%s(&info, argc, argv);"
        [fname (Command.parse_args_function command)] ;;
      writeln "return %s(&info);"
        [fname (Command.main_function command)]))%emit.

(** The registry that ends the output of [op_c]. *)
Definition emit_autocmds (commands : list Command.t) : emitter :=
  (writeln "const struct cmd autocmds[] = {" [] ;;
   indented (Some "};")
     (for_each commands (fun command =>
        for_each (Command.allnames command) (fun name =>
          writeln "{" [] ;;
          indented (Some "},")
            (writeln ".name = %s," [quote_string name] ;;
             writeln ".main = %s,"
               [fname (Command.dispatch_function command)]))) ;;
      writeln "{0}" []))%emit.

End Emit.

(** ** The documentation walker *)

Module BufferingWriter.
(** [output] is the text written to the underlying stream;
    [output_buffer] is the [StringIO] opened by [ob_start], if any. *)
Record t : Type := mk {
  output : string;
  output_buffer : option string
}.

Definition init : t := {| output := EmptyString; output_buffer := None |}.

Definition write (text : string) (w : t) : t :=
  match output_buffer w with
  | Some b => {| output := output w; output_buffer := Some (b +:+ text) |}
  | None => {| output := output w +:+ text; output_buffer := None |}
  end.

Definition ob_start (w : t) : result t :=
  match output_buffer w with
  | None => Ok {| output := output w; output_buffer := Some EmptyString |}
  | Some _ => Err AssertionError
  end.

Definition ob_get_contents (w : t) : option string := output_buffer w.

(** Returns the writer and the contents, [None] when no buffer is open. *)
Definition ob_end_flush (w : t) : t * option string :=
  match ob_get_contents w with
  | Some contents =>
      (write contents {| output := output w; output_buffer := None |},
       Some contents)
  | None => (w, None)
  end.
End BufferingWriter.

(** [OrderedDict(pairs)]: a later pair with a key already present replaces
    the value and keeps the position. *)
Fixpoint od_set {V} (k : string) (v : V) (d : list (string * V))
  : list (string * V) :=
  match d with
  | [] => [(k, v)]
  | (k', v') :: d' =>
      if bool_decide (k' = k) then (k, v) :: d' else (k', v') :: od_set k v d'
  end.

Definition ordered_dict {V} (pairs : list (string * V)) : list (string * V) :=
  foldl (fun d kv => od_set kv.1 kv.2 d) [] pairs.

Fixpoint od_get {V} (k : string) (d : list (string * V)) : result V :=
  match d with
  | [] => Err KeyError
  | (k', v) :: d' => if bool_decide (k' = k) then Ok v else od_get k d'
  end.

Module Pod.

Record t : Type := mk {
  optgroups : list (string * OptGroup.t);
  commands : list (string * Command.t);
  paragraph : list string;
  pre_depth : Z;
  out : BufferingWriter.t;
  section_contents : gmap string (option string);
  full_optgroups : bool;
  current_section : option string;
  current_command : option Command.t
}.

Definition with_paragraph (p : list string) (r : t) : t :=
  {| optgroups := optgroups r; commands := commands r; paragraph := p;
     pre_depth := pre_depth r; out := out r;
     section_contents := section_contents r;
     full_optgroups := full_optgroups r;
     current_section := current_section r;
     current_command := current_command r |}.

Definition with_out (w : BufferingWriter.t) (r : t) : t :=
  {| optgroups := optgroups r; commands := commands r;
     paragraph := paragraph r; pre_depth := pre_depth r; out := w;
     section_contents := section_contents r;
     full_optgroups := full_optgroups r;
     current_section := current_section r;
     current_command := current_command r |}.

Definition with_pre_depth (d : Z) (r : t) : t :=
  {| optgroups := optgroups r; commands := commands r;
     paragraph := paragraph r; pre_depth := d; out := out r;
     section_contents := section_contents r;
     full_optgroups := full_optgroups r;
     current_section := current_section r;
     current_command := current_command r |}.

Definition with_current_section (s : option string) (r : t) : t :=
  {| optgroups := optgroups r; commands := commands r;
     paragraph := paragraph r; pre_depth := pre_depth r; out := out r;
     section_contents := section_contents r;
     full_optgroups := full_optgroups r;
     current_section := s;
     current_command := current_command r |}.

Definition with_section_contents (m : gmap string (option string)) (r : t)
  : t :=
  {| optgroups := optgroups r; commands := commands r;
     paragraph := paragraph r; pre_depth := pre_depth r; out := out r;
     section_contents := m;
     full_optgroups := full_optgroups r;
     current_section := current_section r;
     current_command := current_command r |}.

Definition with_current_command (c : option Command.t) (r : t) : t :=
  {| optgroups := optgroups r; commands := commands r;
     paragraph := paragraph r; pre_depth := pre_depth r; out := out r;
     section_contents := section_contents r;
     full_optgroups := full_optgroups r;
     current_section := current_section r;
     current_command := c |}.

Definition write (text : string) (r : t) : t :=
  with_out (BufferingWriter.write text (out r)) r.

Definition nl2 : string := String newline (str1 newline).

Definition flush_paragraph (r : t) : t :=
  let text := concat (paragraph r) in
  let r := with_paragraph [] r in
  let text := sub_wsruns text in
  let text := strip text in
  if negb (bool_decide (text = EmptyString))
     && negb (bool_decide (text = "Z<>"))
  then
    let r := if 0 <? pre_depth r then write " " r else r in
    let r := write (strip text) r in
    write nl2 r
  else r.

Definition PODESCAPE (c : ascii) : option string :=
  if chr_eqb c "<" then Some "E<lt>"
  else if chr_eqb c ">" then Some "E<gt>"
  else if chr_eqb c "|" then Some "E<verbar>"
  else if chr_eqb c "/" then Some "E<sol>"
  else None.

(** [re.sub(PODSPECIAL, escape_repl, text)] *)
Fixpoint escape (text : string) : string :=
  match text with
  | EmptyString => EmptyString
  | String c rest =>
      match PODESCAPE c with
      | Some e => e +:+ escape rest
      | None => String c (escape rest)
      end
  end.

Definition quote (r : t) (text : string) : string :=
  if 0 <? pre_depth r then text else escape text.

Definition spool (part : string) (r : t) : t :=
  with_paragraph (paragraph r ++ [part]) r.

Definition on_cdata (cdata : string) (r : t) : t :=
  let cdata := quote r cdata in
  let cdata := sub_wsruns cdata in
  match paragraph r with
  | [] =>
      let cdata := lstrip cdata in
      if bool_decide (cdata = EmptyString) then r
      else
        let r := if bool_decide (pre_depth r = 0) then spool "Z<>" r else r in
        spool cdata r
  | _ :: _ => spool cdata r
  end.

Definition command (fmt : string) (args : list string) (r : t) : result t :=
  let r := flush_paragraph r in
  text ← pyfmt fmt args;
  let r := spool text r in
  Ok (flush_paragraph r).

Definition start_section_buffer (title : string) (r : t) : result t :=
  match current_section r with
  | Some _ => Err AssertionError
  | None =>
      let r := with_current_section (Some title) r in
      w ← BufferingWriter.ob_start (out r);
      Ok (with_out w r)
  end.

Definition flush_section_buffer (r : t) : t :=
  let r := flush_paragraph r in
  match current_section r with
  | Some section_name =>
      let '(w, contents) := BufferingWriter.ob_end_flush (out r) in
      let r := with_out w r in
      let r := with_current_section None r in
      with_section_contents (<[section_name := contents]> (section_contents r)) r
  | None => r
  end.

Definition head1 (title : string) (args : list string) (r : t) : result t :=
  let r := flush_section_buffer r in
  expanded_title ← pyfmt title args;
  heading ← upper (quote r expanded_title);
  r ← command "=head1 %s" [heading] r;
  start_section_buffer expanded_title r.

Definition head2 (title : string) (args : list string) (r : t) : result t :=
  text ← pyfmt title args;
  command "=head2 %s" [quote r text] r.

Definition head3 (title : string) (args : list string) (r : t) : result t :=
  text ← pyfmt title args;
  command "=head3 %s" [quote r text] r.

Definition init (optgroups : list OptGroup.t) (commands : list Command.t)
  (full_optgroups : bool) : result t :=
  command "=encoding utf8" []
    {| optgroups := ordered_dict ((fun og => (OptGroup.name og, og)) <$> optgroups);
       commands := ordered_dict ((fun c => (Command.name c, c)) <$> commands);
       paragraph := [];
       pre_depth := 0;
       out := BufferingWriter.init;
       section_contents := ∅;
       full_optgroups := full_optgroups;
       current_section := None;
       current_command := None |}.

Definition on_section_start (name : string) (r : t) : result t :=
  head1 name [] r.

Definition on_section_end (r : t) : result t := Ok (flush_paragraph r).

Definition on_usage_start (program summary : string) (r : t) : result t :=
  r ← on_section_start "Name" r;
  let r := on_cdata (program +:+ " - " +:+ summary) r in
  on_section_end r.

Definition on_usage_end (r : t) : result t :=
  let r := flush_paragraph r in
  Ok (flush_section_buffer r).

Definition all_options (cmd : Command.t) : list Option.t :=
  snd <$> Command.iter_options cmd.

Definition quote_opt (r : t) (prefix : string) (a : option string)
  (suffix : string) : string :=
  match a with
  | Some a => prefix +:+ quote r a +:+ suffix
  | None => EmptyString
  end.

(** The text [s] of [write_command_synopsis] before the arguments. *)
Definition synopsis_options (r : t) (cmd : Command.t) (verbose : bool)
  : string :=
  let s := "B<fbadb " +:+ quote r (Command.name cmd) +:+ "> " in
  if negb verbose then
    s +:+ match Command.optgroups cmd with
          | [] => EmptyString
          | _ :: _ => " [options]"
          end
  else
    let short_simple :=
      omap (fun option =>
              match Option.short option, Option.arg option with
              | Some c, None => Some (str1 c)
              | _, _ => None
              end) (all_options cmd) in
    let s := match short_simple with
             | [] => s
             | _ :: _ => s +:+ "[B<-" +:+ quote r (concat short_simple) +:+ ">] "
             end in
    foldl (fun s option =>
             let s := match Option.short option with
                      | Some c =>
                          s +:+ " [B<-" +:+ quote r (str1 c) +:+ ">"
                            +:+ quote_opt r "I<" (Option.arg option) ">"
                            +:+ "]"
                      | None => s
                      end in
             s +:+ " S<[B<--" +:+ quote r (Option.long option) +:+ ">"
               +:+ quote_opt r "=I<" (Option.arg option) ">" +:+ "]>")
          s (all_options cmd).

Definition write_command_synopsis (cmd : Command.t) (verbose : bool) (r : t)
  : result t :=
  let s := synopsis_options r cmd verbose in
  let '(s, optdepth) :=
    foldl (fun so argument =>
             let arg_s := "I<" +:+ quote r (Argument.name argument)
                          +:+ (if Argument.repeat argument then "..."
                               else EmptyString) +:+ ">" in
             let '(arg_s, optdepth) :=
               if Argument.optional argument
               then ("[" +:+ arg_s, S so.2) else (arg_s, so.2) in
             (so.1 +:+ " " +:+ arg_s, optdepth))
          (s, O) (Command.arguments cmd) in
  let s := s +:+ repeat_str "]" optdepth in
  command "%s" [s] r.

(** [for x in l: r = body x r], stopping at the first exception. *)
Fixpoint for_each {A} (l : list A) (body : A -> t -> result t) (r : t)
  : result t :=
  match l with
  | [] => Ok r
  | x :: l' => r' ← body x r; for_each l' body r'
  end.

Definition on_synopsis_start (r : t) : result t :=
  r ← for_each (snd <$> commands r)
        (fun cmd => write_command_synopsis cmd false) r;
  command "See command-specific sections below for details." [] r.

Definition section_title_for_optgroup (og : OptGroup.t) : result string :=
  upper ((if truthy (OptGroup.human og)
          then default EmptyString (OptGroup.human og)
          else OptGroup.name og) +:+ " options").

Definition section_title_for_command (cmd : Command.t) : string :=
  Command.name cmd +:+ " command".

Definition on_optgroup_start (name : string) (r : t) : result t :=
  og ← od_get name (optgroups r);
  r ← (if negb (OptGroup.private og)
       then title ← section_title_for_optgroup og; head1 "%s" [title] r
       else Ok r);
  command "=over" [] r.

Definition on_optgroup_end (r : t) : result t := command "=back" [] r.

Definition on_option_start (short : option string) (long : string)
  (arg : option string) (r : t) : result t :=
  let label :=
    match arg, short with
    | None, None => "B<--" +:+ quote r long +:+ ">"
    | None, Some short =>
        "B<-" +:+ quote r short +:+ ">, B<--" +:+ quote r long +:+ ">"
    | Some arg, None =>
        "B<--" +:+ quote r long +:+ ">=I<" +:+ quote r arg +:+ ">"
    | Some arg, Some short =>
        "B<-" +:+ quote r short +:+ ">I<" +:+ quote r arg +:+ ">, B<--"
          +:+ quote r long +:+ ">=I<" +:+ quote r arg +:+ ">"
    end in
  command "=item %s" [label] r.

Definition on_command_start (names : string) (r : t) : result t :=
  let names := strip <$> split_on "," names in
  name ← match names with
         | n :: _ => Ok n
         | [] => Err IndexError
         end;
  cmd ← od_get name (commands r);
  let r := with_current_command (Some cmd) r in
  r ← head1 "%s" [section_title_for_command cmd] r;
  write_command_synopsis cmd true r.

(** [fmt_nlo]: [x.1] is the group of the option, [x.2] its flag. *)
Definition fmt_nlo (r : t) (x : OptGroup.t * string) : result string :=
  let text := "B<" +:+ quote r x.2 +:+ ">" in
  title ← section_title_for_optgroup x.1;
  Ok ("L<" +:+ text +:+ "|/" +:+ title +:+ ">").

Definition nonlocal_options (cmd : Command.t) : list (OptGroup.t * string) :=
  og ← filter (fun og => OptGroup.private og = false) (Command.optgroups cmd);
  option ← OptGroup.options og;
  match Option.short option with
  | Some c => [(og, "-" +:+ str1 c)]
  | None => []
  end ++ [(og, "--" +:+ Option.long option)].

Definition on_command_end (r : t) : result t :=
  let r := flush_paragraph r in
  cmd ← match current_command r with
        | Some cmd => Ok cmd
        | None => Err AttributeError
        end;
  let nlo := nonlocal_options cmd in
  r ← (if full_optgroups r then Ok r
       else match nlo with
            | [x] =>
                text ← fmt_nlo r x;
                command ("The " +:+ text +:+ " option is described above.")
                  [] r
            | [] => Ok r
            | _ =>
                texts ← mapM (fmt_nlo r) (removelast nlo);
                last_text ← match last nlo with
                            | Some x => fmt_nlo r x
                            | None => Ok EmptyString
                            end;
                command ("The " +:+ join ", " texts +:+ ", and "
                         +:+ last_text
                         +:+ " options are described above.") [] r
            end);
  Ok (with_current_command None r).

Definition on_argument_start (name : string) (r : t) : result t :=
  let r := flush_paragraph r in
  r ← command "=over" [] r;
  command "=item I<%s>" [quote r name] r.

Definition on_optgroup_reference_start (name : string) (r : t) : result t :=
  if full_optgroups r then
    og ← od_get name (optgroups r);
    title ← section_title_for_optgroup og;
    match section_contents r !! title with
    | None => Err KeyError
    | Some None => Err TypeError
    | Some (Some text) => Ok (write text r)
    end
  else Ok r.

Definition on_dt_start (r : t) : result t :=
  Ok (spool "=item B<" (flush_paragraph r)).

Definition on_dt_end (r : t) : result t :=
  Ok (flush_paragraph (spool ">" r)).

Definition on_pre_start (r : t) : result t :=
  let r := flush_paragraph r in
  Ok (with_pre_depth (pre_depth r + 1) r).

Definition on_pre_end (r : t) : result t :=
  let r := flush_paragraph r in
  Ok (with_pre_depth (pre_depth r - 1) r).

Definition on_vspace_start (r : t) : result t := command "Z<>" [] r.

(** The start handlers, found by name and called with the keyword
    arguments [kw]. *)
Definition start (method : string) (kw : gmap string string) (r : t)
  : result t :=
  if bool_decide (method = "on_usage_start") then
    _ ← bind_kwargs ["program"; "summary"] [] false kw;
    program ← kwarg kw "program";
    summary ← kwarg kw "summary";
    on_usage_start program summary r
  else if bool_decide (method = "on_section_start") then
    _ ← bind_kwargs ["name"] [] false kw;
    name ← kwarg kw "name";
    on_section_start name r
  else if bool_decide (method = "on_synopsis_start") then
    _ ← bind_kwargs [] [] false kw; on_synopsis_start r
  else if bool_decide (method = "on_b_start") then
    _ ← bind_kwargs [] [] false kw; Ok (spool "B<" r)
  else if bool_decide (method = "on_i_start") then
    _ ← bind_kwargs [] [] false kw; Ok (spool "I<" r)
  else if bool_decide (method = "on_tt_start") then
    _ ← bind_kwargs [] [] false kw; Ok (spool "C<" r)
  else if bool_decide (method = "on_optgroup_start") then
    _ ← bind_kwargs ["name"] [] true kw;
    name ← kwarg kw "name";
    on_optgroup_start name r
  else if bool_decide (method = "on_option_start") then
    _ ← bind_kwargs ["long"] ["short"; "arg"] true kw;
    long ← kwarg kw "long";
    on_option_start (kw !! "short") long (kw !! "arg") r
  else if bool_decide (method = "on_vspace_start") then
    _ ← bind_kwargs [] [] false kw; on_vspace_start r
  else if bool_decide (method = "on_command_start") then
    _ ← bind_kwargs ["names"] [] true kw;
    names ← kwarg kw "names";
    on_command_start names r
  else if bool_decide (method = "on_argument_start") then
    _ ← bind_kwargs ["name"] ["optional"; "repeat"; "type"] false kw;
    name ← kwarg kw "name";
    on_argument_start name r
  else if bool_decide (method = "on_optgroup_reference_start") then
    _ ← bind_kwargs ["name"] [] false kw;
    name ← kwarg kw "name";
    on_optgroup_reference_start name r
  else if bool_decide (method = "on_ul_start") then
    _ ← bind_kwargs [] [] false kw; command "=over" [] r
  else if bool_decide (method = "on_li_start") then
    _ ← bind_kwargs [] [] false kw; command "=item *" [] r
  else if bool_decide (method = "on_dl_start") then
    _ ← bind_kwargs [] [] false kw; command "=over" [] r
  else if bool_decide (method = "on_dt_start") then
    _ ← bind_kwargs [] [] false kw; on_dt_start r
  else if bool_decide (method = "on_dd_start") then
    _ ← bind_kwargs [] [] false kw; Ok (flush_paragraph r)
  else if bool_decide (method = "on_pre_start") then
    _ ← bind_kwargs [] [] false kw; on_pre_start r
  else Err AttributeError.

Definition stop (method : string) (r : t) : result t :=
  if bool_decide (method = "on_usage_end") then on_usage_end r
  else if bool_decide (method = "on_section_end") then on_section_end r
  else if bool_decide (method = "on_synopsis_end") then Ok r
  else if bool_decide (method ∈ ["on_b_end"; "on_i_end"; "on_tt_end"])
       then Ok (spool ">" r)
  else if bool_decide (method = "on_optgroup_end") then on_optgroup_end r
  else if bool_decide (method = "on_option_end") then Ok (flush_paragraph r)
  else if bool_decide (method = "on_vspace_end") then Ok r
  else if bool_decide (method = "on_command_end") then on_command_end r
  else if bool_decide (method = "on_argument_end") then command "=back" [] r
  else if bool_decide (method = "on_optgroup_reference_end") then Ok r
  else if bool_decide (method = "on_li_end") then Ok r
  else if bool_decide (method ∈ ["on_ul_end"; "on_dl_end"])
       then command "=back" [] r
  else if bool_decide (method = "on_dt_end") then on_dt_end r
  else if bool_decide (method = "on_dd_end") then Ok (flush_paragraph r)
  else if bool_decide (method = "on_pre_end") then on_pre_end r
  else Err AttributeError.

#[global] Instance handlers : Handlers t := {
  start_handler := start;
  end_handler := stop;
  on_cdata := fun cdata r => Ok (on_cdata cdata r)
}.

(** [PodGeneratingReader(defs, out, optgroups, commands, full_optgroups)]
    followed by [parse(file)]. *)
Definition run (defs : gset string) (optgroups : list OptGroup.t)
  (commands : list Command.t) (full_optgroups : bool) (file : list event)
  : result (UsageFileReader t) :=
  pod ← init optgroups commands full_optgroups;
  parse file (reader_init defs pod).

End Pod.

(** ** The output modes *)

Section Ops.
(** The external formatter: [pod2text_process indent pod] is what
    [pod2text -c -i<indent>] prints when it is given [pod], or [None]
    when it ends with a return code other than zero. *)
Variable pod2text_process : Z -> string -> option string.

Definition pod2text (pod : string) (add_encoding : bool) (indent : Z)
  : result string :=
  let pod := if add_encoding
             then "=encoding utf8" +:+ Pod.nl2 +:+ pod else pod in
  match pod2text_process indent pod with
  | Some stdout_data => Ok stdout_data
  | None => die Pod2textFailed
  end.

(** The body of the loop of [op_c] that emits one command. *)
Definition op_c_command (section_contents : gmap string (option string))
  (command : Command.t) : emitter :=
  fun hf =>
    let pod_documentation :=
      match section_contents !! Pod.section_title_for_command command with
      | Some (Some doc) => Some doc
      | _ => None
      end in
    '(command, hf) ←
      match pod_documentation with
      | None => Ok (Command.set_has_doc command false, hf)
      | Some doc =>
          text ← pod2text doc true 0;
          hf ← CW.writeln ("static const char " +:+ Command.symbol command
                           +:+ "_usage[] = " +:+ CW.quote_string text
                           +:+ ";") [] hf;
          Ok (Command.set_has_doc command true, hf)
      end;
    (Emit.emit_make_args_cmd_function command ;;
     Emit.emit_parse_args_cmd_function command ;;
     Emit.emit_dispatch_function command)%emit hf.

(** [op_c]; the result is what was written to [sys.stdout]. *)
Definition op_c (commands_file : list event) (defs : gset string)
  (optgroups : list OptGroup.t) (commands : list Command.t)
  : result CWriter :=
  let doc_defs := defs ∪ {["DOC"]} in
  pod ← Pod.run doc_defs optgroups commands true commands_file;
  manpod ← Pod.run doc_defs optgroups commands false commands_file;
  let manpod_out := BufferingWriter.output (Pod.out (self manpod)) in
  full_usage ← pod2text manpod_out false 4;
  (CW.sysinclude "getopt.h" ;;
   CW.sysinclude "stdlib.h" ;;
   CW.sysinclude "string.h" ;;
   CW.include "util.h" ;;
   CW.include "autocmd.h" ;;
   CW.writeln "const char full_usage[] = %s;" [CW.quote_string full_usage] ;;
   for_each optgroups (fun og =>
     Emit.prototype (OptGroup.emit_args_function og)
       (negb (OptGroup.export_emit_args og))) ;;
   for_each commands (fun command =>
     Emit.prototype (Command.parse_args_function command)
       (negb (Command.export_parse_args command))) ;;
   for_each optgroups Emit.emit_emit_args_og_function ;;
   for_each commands
     (op_c_command (Pod.section_contents (self pod))) ;;
   Emit.emit_autocmds commands)%emit
    {| out := EmptyString; indent := 0 |}.

(** [op_pod]; the result is what was written to [sys.stdout]. *)
Definition op_pod (commands_file : list event) (defs : gset string)
  (optgroups : list OptGroup.t) (commands : list Command.t)
  : result string :=
  r ← Pod.run defs optgroups commands false commands_file;
  Ok (BufferingWriter.output (Pod.out (self r))).

(** [main] for the modes [c] and [pod]: ingest, then the mode. *)
Definition main_c (defs : gset string) (commands_file : list event)
  : result CWriter :=
  r ← Slurp.ingest defs commands_file;
  op_c commands_file defs (optgroups (self r)) (commands (self r)).

Definition main_pod (defs : gset string) (commands_file : list event)
  : result string :=
  r ← Slurp.ingest defs commands_file;
  op_pod commands_file defs (optgroups (self r)) (commands (self r)).
End Ops.

(** ** What the properties below speak about *)

(** [needle in haystack] *)
Fixpoint contains (needle haystack : string) : bool :=
  String.prefix needle haystack
  || match haystack with
     | EmptyString => false
     | String _ rest => contains needle rest
     end.

(** The keys of all options of all groups attached to a command, with
    their multiplicity. *)
Definition command_keys (c : Command.t) : list string :=
  x ← Command.iter_options c; Option.keys x.2.

(** No argument follows a repeat argument, and no mandatory argument
    follows an optional one. *)
Definition arguments_ordered (l : list Argument.t) : Prop :=
  ∀ before a after, l = before ++ a :: after →
    (after ≠ [] → Argument.repeat a = false)
    ∧ (Argument.optional a = true →
       ∀ b, b ∈ after → Argument.optional b = true).

(** The literals as the specification words them: the backslash and the
    active quote character are written after a backslash, a byte below
    0x20 and the byte 0x7F as a backslash and three octal digits, and
    every other byte as itself. *)
Definition spec_octal3 (n : N) : string :=
  String (ascii_of_N (48 + n / 64))
    (String (ascii_of_N (48 + (n / 8) mod 8))
       (String (ascii_of_N (48 + n mod 8)) EmptyString)).

Definition spec_escape (quote c : ascii) : string :=
  if Ascii.eqb c quote || Ascii.eqb c backslash
  then String backslash (String c EmptyString)
  else if (ord c <? 32)%N || (ord c =? 127)%N
       then String backslash (spec_octal3 (ord c))
       else String c EmptyString.

Fixpoint spec_escape_all (quote : ascii) (s : string) : string :=
  match s with
  | EmptyString => EmptyString
  | String c r => spec_escape quote c +:+ spec_escape_all quote r
  end.

Definition spec_string_literal (s : string) : string :=
  str1 dquote +:+ spec_escape_all dquote s +:+ str1 dquote.

Definition spec_char_constant (c : ascii) : string :=
  str1 squote +:+ spec_escape squote c +:+ str1 squote.

(** The registry as the specification words it: for every command in
    order, one entry for its primary name and then one for each of its
    alternate names, each with the command's dispatcher
    [<symbol>_dispatch]; then the sentinel.  [ind] is the indentation in
    force. *)
Definition registry_names (command : Command.t) : list string :=
  Command.name command :: Command.altnames command.

Definition registry_dispatcher (command : Command.t) : string :=
  Command.symbol command +:+ "_dispatch".

Definition registry_entry (ind name dispatcher : string) : string :=
  ind +:+ "  {" +:+ str1 newline
  +:+ ind +:+ "    .name = " +:+ spec_string_literal name +:+ ","
  +:+ str1 newline
  +:+ ind +:+ "    .main = " +:+ dispatcher +:+ "," +:+ str1 newline
  +:+ ind +:+ "  }," +:+ str1 newline.

Definition registry_text (ind : string) (commands : list Command.t) : string :=
  ind +:+ "const struct cmd autocmds[] = {" +:+ str1 newline
  +:+ concat (command ← commands;
              (fun name => registry_entry ind name
                             (registry_dispatcher command))
                <$> registry_names command)
  +:+ ind +:+ "  {0}" +:+ str1 newline
  +:+ ind +:+ "};" +:+ str1 newline.

(** The names of the entries of the registry, in order. *)
Definition registry_entry_names (commands : list Command.t) : list string :=
  command ← commands; registry_names command.

(** How often [needle] occurs in [haystack]. *)
Fixpoint occurrences (needle haystack : string) : nat :=
  (if String.prefix needle haystack then 1 else 0)
  + match haystack with
    | EmptyString => 0
    | String _ rest => occurrences needle rest
    end.

(** The options of a command in declaration order across its attached
    groups. *)
Definition command_options (command : Command.t) : list Option.t :=
  og ← Command.optgroups command; OptGroup.options og.

(** The lines that open the function [parse_args_cmd_<symbol>]. *)
Definition parse_args_opening (ind : string) (command : Command.t) : string :=
  ind +:+ "void" +:+ str1 newline
  +:+ ind +:+ "parse_args_cmd_" +:+ Command.symbol command
  +:+ "(struct cmd_" +:+ Command.name command
  +:+ "_info* ret, int argc, const char** argv)" +:+ str1 newline
  +:+ ind +:+ "{" +:+ str1 newline
  +:+ ind +:+ "  optind = 1;" +:+ str1 newline.

(** The option tables as the specification words them. *)
Definition long_opts_row_text (ind : string) (option : Option.t) : string :=
  ind +:+ "    {" +:+ spec_string_literal (Option.long option) +:+ ", "
  +:+ match Option.arg option with
      | None => "no_argument"
      | Some _ => "required_argument"
      end
  +:+ ", NULL, "
  +:+ match Option.short option with
      | Some c => spec_char_constant c
      | None => "0"
      end
  +:+ "}," +:+ str1 newline.

Definition short_opts_spec (options : list Option.t) : string :=
  "+:" +:+ concat ((fun option =>
                      match Option.short option with
                      | None => EmptyString
                      | Some c =>
                          String c (match Option.arg option with
                                    | Some _ => ":"
                                    | None => EmptyString
                                    end)
                      end) <$> options).

Definition option_tables_text (ind : string) (options : list Option.t)
  : string :=
  ind +:+ "  static const struct option long_opts[] = {" +:+ str1 newline
  +:+ concat (long_opts_row_text ind <$> options)
  +:+ ind +:+ "    {0}" +:+ str1 newline
  +:+ ind +:+ "  };" +:+ str1 newline
  +:+ ind +:+ "  static const char short_opts[] = "
  +:+ spec_string_literal (short_opts_spec options) +:+ ";"
  +:+ str1 newline.

(** The section that a start tag opens in the documentation walker.
    A [command] element opens the section titled by the first of its
    names, without the white space around it, followed by [ command]. *)
Definition command_element_title (names : string) : string :=
  strip (default EmptyString (head (split_on "," names))) +:+ " command".

(** The group that the walker's table holds under a name: the last group
    of the list with that name. *)
Definition group_named (name : string) (optgroups : list OptGroup.t)
  : option OptGroup.t :=
  last (filter (fun og => OptGroup.name og = name) optgroups).

(** The title of a group: its human name when it has one that is not
    empty, else its name, followed by [ options], in upper case. *)
Definition group_title (og : OptGroup.t) : result string :=
  upper (match OptGroup.human og with
         | Some h =>
             if bool_decide (h = EmptyString) then OptGroup.name og else h
         | None => OptGroup.name og
         end +:+ " options").

(** An [optgroup] element opens the section of the group that the table
    holds under its name, when that group is not private. *)
Definition element_title (optgroups : list OptGroup.t) (ev : event)
  : option string :=
  match ev with
  | StartElement tag attributes =>
      if bool_decide (tag = "command") then
        command_element_title <$> fixed_attr attributes !! "names"
      else if bool_decide (tag = "optgroup") then
        name ← fixed_attr attributes !! "name";
        og ← group_named name optgroups;
        if OptGroup.private og then None
        else match group_title og with
             | Ok title => Some title
             | Err _ => None
             end
      else None
  | _ => None
  end.

(** A title is recorded when the section-contents map has an entry under
    it, and pending when it is the section still being buffered. *)
Definition recorded (title : string) (r : Pod.t) : Prop :=
  is_Some (Pod.section_contents r !! title).

Definition recorded_or_pending (title : string) (r : Pod.t) : Prop :=
  recorded title r ∨ Pod.current_section r = Some title.

(** The keys of the options of a group, with their multiplicity. *)
Definition optgroup_keys (og : OptGroup.t) : list string :=
  option ← OptGroup.options og; Option.keys option.

(** ** Sample inputs *)

(** A shared group [style] with [-v/--verbose] and [--lang=L], and a
    command [greet] with the alias [g] that references the group and takes
    one argument. *)
Definition greet_file : list event :=
  [StartElement "usage" [("program", "fbadb"); ("summary", "greeter")];
   StartElement "optgroup" [("name", "style")];
   StartElement "option" [("short", "v"); ("long", "verbose")];
   CharacterData "Be loud.";
   EndElement "option";
   StartElement "option" [("long", "lang"); ("arg", "L")];
   EndElement "option";
   EndElement "optgroup";
   StartElement "command" [("names", "greet,g")];
   CharacterData "Greets.";
   StartElement "optgroup-reference" [("name", "style")];
   EndElement "optgroup-reference";
   StartElement "argument" [("name", "who")];
   EndElement "argument";
   EndElement "command";
   EndElement "usage"].

(** A stand-in for the external formatter that returns its input. *)
Definition echo_process : Z -> string -> option string := fun _ pod => Some pod.

(** [<section name="x"><?ifdef X?><b><?endif?></b></section>]: the
    [endif] closes one element deeper than its [ifdef] opened. *)
Definition crossed_ifdef_file : list event :=
  [StartElement "section" [("name", "x")];
   ProcessingInstruction "ifdef" "X";
   StartElement "b" [];
   ProcessingInstruction "endif" EmptyString;
   EndElement "b";
   EndElement "section"].

(** A group without options that one command references twice. *)
Definition twice_file : list event :=
  [StartElement "usage" [("program", "fbadb"); ("summary", "twice")];
   StartElement "optgroup" [("name", "none")];
   EndElement "optgroup";
   StartElement "command" [("names", "run")];
   StartElement "optgroup-reference" [("name", "none")];
   EndElement "optgroup-reference";
   StartElement "optgroup-reference" [("name", "none")];
   EndElement "optgroup-reference";
   EndElement "command";
   EndElement "usage"].

(** A file whose root is a [section]: the section of [hello] is the last
    one opened, and no [usage] element ends after it. *)
Definition section_root_file : list event :=
  [StartElement "section" [("name", "Commands")];
   StartElement "command" [("names", "hello")];
   CharacterData "Says hello.";
   EndElement "command";
   EndElement "section"].

(** A shared group [style] and a command with a private group of the
    same name. *)
Definition shadow_file : list event :=
  [StartElement "usage" [("program", "fbadb"); ("summary", "shadow")];
   StartElement "optgroup" [("name", "style")];
   StartElement "option" [("long", "verbose")];
   EndElement "option";
   EndElement "optgroup";
   StartElement "command" [("names", "greet")];
   StartElement "optgroup" [("name", "style")];
   StartElement "option" [("long", "lang")];
   EndElement "option";
   EndElement "optgroup";
   EndElement "command";
   EndElement "usage"].

(** A command with a mandatory argument, an optional one and an optional
    repeat argument, in this order. *)
Definition copy_file : list event :=
  [StartElement "usage" [("program", "fbadb"); ("summary", "copy")];
   StartElement "command" [("names", "copy,cp")];
   StartElement "argument" [("name", "source")];
   EndElement "argument";
   StartElement "argument" [("name", "target"); ("optional", "yes")];
   EndElement "argument";
   StartElement "argument"
     [("name", "more"); ("optional", "yes"); ("repeat", "yes")];
   EndElement "argument";
   EndElement "command";
   EndElement "usage"].

(** A preformatted block with two lines, and a vertical space. *)
Definition pre_file : list event :=
  [StartElement "usage" [("program", "fbadb"); ("summary", "pre")];
   StartElement "pre" [];
   CharacterData ("x  <y>" +:+ str1 newline +:+ "z");
   EndElement "pre";
   EndElement "usage"].

Definition vspace_file : list event :=
  [StartElement "usage" [("program", "fbadb"); ("summary", "vspace")];
   CharacterData "above";
   StartElement "vspace" [];
   EndElement "vspace";
   CharacterData "below";
   EndElement "usage"].

(** The walker just after a [pre] element has opened. *)
Definition pre_state : Pod.t :=
  {| Pod.optgroups := []; Pod.commands := []; Pod.paragraph := [];
     Pod.pre_depth := 1; Pod.out := BufferingWriter.init;
     Pod.section_contents := ∅; Pod.full_optgroups := true;
     Pod.current_section := None; Pod.current_command := None |}.

(** What ingest builds from [greet_file]. *)
Definition greet_ir : UsageFileReader CommandSlurpingReader :=
  match Slurp.ingest ∅ greet_file with
  | Ok r => r
  | Err _ => reader_init ∅ Slurp.init
  end.

(** ** Notions used by the proofs *)

(** [emits e i text]: at indentation [i] the emitter [e] succeeds, appends
    [text] and leaves the indentation as it was. *)
Definition emits (e : emitter) (i : Z) (text : string) : Prop :=
  ∀ hf, indent hf = i →
    e hf = Ok {| out := out hf +:+ text; indent := i |}.

(** [well_behaved e]: when [e] succeeds it has only appended to the output
    and has restored the indentation. *)
Definition well_behaved (e : emitter) : Prop :=
  ∀ hf hf', e hf = Ok hf' →
    indent hf' = indent hf ∧ ∃ text, out hf' = out hf +:+ text.

(** A group is consistent when its key set is the set of the keys of its
    options and no key occurs twice among them. *)
Definition optgroup_consistent (og : OptGroup.t) : Prop :=
  NoDup (optgroup_keys og)
  ∧ OptGroup.known_options og = list_to_set (optgroup_keys og).

Definition command_consistent (c : Command.t) : Prop :=
  Forall optgroup_consistent (Command.optgroups c)
  ∧ NoDup (command_keys c)
  ∧ arguments_ordered (Command.arguments c)
  ∧ Command.known_arguments c
    = list_to_set (Argument.name <$> Command.arguments c)
  ∧ NoDup (Argument.name <$> Command.arguments c).

(** The invariant of ingest. *)
Definition slurp_consistent (s : CommandSlurpingReader) : Prop :=
  Forall optgroup_consistent (optgroups s)
  ∧ Forall command_consistent (commands s)
  ∧ (∀ og, cur_optgroup (current s) = Some og → optgroup_consistent og)
  ∧ (∀ og, cur_optgroup_reference (current s) = Some og →
       optgroup_consistent og)
  ∧ (∀ c, cur_command (current s) = Some c → command_consistent c).

(** A text in which every run of [re_ws] characters is one space. *)
Fixpoint ws_collapsed (s : string) : bool :=
  match s with
  | EmptyString => true
  | String c r =>
      (negb (re_ws c)
       || (chr_eqb c " "
           && match r with
              | EmptyString => true
              | String d _ => negb (re_ws d)
              end))
      && ws_collapsed r
  end.

(** Two states of the walker with the same sections. *)
Definition keeps_sections (r r' : Pod.t) : Prop :=
  Pod.section_contents r' = Pod.section_contents r
  ∧ Pod.current_section r' = Pod.current_section r.

(** Every title recorded in [r] is recorded in [r'], and every title
    recorded or pending in [r] is so in [r']. *)
Definition advances (r r' : Pod.t) : Prop :=
  (∀ title, recorded title r → recorded title r')
  ∧ ∀ title, recorded_or_pending title r → recorded_or_pending title r'.

(** Two states of the walker with the same tables of groups and of
    commands. *)
Definition same_tables (r r' : Pod.t) : Prop :=
  Pod.optgroups r' = Pod.optgroups r ∧ Pod.commands r' = Pod.commands r.

(** The entries of the section-contents map under a title. *)
Definition entries_keyed (title : string) (r : Pod.t)
  : list (string * option string) :=
  filter (fun entry => entry.1 = title) (map_to_list (Pod.section_contents r)).

(** The events at which the walker closes the section that it is
    buffering: the start of an element that opens a section ([usage],
    [section], [command], and [optgroup] for a group that is not private)
    and the end of a [usage] element. *)
Definition closes_section (optgroups : list OptGroup.t) (ev : event) : bool :=
  match ev with
  | StartElement tag _ =>
      bool_decide (tag = "usage") || bool_decide (tag = "section")
      || match element_title optgroups ev with
         | Some _ => true
         | None => false
         end
  | EndElement tag => bool_decide (tag = "usage")
  | _ => false
  end.

(** ** Further notions: identifiers and the shape of a file *)

(** Every character of [s] is in the class [cls]. *)
Fixpoint all_chars (cls : ascii -> bool) (s : string) : bool :=
  match s with
  | EmptyString => true
  | String c r => cls c && all_chars cls r
  end.

Definition is_pi (ev : event) : bool :=
  match ev with
  | ProcessingInstruction _ _ => true
  | _ => false
  end.

(** The events between a conditional and its [endif] when the two are
    paired: elements and character data in any order, and conditionals
    that are closed in turn. *)
Inductive skippable : list event -> Prop :=
| skippable_nil : skippable []
| skippable_event ev rest :
    is_pi ev = false -> skippable rest -> skippable (ev :: rest)
| skippable_conditional target data condition blank body rest :
    target ∈ ["ifdef"; "ifndef"] ->
    split_ws data = [condition] ->
    split_ws blank = [] ->
    skippable body -> skippable rest ->
    skippable (ProcessingInstruction target data
               :: body ++ ProcessingInstruction "endif" blank :: rest).

(** A file in which elements and conditionals are nested in each other:
    every element closes inside the conditional that holds its start, and
    every conditional closes inside the element that holds its start. *)
Inductive well_nested : list event -> Prop :=
| well_nested_nil : well_nested []
| well_nested_cdata cdata rest :
    well_nested rest -> well_nested (CharacterData cdata :: rest)
| well_nested_element name attributes body rest :
    well_nested body -> well_nested rest ->
    well_nested (StartElement name attributes
                 :: body ++ EndElement name :: rest)
| well_nested_conditional target data blank body rest :
    target ∈ ["ifdef"; "ifndef"] ->
    well_nested body -> well_nested rest ->
    well_nested (ProcessingInstruction target data
                 :: body ++ ProcessingInstruction "endif" blank :: rest).

(** The two failures of the reader's own bookkeeping: an [endif] at a depth
    other than that of its conditional, and an [endif] without one. *)
Definition bookkeeping_error (e : error) : Prop :=
  e = Die BadlyFormedIfdef ∨ e = IndexError.

(** The handlers of a reader class are quiet when none of them raises one
    of the bookkeeping errors itself. *)
Definition handlers_quiet (S : Type) `{Handlers S} : Prop :=
  ∀ e, bookkeeping_error e →
    (∀ method kw s, start_handler method kw s ≠ Err e)
    ∧ (∀ method s, end_handler method s ≠ Err e)
    ∧ (∀ cdata s, on_cdata cdata s ≠ Err e).

(** ** Further notions: what ingest guarantees *)

(** The names that the emitters splice into C text are identifiers, and
    every symbol is its name with the dashes replaced. *)
Definition option_named (o : Option.t) : Prop :=
  ID_DASH (Option.long o) = true
  ∧ Option.symbol o = replace_char "-" "_" (Option.long o)
  ∧ ID (Option.symbol o) = true
  ∧ ∀ a, Option.accumulate o = Some a → ID a = true.

Definition argument_named (a : Argument.t) : Prop :=
  ID_DASH (Argument.name a) = true
  ∧ Argument.symbol a = replace_char "-" "_" (Argument.name a)
  ∧ ID (Argument.symbol a) = true.

(** The accumulations of a group are those its options name. *)
Definition optgroup_named (og : OptGroup.t) : Prop :=
  ID (OptGroup.name og) = true
  ∧ OptGroup.symbol og = OptGroup.name og
  ∧ Forall option_named (OptGroup.options og)
  ∧ OptGroup.accumulations og
    = list_to_set (omap Option.accumulate (OptGroup.options og)).

Definition command_named (c : Command.t) : Prop :=
  ID_DASH (Command.name c) = true
  ∧ Command.symbol c = replace_char "-" "_" (Command.name c)
  ∧ ID (Command.symbol c) = true
  ∧ Forall (λ n, ID_DASH n = true) (Command.altnames c)
  ∧ Forall optgroup_named (Command.optgroups c)
  ∧ Forall argument_named (Command.arguments c).

(** A property of every group, command, option and argument that the
    reader holds, finished or still open. *)
Definition slurp_all (Pog : OptGroup.t → Prop) (Pcmd : Command.t → Prop)
  (Popt : Option.t → Prop) (Parg : Argument.t → Prop)
  (s : CommandSlurpingReader) : Prop :=
  Forall Pog (optgroups s)
  ∧ Forall Pcmd (commands s)
  ∧ (∀ og, cur_optgroup (current s) = Some og → Pog og)
  ∧ (∀ og, cur_optgroup_reference (current s) = Some og → Pog og)
  ∧ (∀ c, cur_command (current s) = Some c → Pcmd c)
  ∧ (∀ o, cur_option (current s) = Some o → Popt o)
  ∧ (∀ a, cur_argument (current s) = Some a → Parg a).

(** The names a command claims: its name, its alternative names and its
    symbol, the set [nameset] of [on_command_start]. *)
Definition command_names (c : Command.t) : gset string :=
  list_to_set (Command.allnames c) ∪ {[Command.symbol c]}.

(** No command of the list shares a name with a later one. *)
Fixpoint commands_apart (l : list Command.t) : Prop :=
  match l with
  | [] => True
  | c :: l' =>
      (∀ c', c' ∈ l' → command_names c ## command_names c')
      ∧ commands_apart l'
  end.

(** The invariant of ingest on command names: the commands recorded share
    no name, [known_commands] holds the names of all of them and of the
    command that is open, and that command shares no name with them. *)
Definition names_apart (s : CommandSlurpingReader) : Prop :=
  commands_apart (commands s)
  ∧ (∀ c, c ∈ commands s → command_names c ⊆ known_commands s)
  ∧ (∀ c, cur_command (current s) = Some c →
       command_names c ⊆ known_commands s
       ∧ ∀ c', c' ∈ commands s → command_names c' ## command_names c).

(** Every group attached to a command, recorded or open, and the group a
    reference has resolved to, is among the groups the reader lists. *)
Definition groups_listed (s : CommandSlurpingReader) : Prop :=
  (∀ c, c ∈ commands s → Command.optgroups c ⊆ optgroups s)
  ∧ (∀ c, cur_command (current s) = Some c →
       Command.optgroups c ⊆ optgroups s)
  ∧ (∀ og, cur_optgroup_reference (current s) = Some og →
       og ∈ optgroups s).

(** The events that [CommandSlurpingReader] has no use for: the start
    tags of the elements of [MARKUP_TAGS] that have no attribute named
    [self] (with one, the call of the handler fails), their end tags, and
    character data. *)
Definition is_markup (ev : event) : bool :=
  match ev with
  | StartElement name attributes =>
      bool_decide (name ∈ MARKUP_TAGS)
      && negb (bool_decide ("self" ∈ dom (fixed_attr attributes)))
  | EndElement name => bool_decide (name ∈ MARKUP_TAGS)
  | CharacterData _ => true
  | ProcessingInstruction _ _ => false
  end.

(** A command among sections, text and bold text. *)
Definition markup_file : list event :=
  [StartElement "usage" [("program", "fbadb"); ("summary", "markup")];
   StartElement "section" [("name", "Intro")];
   CharacterData "Some ";
   StartElement "b" [];
   CharacterData "bold";
   EndElement "b";
   CharacterData " text.";
   EndElement "section";
   StartElement "command" [("names", "run")];
   CharacterData "Runs.";
   EndElement "command";
   EndElement "usage"].

(** Markup with a conditional that holds and one that does not when only
    [X] is defined, each nested in the element that holds it. *)
Definition nested_file : list event :=
  [StartElement "b" [];
   ProcessingInstruction "ifdef" "X";
   StartElement "i" [];
   CharacterData "x";
   EndElement "i";
   ProcessingInstruction "endif" EmptyString;
   ProcessingInstruction "ifndef" "X";
   StartElement "tt" [];
   EndElement "tt";
   ProcessingInstruction "endif" EmptyString;
   EndElement "b"].

(** A bold element whose start tag has an attribute named [self]. *)
Definition self_file : list event :=
  [StartElement "b" [("self", "x")]; EndElement "b"].

(** Two commands, the first with a name repeated among its names. *)
Definition pair_file : list event :=
  [StartElement "usage" [("program", "fbadb"); ("summary", "pair")];
   StartElement "command" [("names", "push,p,push")];
   EndElement "command";
   StartElement "command" [("names", "pull")];
   EndElement "command";
   EndElement "usage"].

Definition pair_ir : UsageFileReader CommandSlurpingReader :=
  match Slurp.ingest ∅ pair_file with
  | Ok r => r
  | Err _ => reader_init ∅ Slurp.init
  end.

(** ** Further notions: the buffer of the walker *)

(** The walker buffers its output exactly while a section is open, and
    every section it has recorded has a text. *)
Definition buffer_tracks_section (r : Pod.t) : Prop :=
  (Pod.current_section r = None
   ↔ BufferingWriter.output_buffer (Pod.out r) = None)
  ∧ ∀ title, Pod.section_contents r !! title ≠ Some None.

(** Two states of the walker with the same sections that buffer alike. *)
Definition keeps_buffer (r r' : Pod.t) : Prop :=
  keeps_sections r r'
  ∧ (BufferingWriter.output_buffer (Pod.out r') = None
     ↔ BufferingWriter.output_buffer (Pod.out r) = None).

(** The outcome of a step of the walker that keeps the buffer in step with
    the sections and fails no assertion. *)
Definition assertions_hold (res : result Pod.t) : Prop :=
  match res with
  | Ok r => buffer_tracks_section r
  | Err e => e ≠ AssertionError
  end.

(** ** The header mode *)

(** [with hf.struct_definition(name_fmt, *args): body] *)
Definition struct_definition (name_fmt : string) (args : list string)
  (body : emitter) : emitter :=
  (CW.writeln ("struct " +:+ name_fmt +:+ " {") args ;;
   CW.indented (Some "};") body)%emit.

(** The body of the loop of [op_h] over the groups. *)
Definition op_h_optgroup (og : OptGroup.t) : emitter :=
  (struct_definition (OptGroup.struct_name og) []
     (for_each (Emit.sorted (OptGroup.accumulations og)) (fun accumulation =>
        CW.writeln "const struct strlist* %s;" [accumulation]) ;;
      for_each (OptGroup.options og) (fun option =>
        match Option.arg option, Option.accumulate option with
        | Some _, None => CW.writeln "const char* %s;" [Option.symbol option]
        | _, _ => skip
        end) ;;
      for_each (OptGroup.options og) (fun option =>
        match Option.arg option, Option.accumulate option with
        | None, None => CW.writeln "unsigned %s : 1;" [Option.symbol option]
        | _, _ => skip
        end)) ;;
   (if OptGroup.export_emit_args og
    then Emit.prototype (OptGroup.emit_args_function og) false
    else skip) ;;
   CW.writeln EmptyString [])%emit.

(** The body of the loop of [op_h] over the commands. *)
Definition op_h_command (command : Command.t) : emitter :=
  (struct_definition (Command.struct_name command) []
     (for_each (Command.optgroups command) (fun og =>
        CW.writeln "struct %s %s;"
          [OptGroup.struct_name og; OptGroup.symbol og]) ;;
      for_each (Command.arguments command) (fun argument =>
        if Argument.repeat argument
        then CW.writeln "const char** %s;" [Argument.symbol argument]
        else CW.writeln "const char* %s;" [Argument.symbol argument])) ;;
   Emit.prototype (Command.make_args_function command) false ;;
   Emit.prototype (Command.main_function command) false ;;
   (if Command.export_parse_args command
    then Emit.prototype (Command.parse_args_function command) false
    else skip) ;;
   CW.writeln EmptyString [])%emit.

(** [op_h]; the result is what was written to [sys.stdout]. *)
Definition op_h (commands_file : list event) (defs : gset string)
  (optgroups : list OptGroup.t) (commands : list Command.t)
  : result CWriter :=
  (CW.writeln "#pragma once" [] ;;
   CW.include "util.h" ;;
   CW.include "cmd.h" ;;
   CW.include "argv.h" ;;
   CW.writeln EmptyString [] ;;
   for_each optgroups op_h_optgroup ;;
   for_each commands op_h_command ;;
   CW.writeln "extern const struct cmd autocmds[];" [])%emit
    {| out := EmptyString; indent := 0 |}.

(** [main] for the mode [h]: ingest, then the mode. *)
Definition main_h (defs : gset string) (commands_file : list event)
  : result CWriter :=
  r ← Slurp.ingest defs commands_file;
  op_h commands_file defs (optgroups (self r)) (commands (self r)).

(** An emitter that cannot fail at an indentation that is not negative,
    and restores the indentation. *)
Definition succeeds (e : emitter) : Prop :=
  ∀ hf, 0 <= indent hf → ∃ hf', e hf = Ok hf' ∧ indent hf' = indent hf.

Definition percent_free (s : string) : bool :=
  all_chars (fun c => negb (chr_eqb c "%")) s.

Definition dash_free (s : string) : bool :=
  all_chars (fun c => negb (chr_eqb c "-")) s.

(** ** Reading a C character constant back

    The value of a C character constant (C11 6.4.4.4) of one character:
    between two single quotes, a character other than the single quote,
    the backslash and the newline, or a simple escape, or an octal escape
    of one to three digits.  Any other text has no value. *)
Definition c_char (s : string) : option (ascii * string) :=
  match s with
  | EmptyString => None
  | String c r =>
      if chr_eqb c squote then None
      else if chr_eqb c newline then None
      else if chr_eqb c backslash then
        match r with
        | EmptyString => None
        | String e r1 =>
            if CLiteral.is_octal e then
              let v1 := CLiteral.octal_value e in
              match r1 with
              | String d2 r2 =>
                  if CLiteral.is_octal d2 then
                    let v2 := (v1 * 8 + CLiteral.octal_value d2)%N in
                    match r2 with
                    | String d3 r3 =>
                        if CLiteral.is_octal d3 then
                          let v3 := (v2 * 8 + CLiteral.octal_value d3)%N in
                          if (v3 <=? 255)%N then Some (ascii_of_N v3, r3)
                          else None
                        else Some (ascii_of_N v2, r2)
                    | EmptyString => Some (ascii_of_N v2, r2)
                    end
                  else Some (ascii_of_N v1, r1)
              | EmptyString => Some (ascii_of_N v1, r1)
              end
            else
              match CLiteral.simple_escape e with
              | Some v => Some (v, r1)
              | None => None
              end
        end
      else Some (c, r)
  end.

Definition char_constant_value (constant : string) : option ascii :=
  match constant with
  | EmptyString => None
  | String q r =>
      if chr_eqb q squote then
        match c_char r with
        | Some (c, String q' EmptyString) =>
            if chr_eqb q' squote then Some c else None
        | _ => None
        end
      else None
  end.

(** ** Further notions: what the walker has written *)

(** [r'] has written what [r] had, and maybe more. *)
Definition output_grows (r r' : Pod.t) : Prop :=
  ∃ text,
    BufferingWriter.output (Pod.out r')
    = BufferingWriter.output (Pod.out r) +:+ text.

(** The outcome of a step of the walker that takes nothing back. *)
Definition grows_result (r : Pod.t) (res : result Pod.t) : Prop :=
  match res with
  | Ok r' => output_grows r r'
  | Err _ => True
  end.

(** ** Further notions: the assertion of the writer *)

(** An emitter that, at an indentation that is not negative, restores the
    indentation when it succeeds and fails no assertion when it fails. *)
Definition steady (e : emitter) : Prop :=
  ∀ hf, 0 <= indent hf →
    match e hf with
    | Ok hf' => indent hf' = indent hf
    | Err e => e ≠ AssertionError
    end.

(** ** Reading POD entities back

    The text that a POD formatter shows for a text without formatting
    codes other than the four entities that [PODESCAPE] writes:
    [E<lt>], [E<gt>], [E<verbar>] and [E<sol>] stand for their character,
    and any other character for itself. *)
Fixpoint starts_with (prefix text : string) : bool :=
  match prefix with
  | EmptyString => true
  | String a prefix' =>
      match text with
      | EmptyString => false
      | String b text' => chr_eqb a b && starts_with prefix' text'
      end
  end.

(** [skip] counts the characters of an entity that has been read and are
    still to be passed over. *)
Fixpoint unescape_from (skip : nat) (text : string) : string :=
  match text with
  | EmptyString => EmptyString
  | String c rest =>
      match skip with
      | S n => unescape_from n rest
      | O =>
          if starts_with "E<lt>" text
          then String "<" (unescape_from 4 rest)
          else if starts_with "E<gt>" text
          then String ">" (unescape_from 4 rest)
          else if starts_with "E<verbar>" text
          then String "|" (unescape_from 8 rest)
          else if starts_with "E<sol>" text
          then String "/" (unescape_from 5 rest)
          else String c (unescape_from 0 rest)
      end
  end.

Definition unescape (text : string) : string := unescape_from 0 text.

(** ** Further notions: the order of the IR *)

(** [s'] lists the commands and the groups of [s], in the same order and
    unchanged, and maybe more after them. *)
Definition ir_extends (s s' : CommandSlurpingReader) : Prop :=
  commands s `prefix_of` commands s'
  ∧ optgroups s `prefix_of` optgroups s'.

(** * Properties *)

(** ** Strings *)

Lemma app_nil_l (s : string) : EmptyString +:+ s = s.
Proof. reflexivity. Qed.

Lemma app_cons (c : ascii) (s t : string) :
  String c s +:+ t = String c (s +:+ t).
Proof. reflexivity. Qed.

Lemma app_nil_r (s : string) : s +:+ EmptyString = s.
Proof. induction s as [|c s IH]; [reflexivity|]. by rewrite app_cons, IH. Qed.

Lemma app_assoc (s t u : string) : (s +:+ t) +:+ u = s +:+ (t +:+ u).
Proof.
  induction s as [|c s IH]; [reflexivity|]. by rewrite !app_cons, IH.
Qed.

Lemma concat_app (l1 l2 : list string) :
  concat (l1 ++ l2) = concat l1 +:+ concat l2.
Proof.
  induction l1 as [|s l1 IH]; [reflexivity|].
  cbn [concat app]. by rewrite IH, app_assoc.
Qed.

Lemma concat_singleton (s : string) : concat [s] = s.
Proof. cbn [concat]. apply app_nil_r. Qed.

(** ** The quoting law *)

Section QuotingLaw.
Import CW CLiteral.

Lemma s_chars_char_literal (c : ascii) (rest : string) :
  s_chars (char_literal c dquote +:+ rest) = String c <$> s_chars rest.
Proof. destruct c as [[] [] [] [] [] [] [] []]; reflexivity. Qed.

Lemma s_chars_quoted_parts (s : string) :
  s_chars (concat (quoted_parts s ++ [str1 dquote])) = Some s.
Proof.
  induction s as [|c s IH]; [reflexivity|].
  cbn [quoted_parts app concat].
  by rewrite s_chars_char_literal, IH.
Qed.

Lemma char_literal_shape (c : ascii) :
  (c = dquote ∨ c = backslash →
   char_literal c dquote = String backslash (str1 c))
  ∧ ((ord c <= 31)%N ∨ ord c = 127%N →
     char_literal c dquote =
       String backslash
         (String (octal_digit (ord c / 64))
            (String (octal_digit (ord c / 8 mod 8))
               (str1 (octal_digit (ord c mod 8))))))
  ∧ (c ≠ dquote → c ≠ backslash → (32 <= ord c)%N → ord c ≠ 127%N →
     char_literal c dquote = str1 c).
Proof.
  destruct c as [[] [] [] [] [] [] [] []];
    (split; [|split]);
    try (intros; reflexivity);
    try (intros [H|H]; vm_compute in H; congruence);
    try (intros H1 H2 H3 H4; vm_compute in H1, H2, H3, H4; congruence).
Qed.

(** The code's literals are the specification's. *)
Lemma char_literal_spec (c quote : ascii) :
  quote = dquote ∨ quote = squote →
  char_literal c quote = spec_escape quote c.
Proof.
  intros [->| ->]; destruct c as [[] [] [] [] [] [] [] []]; reflexivity.
Qed.

Lemma quoted_parts_spec (s : string) :
  concat (quoted_parts s) = spec_escape_all dquote s.
Proof.
  induction s as [|c s IH]; [reflexivity|].
  cbn [quoted_parts concat spec_escape_all].
  rewrite IH, char_literal_spec by (by left). reflexivity.
Qed.

Lemma quote_string_spec (s : string) :
  quote_string s = spec_string_literal s.
Proof.
  unfold quote_string, spec_string_literal.
  rewrite !concat_app, concat_singleton, quoted_parts_spec. reflexivity.
Qed.

Lemma quote_char_spec (c : ascii) : quote_char c = spec_char_constant c.
Proof.
  unfold quote_char, spec_char_constant.
  rewrite char_literal_spec by (by right). reflexivity.
Qed.
End QuotingLaw.

(** C5.  Reading the C string literal that [quote_string] writes gives the
    string back.  The literal is the string's characters between two
    double quotes, where the double quote and the backslash are written
    as a backslash and the character, a character below 0x20 or equal to
    0x7F as a backslash and its three octal digits, and any other
    character as itself. *)
Theorem quote_string_law :
  (∀ s : string, CLiteral.value (CW.quote_string s) = Some s)
  ∧ (∀ s : string,
       CW.quote_string s =
         dq +:+ concat ((fun c => CW.char_literal c dquote)
                          <$> list_ascii_of_string s) +:+ dq)
  ∧ (∀ c : ascii,
       (c = dquote ∨ c = backslash →
        CW.char_literal c dquote = String backslash (str1 c))
       ∧ ((ord c <= 31)%N ∨ ord c = 127%N →
          CW.char_literal c dquote =
            String backslash
              (String (octal_digit (ord c / 64))
                 (String (octal_digit (ord c / 8 mod 8))
                    (str1 (octal_digit (ord c mod 8))))))
       ∧ (c ≠ dquote → c ≠ backslash → (32 <= ord c)%N → ord c ≠ 127%N →
          CW.char_literal c dquote = str1 c)).
Proof.
  split; [|split].
  - intros s. unfold CW.quote_string.
    change ([str1 dquote] ++ CW.quoted_parts s ++ [str1 dquote])
      with (str1 dquote :: (CW.quoted_parts s ++ [str1 dquote])).
    cbn [concat]. unfold str1 at 1. rewrite app_cons, app_nil_l.
    apply s_chars_quoted_parts.
  - intros s. unfold CW.quote_string.
    rewrite !concat_app, concat_singleton. f_equal. f_equal.
    induction s as [|c s IH]; [reflexivity|].
    cbn [CW.quoted_parts list_ascii_of_string fmap list_fmap concat].
    by rewrite IH.
  - apply char_literal_shape.
Qed.

Lemma quote_string_law_witness :
  CLiteral.value (CW.quote_string ("a\b" +:+ dq +:+ str1 newline))
    = Some ("a\b" +:+ dq +:+ str1 newline)
  ∧ CW.char_literal backslash dquote = String backslash (str1 backslash)
  ∧ CW.char_literal newline dquote = String backslash "012"
  ∧ CW.char_literal "a" dquote = "a".
Proof.
  destruct quote_string_law as (Hround & _ & Hshape).
  split; [apply Hround|].
  split; [apply (Hshape backslash); by right|].
  split; [apply (Hshape newline); left; vm_compute; discriminate|].
  apply (Hshape "a"%char); vm_compute; discriminate.
Defined.

(** ** The writer *)

Create HintDb emit discriminated.
Create Rewrite HintDb str.
#[local] Hint Rewrite app_assoc app_cons app_nil_l app_nil_r : str.

Ltac str_norm := autorewrite with str.

Lemma bind_Ok {A B} (f : A → result B) (r : result A) (b : B) :
  r ≫= f = Ok b → ∃ a, r = Ok a ∧ f a = Ok b.
Proof. destruct r as [a|e]; [eauto | discriminate]. Qed.


Lemma emits_skip i : emits skip i EmptyString.
Proof. intros [o j] Hi. unfold skip. cbn in *. by rewrite app_nil_r, Hi. Qed.

Lemma emits_and_then a b i s t :
  emits a i s → emits b i t → emits (a ;; b)%emit i (s +:+ t).
Proof.
  intros Ha Hb hf Hi. unfold and_then. rewrite (Ha hf Hi). cbn.
  rewrite (Hb {| out := out hf +:+ s; indent := i |} eq_refl).
  cbn. by rewrite app_assoc.
Qed.

Lemma emits_for_each {A} (l : list A) (body : A → emitter) (text : A → string) i :
  (∀ x, x ∈ l → emits (body x) i (text x)) →
  emits (for_each l body) i (concat (text <$> l)).
Proof.
  induction l as [|x l IH]; intros Hbody.
  - apply emits_skip.
  - cbn [for_each fmap list_fmap concat]. apply emits_and_then.
    + apply Hbody. by left.
    + apply IH. intros y Hy. apply Hbody. by right.
Qed.

Lemma emits_writeln fmt args text i :
  0 <= i → pyfmt fmt args = Ok text →
  emits (CW.writeln fmt args) i
    (CW.indentation i +:+ text +:+ str1 newline).
Proof.
  intros Hi Hfmt hf Hind. unfold CW.writeln, CW.write.
  rewrite Hind. destruct (Z.ltb_spec i 0) as [?|_]; [lia|].
  cbn. rewrite Hfmt. cbn. by rewrite !app_assoc.
Qed.

Lemma repeat_str_add (s : string) (n m : nat) :
  repeat_str s n +:+ repeat_str s m = repeat_str s (n + m).
Proof.
  induction n as [|n IH]; [reflexivity|].
  cbn [repeat_str Nat.add]. by rewrite app_assoc, IH.
Qed.

Lemma indentation_succ i :
  0 <= i → CW.indentation (i + 1) = CW.indentation i +:+ "  ".
Proof.
  intros Hi. unfold CW.indentation.
  rewrite Z2Nat.inj_add by lia. change (Z.to_nat 1) with 1%nat.
  cbn [repeat_str]. rewrite !app_nil_r.
  change "  " with (repeat_str " " 2).
  rewrite !repeat_str_add. f_equal. lia.
Qed.

Lemma pyfmt_s (a : string) : pyfmt "%s" [a] = Ok a.
Proof. cbn. by rewrite app_nil_r. Qed.

(** What formatting can end with. *)
Lemma fmap_Err {A B} (g : A → B) (r : result A) e :
  g <$> r = Err e → r = Err e.
Proof. destruct r; [discriminate|]. by intros [= <-]. Qed.

Lemma conversion_without_argument_kind (spec : string) :
  conversion_without_argument spec = TypeError
  ∨ conversion_without_argument spec = ValueError.
Proof.
  unfold conversion_without_argument.
  repeat case_match; simplify_eq; auto.
Qed.

Lemma pyfmt_error_step fmt :
  (∀ args e, pyfmt fmt args = Err e →
     e = TypeError ∨ e = ValueError ∨ e = OutsideModel)
  ∧ (∀ c args e, pyfmt (String c fmt) args = Err e →
       e = TypeError ∨ e = ValueError ∨ e = OutsideModel).
Proof.
  induction fmt as [|d r [IHa IHb]].
  - assert (Hnil : ∀ args e, pyfmt EmptyString args = Err e →
                     e = TypeError ∨ e = ValueError ∨ e = OutsideModel).
    { intros [|a args] e; cbn; [discriminate|]. intros [= <-]. auto. }
    split; [exact Hnil|]. intros c args e. cbn [pyfmt].
    destruct (chr_eqb c "%"); [intros [= <-]; auto|].
    intros Hr%fmap_Err. by apply Hnil in Hr.
  - split; [apply IHb|]. intros c args e. cbn [pyfmt].
    destruct (chr_eqb c "%"); [|intros Hr%fmap_Err; by apply IHb in Hr].
    destruct (chr_eqb d "%"); [intros Hr%fmap_Err; by apply IHa in Hr|].
    destruct args as [|a args].
    + intros Hr.
      assert (e = conversion_without_argument (String d r)) as ->
        by congruence.
      destruct (conversion_without_argument_kind (String d r)) as [Hk|Hk];
        rewrite Hk; auto.
    + destruct (chr_eqb d "s"); [intros Hr%fmap_Err; by apply IHa in Hr|].
      destruct (chr_eqb d "("); intros [= <-]; auto.
Qed.

Lemma pyfmt_error fmt args e :
  pyfmt fmt args = Err e →
  e = TypeError ∨ e = ValueError ∨ e = OutsideModel.
Proof. apply pyfmt_error_step. Qed.

Lemma upper_char_error c e : upper_char c = Err e → e = OutsideModel.
Proof. unfold upper_char. repeat case_match; by intros [= <-]. Qed.

Lemma upper_error s e : upper s = Err e → e = OutsideModel.
Proof.
  induction s as [|c s IH]; [discriminate|]. cbn [upper].
  destruct (upper_char c) eqn:Hc; cbn.
  - intros Hr%fmap_Err. by apply IH.
  - intros [= <-]. by eapply upper_char_error.
Qed.

Lemma emits_indented after body i text :
  0 <= i → emits body (i + 1) text →
  emits (CW.indented (Some after) body) i
    (text +:+ CW.indentation i +:+ after +:+ str1 newline).
Proof.
  intros Hi Hbody hf Hind. unfold CW.indented, and_then, CW.set_indent.
  cbn. rewrite Hind.
  rewrite (Hbody {| out := out hf; indent := i + 1 |} eq_refl). cbn.
  replace (i + 1 - 1) with i by lia.
  rewrite (emits_writeln "%s" [after] after i Hi (pyfmt_s after)
             {| out := out hf +:+ text; indent := i |} eq_refl).
  cbn. by rewrite !app_assoc.
Qed.

(** The combinators are well behaved. *)

Lemma wb_skip : well_behaved skip.
Proof.
  intros hf hf' [= <-]. split; [done|]. exists EmptyString.
  by rewrite app_nil_r.
Qed.

Lemma wb_and_then a b :
  well_behaved a → well_behaved b → well_behaved (a ;; b)%emit.
Proof.
  intros Ha Hb hf hf' Hr. unfold and_then in Hr.
  apply bind_Ok in Hr as (hf1 & H1 & H2).
  destruct (Ha _ _ H1) as (Hi1 & s & Hs), (Hb _ _ H2) as (Hi2 & t & Ht).
  split; [congruence|]. exists (s +:+ t). by rewrite Ht, Hs, app_assoc.
Qed.

Lemma wb_for_each {A} (l : list A) (body : A → emitter) :
  (∀ x, well_behaved (body x)) → well_behaved (for_each l body).
Proof.
  intros Hbody. induction l as [|x l IH]; cbn [for_each].
  - apply wb_skip.
  - by apply wb_and_then.
Qed.

Lemma wb_write text : well_behaved (CW.write text).
Proof. intros hf hf' [= <-]. cbn. eauto. Qed.

Lemma wb_writeln fmt args : well_behaved (CW.writeln fmt args).
Proof.
  intros hf hf' Hr. unfold CW.writeln, CW.write in Hr.
  destruct (indent hf <? 0); [discriminate|]. cbn in Hr.
  destruct (pyfmt fmt args) as [text|]; [|discriminate].
  injection Hr as <-. cbn. split; [done|].
  eexists. by rewrite !app_assoc.
Qed.

Lemma wb_indented after body :
  well_behaved body → well_behaved (CW.indented after body).
Proof.
  intros Hbody hf hf' Hr. unfold CW.indented, and_then, CW.set_indent in Hr.
  cbn in Hr. apply bind_Ok in Hr as (hf1 & H1 & Hr).
  destruct (Hbody _ _ H1) as (Hi1 & s & Hs). cbn in Hi1, Hs, Hr.
  assert (Hafter : well_behaved
            match after with Some a => CW.writeln "%s" [a] | None => skip end)
    by (destruct after; [apply wb_writeln | apply wb_skip]).
  destruct (Hafter _ _ Hr) as (Hi2 & t & Ht). cbn in Hi2, Ht.
  split; [lia|]. exists (s +:+ t). by rewrite Ht, Hs, app_assoc.
Qed.

#[local] Hint Resolve wb_skip wb_and_then wb_for_each wb_write wb_writeln
  wb_indented : emit.

Lemma wb_if_ c a body : well_behaved body → well_behaved (CW.if_ c a body).
Proof. unfold CW.if_. auto with emit. Qed.

Lemma wb_while_ c a body : well_behaved body → well_behaved (CW.while_ c a body).
Proof. unfold CW.while_. auto with emit. Qed.

Lemma wb_switch c a body : well_behaved body → well_behaved (CW.switch c a body).
Proof. unfold CW.switch. auto with emit. Qed.

Lemma wb_case c a body : well_behaved body → well_behaved (CW.case c a body).
Proof. unfold CW.case. auto with emit. Qed.

Lemma wb_default body : well_behaved body → well_behaved (CW.default body).
Proof. unfold CW.default. auto with emit. Qed.

Lemma wb_function_definition fn body :
  well_behaved body → well_behaved (Emit.function_definition fn body).
Proof. unfold Emit.function_definition. auto with emit. Qed.

Lemma wb_prototype fn static : well_behaved (Emit.prototype fn static).
Proof. unfold Emit.prototype. auto with emit. Qed.

Lemma wb_sysinclude h : well_behaved (CW.sysinclude h).
Proof. unfold CW.sysinclude. auto with emit. Qed.

Lemma wb_include h : well_behaved (CW.include h).
Proof. unfold CW.include. auto with emit. Qed.

#[local] Hint Resolve wb_if_ wb_while_ wb_switch wb_case wb_default
  wb_function_definition wb_prototype wb_sysinclude wb_include : emit.

(** Splits the conditionals of an emitter and closes each branch with the
    rules above. *)
Ltac wb :=
  repeat first
    [ progress auto with emit
    | match goal with
      | |- well_behaved (if ?b then _ else _) => destruct b
      | |- well_behaved (match ?x with _ => _ end) => destruct x
      | |- well_behaved (and_then _ _) => apply wb_and_then
      | |- well_behaved (for_each _ _) => apply wb_for_each; intros
      | |- well_behaved (CW.if_ _ _ _) => apply wb_if_
      | |- well_behaved (CW.while_ _ _ _) => apply wb_while_
      | |- well_behaved (CW.switch _ _ _) => apply wb_switch
      | |- well_behaved (CW.case _ _ _) => apply wb_case
      | |- well_behaved (CW.default _) => apply wb_default
      | |- well_behaved (CW.indented _ _) => apply wb_indented
      | |- well_behaved (Emit.function_definition _ _) =>
          apply wb_function_definition
      | |- well_behaved (let x := _ in _) => cbv zeta
      end ].

Lemma wb_emit_record_option og option :
  well_behaved (Emit.emit_record_option og option).
Proof. unfold Emit.emit_record_option. wb. Qed.

Lemma wb_emit_capture_argument argument :
  well_behaved (Emit.emit_capture_argument argument).
Proof. unfold Emit.emit_capture_argument. wb. Qed.

Lemma wb_read_has_doc command k :
  (∀ b, well_behaved (k b)) → well_behaved (Emit.read_has_doc command k).
Proof.
  intros Hk. unfold Emit.read_has_doc.
  destruct (Command.has_doc command); [apply Hk|]. intros hf hf' [=].
Qed.

#[local] Hint Resolve wb_emit_record_option wb_emit_capture_argument : emit.

Lemma wb_emit_make_args_cmd_function command :
  well_behaved (Emit.emit_make_args_cmd_function command).
Proof. unfold Emit.emit_make_args_cmd_function. wb. Qed.

Lemma wb_emit_emit_args_og_function og :
  well_behaved (Emit.emit_emit_args_og_function og).
Proof. unfold Emit.emit_emit_args_og_function. wb. Qed.

Lemma wb_emit_dispatch_function command :
  well_behaved (Emit.emit_dispatch_function command).
Proof. unfold Emit.emit_dispatch_function. wb. Qed.


Lemma wb_emit_parse_args_cmd_function command :
  well_behaved (Emit.emit_parse_args_cmd_function command).
Proof.
  unfold Emit.emit_parse_args_cmd_function, Emit.long_opt_row. cbv zeta.
  apply wb_function_definition.
  repeat (apply wb_and_then; [wb|]); wb.
  all: try (apply wb_read_has_doc; intros; wb).
Qed.

(** ** The registry *)

Lemma emits_eq e i text text' : emits e i text → text = text' → emits e i text'.
Proof. by intros ? <-. Qed.

Lemma concat_bind {A} (f : A → list string) (l : list A) :
  concat (l ≫= f) = concat ((fun x => concat (f x)) <$> l).
Proof.
  induction l as [|x l IH]; [reflexivity|].
  cbn [mbind list_bind fmap list_fmap concat].
  change (mbind f l) with (l ≫= f). change (list_fmap _ _ ?g l) with (g <$> l).
  by rewrite concat_app, IH.
Qed.

Lemma emits_registry_entry command name i :
  0 <= i →
  emits (CW.writeln "{" [] ;;
         CW.indented (Some "},")
           (CW.writeln ".name = %s," [CW.quote_string name] ;;
            CW.writeln ".main = %s,"
              [fname (Command.dispatch_function command)]))%emit
        (i + 1)
        (registry_entry (CW.indentation i) name (registry_dispatcher command)).
Proof.
  intros Hi. eapply emits_eq.
  - apply emits_and_then; [apply emits_writeln; [lia | reflexivity]|].
    apply emits_indented; [lia|].
    apply emits_and_then; (apply emits_writeln; [lia | reflexivity]).
  - rewrite !indentation_succ by lia.
    unfold registry_entry, registry_dispatcher.
    cbn [fname Command.dispatch_function]. rewrite quote_string_spec.
    by str_norm.
Qed.

Lemma emits_emit_autocmds commands i :
  0 <= i →
  emits (Emit.emit_autocmds commands) i
    (registry_text (CW.indentation i) commands).
Proof.
  intros Hi. unfold Emit.emit_autocmds. eapply emits_eq.
  - apply emits_and_then; [apply emits_writeln; [lia | reflexivity]|].
    apply emits_indented; [lia|].
    apply emits_and_then; [|apply emits_writeln; [lia | reflexivity]].
    apply emits_for_each with
      (text := fun command =>
         concat ((fun name => registry_entry (CW.indentation i) name
                                (registry_dispatcher command))
                   <$> registry_names command)).
    intros command _. apply emits_for_each. intros name _.
    by apply emits_registry_entry.
  - unfold registry_text. rewrite concat_bind.
    rewrite !indentation_succ by lia. by str_norm.
Qed.

Lemma wb_op_c_command process section_contents command :
  well_behaved (op_c_command process section_contents command).
Proof.
  intros hf hf' Hr. unfold op_c_command in Hr.
  apply bind_Ok in Hr as ([command' hf1] & H1 & Hr).
  assert (Hemit : well_behaved
            (Emit.emit_make_args_cmd_function command' ;;
             Emit.emit_parse_args_cmd_function command' ;;
             Emit.emit_dispatch_function command')%emit).
  { auto using wb_emit_make_args_cmd_function,
      wb_emit_parse_args_cmd_function, wb_emit_dispatch_function with emit. }
  destruct (Hemit _ _ Hr) as (Hi & t & Ht).
  destruct (section_contents !! _) as [[doc|]|].
  - apply bind_Ok in H1 as (text & _ & H1).
    apply bind_Ok in H1 as (hf2 & H1 & [= <- <-]).
    destruct (wb_writeln _ _ _ _ H1) as (Hi2 & s & Hs).
    split; [congruence|]. exists (s +:+ t). by rewrite Ht, Hs, app_assoc.
  - injection H1 as <- <-. eauto.
  - injection H1 as <- <-. eauto.
Qed.

(** Peels the first emitter off a sequence that succeeded. *)
Lemma and_then_Ok a b hf hf' :
  well_behaved a → (a ;; b)%emit hf = Ok hf' →
  ∃ hf1 text, indent hf1 = indent hf ∧ out hf1 = out hf +:+ text
              ∧ b hf1 = Ok hf'.
Proof.
  intros Ha Hr. unfold and_then in Hr.
  apply bind_Ok in Hr as (hf1 & H1 & H2).
  destruct (Ha _ _ H1) as (Hi & s & Hs). eauto 6.
Qed.

(** ** The option tables of [parse_args] *)

Lemma iter_options_options (command : Command.t) :
  snd <$> Command.iter_options command = command_options command.
Proof.
  unfold Command.iter_options, command_options.
  induction (Command.optgroups command) as [|og ogs IH]; [reflexivity|].
  cbn [mbind list_bind]. rewrite fmap_app. f_equal; [|exact IH].
  induction (OptGroup.options og) as [|o os IHo]; [reflexivity|].
  cbn [mbind list_bind fmap list_fmap app]. f_equal. exact IHo.
Qed.

Lemma short_spec_parts_spec (options : list (OptGroup.t * Option.t)) :
  concat (Emit.short_spec_parts options)
  = concat ((fun option =>
               match Option.short option with
               | None => EmptyString
               | Some c =>
                   String c (match Option.arg option with
                             | Some _ => ":"
                             | None => EmptyString
                             end)
               end) <$> (snd <$> options)).
Proof.
  induction options as [|[og o] l IH]; [reflexivity|].
  cbn [Emit.short_spec_parts fmap list_fmap concat snd].
  rewrite concat_app, IH.
  destruct (Option.short o), (Option.arg o); reflexivity.
Qed.

Lemma short_spec_spec (command : Command.t) :
  Emit.short_spec command = short_opts_spec (command_options command).
Proof.
  unfold Emit.short_spec, short_opts_spec.
  rewrite <- iter_options_options, concat_app, short_spec_parts_spec.
  reflexivity.
Qed.

Lemma emits_long_opt_rows (options : list (OptGroup.t * Option.t)) i :
  0 <= i →
  emits (for_each options (fun x => Emit.long_opt_row x.2)) (i + 1 + 1)
    (concat (long_opts_row_text (CW.indentation i) <$> (snd <$> options))).
Proof.
  intros Hi. rewrite <- list_fmap_compose. apply emits_for_each.
  intros [og o] _. unfold Emit.long_opt_row, long_opts_row_text, compose.
  eapply emits_eq.
  - apply emits_writeln; [lia | reflexivity].
  - rewrite !indentation_succ by lia. cbn [snd].
    rewrite quote_string_spec.
    destruct (Option.short o); rewrite ?quote_char_spec; by str_norm.
Qed.


Lemma indented_Ok after body hf hf' :
  CW.indented after body hf = Ok hf' →
  ∃ hf1, body {| out := out hf; indent := indent hf + 1 |} = Ok hf1
         ∧ ∃ text, out hf' = out hf1 +:+ text.
Proof.
  intros Hr. unfold CW.indented, and_then, CW.set_indent in Hr. cbn in Hr.
  apply bind_Ok in Hr as (hf1 & H1 & Hr). exists hf1. split; [done|].
  destruct after as [a|].
  - destruct (wb_writeln _ _ _ _ Hr) as (_ & t & Ht). eauto.
  - injection Hr as <-. exists EmptyString. cbn. by rewrite app_nil_r.
Qed.

(** Runs an emitter whose effect is known at the head of a sequence. *)
Lemma emits_head a b i text hf hf' :
  emits a i text → indent hf = i → (a ;; b)%emit hf = Ok hf' →
  b {| out := out hf +:+ text; indent := i |} = Ok hf'.
Proof. intros Ha Hi Hr. unfold and_then in Hr. by rewrite (Ha hf Hi) in Hr. Qed.

(** C9.  The function that [emit_parse_args_cmd_function] writes opens with
    its signature and the reset of [optind]; then come the table
    [long_opts], with one row per option in declaration order across the
    attached groups, each row holding the quoted long name,
    [no_argument] or [required_argument], [NULL] and the quoted short
    character or [0], closed by [{0}]; and the string [short_opts], the
    quoted text that starts with [+:] and holds each short character in
    declaration order, followed by a colon exactly when the option takes
    an argument. *)
Theorem parse_args_option_tables (command : Command.t) (hf hf' : CWriter) :
  Emit.emit_parse_args_cmd_function command hf = Ok hf' →
  ∃ after,
    out hf' =
      out hf
      +:+ parse_args_opening (CW.indentation (indent hf)) command
      +:+ option_tables_text (CW.indentation (indent hf))
            (command_options command)
      +:+ after.
Proof.
  intros Hr. set (i := indent hf).
  assert (Hi : 0 <= i).
  { destruct (Z.ltb_spec i 0) as [Hneg|]; [|done].
    unfold Emit.emit_parse_args_cmd_function, Emit.function_definition,
      and_then, CW.writeln in Hr.
    fold i in Hr. apply Z.ltb_lt in Hneg. rewrite Hneg in Hr. discriminate. }
  unfold Emit.emit_parse_args_cmd_function, Emit.function_definition in Hr.
  cbv zeta in Hr.
  eapply emits_head in Hr;
    [|apply emits_writeln; [exact Hi | reflexivity] | reflexivity].
  eapply emits_head in Hr;
    [|apply emits_writeln; [exact Hi | reflexivity] | reflexivity].
  eapply emits_head in Hr;
    [|apply emits_writeln; [exact Hi | reflexivity] | reflexivity].
  apply indented_Ok in Hr as (hf1 & Hr & tail & Htail).
  cbn [out indent] in Hr.
  eapply (emits_head _ _ (i + 1)) in Hr;
    [|apply emits_writeln; [lia | reflexivity] | reflexivity].
  eapply (emits_head _ _ (i + 1)) in Hr;
    [|apply emits_writeln; [lia | reflexivity] | reflexivity].
  eapply (emits_head _ _ (i + 1)) in Hr;
    [|apply emits_indented; [lia|];
      apply emits_and_then;
        [apply emits_long_opt_rows; exact Hi
        |apply emits_writeln; [lia | reflexivity]]
     | reflexivity].
  eapply (emits_head _ _ (i + 1)) in Hr;
    [|apply emits_writeln; [lia | reflexivity] | reflexivity].
  cbn [out indent] in Hr.
  match type of Hr with
  | ?e _ = Ok _ =>
      assert (Hwb : well_behaved e)
        by (repeat (apply wb_and_then; [wb|]); wb;
            apply wb_read_has_doc; intros; wb)
  end.
  destruct (Hwb _ _ Hr) as (_ & rest & Hrest). cbn [out] in Hrest.
  exists (rest +:+ tail). rewrite Htail, Hrest.
  rewrite short_spec_spec, iter_options_options, quote_string_spec.
  unfold parse_args_opening, option_tables_text.
  cbn [ret fname args Command.parse_args_function Emit.signature_args
       fmap list_fmap join fst snd Command.struct_name].
  rewrite !indentation_succ by lia. fold i. str_norm.
  unfold Command.struct_name. by str_norm.
Qed.

Lemma parse_args_option_tables_witness :
  ∃ c hf',
    commands (self greet_ir) = [c]
    ∧ Emit.emit_parse_args_cmd_function (Command.set_has_doc c true)
        {| out := EmptyString; indent := 0 |} = Ok hf'
    ∧ (∃ after,
        out hf' =
          out {| out := EmptyString; indent := 0 |}
          +:+ parse_args_opening
                (CW.indentation (indent {| out := EmptyString; indent := 0 |}))
                (Command.set_has_doc c true)
          +:+ option_tables_text
                (CW.indentation (indent {| out := EmptyString; indent := 0 |}))
                (command_options (Command.set_has_doc c true))
          +:+ after)
    ∧ ((fun option => (Option.long option, Option.short option,
                       Option.arg option))
         <$> command_options (Command.set_has_doc c true))
      = [("verbose", Some "v"%char, None); ("lang", None, Some "L")]
    ∧ short_opts_spec (command_options (Command.set_has_doc c true)) = "+:v".
Proof.
  eexists _, _. split; [vm_compute; reflexivity|].
  split; [vm_compute; reflexivity|].
  split; [|split; vm_compute; reflexivity].
  apply parse_args_option_tables. vm_compute. reflexivity.
Defined.

(** ** The reader *)

Ltac result_inv :=
  repeat match goal with
    | H : Ok _ = Ok _ |- _ => injection H as H
    | H : Err _ = Ok _ |- _ => discriminate H
    | H : die _ = Ok _ |- _ => discriminate H
    | H : (_ ≫= _) = Ok _ |- _ =>
        let H1 := fresh "Hb" in apply bind_Ok in H as (? & H1 & H)
    | H : (if ?b then _ else _) = Ok _ |- _ => destruct b eqn:?
    | H : match ?x with _ => _ end = Ok _ |- _ => destruct x eqn:?
    end.

Lemma ignore_Ok kw s s' : Slurp._ignore kw s = Ok s' → s' = s.
Proof. unfold Slurp._ignore. intros Hr. by result_inv. Qed.

Section ReaderInvariant.
Context {S : Type} `{Handlers S}.
Variable P : S → Prop.
Hypothesis P_start :
  ∀ method kw s s', P s → start_handler method kw s = Ok s' → P s'.
Hypothesis P_end : ∀ method s s', P s → end_handler method s = Ok s' → P s'.
Hypothesis P_cdata : ∀ cdata s s', P s → on_cdata cdata s = Ok s' → P s'.

Lemma handle_invariant ev (r r' : UsageFileReader S) :
  P (self r) → handle ev r = Ok r' → P (self r').
Proof.
  intros HP Hr. destruct ev as [name attrs|name|cdata|target data]; cbn in Hr.
  - unfold StartElementHandler in Hr.
    destruct (negb (enabled_p r)); result_inv; subst; cbn; eauto.
  - unfold EndElementHandler in Hr.
    destruct (negb (enabled_p r)); result_inv; subst; cbn; eauto.
  - unfold CharacterDataHandler in Hr.
    destruct (negb (enabled_p r)); result_inv; subst; cbn; eauto.
  - unfold ProcessingInstructionHandler in Hr.
    result_inv; subst; cbn; eauto.
Qed.

Lemma parse_invariant file (r r' : UsageFileReader S) :
  P (self r) → parse file r = Ok r' → P (self r').
Proof.
  revert r. induction file as [|ev file IH]; intros r HP Hr; cbn in Hr.
  - by injection Hr as <-.
  - apply bind_Ok in Hr as (r1 & H1 & Hr).
    eauto using handle_invariant.
Qed.
End ReaderInvariant.

Lemma parse_app {S} `{Handlers S} (file1 file2 : list event)
  (r : UsageFileReader S) :
  parse (file1 ++ file2) r = parse file1 r ≫= parse file2.
Proof.
  revert r. induction file1 as [|ev file1 IH]; intros r; [reflexivity|].
  cbn [parse app]. destruct (handle ev r) as [r1|e]; [|reflexivity].
  cbn. apply IH.
Qed.

(** C4.  With [X] not defined, the frame of [crossed_ifdef_file] is
    disabled: the start of [b] is dropped without being counted, the
    [endif] finds the depth it saved, and the parse goes on to the end
    with the depth at -1.  With [X] defined the same file fails with
    "badly formed ifdef". *)
Theorem crossed_ifdef_accepted_when_disabled :
  (∃ r, Slurp.ingest ∅ crossed_ifdef_file = Ok r ∧ level r = -1)
  ∧ Slurp.ingest {["X"]} crossed_ifdef_file = Err (Die BadlyFormedIfdef).
Proof.
  split.
  - eexists. split; [vm_compute; reflexivity | reflexivity].
  - vm_compute. reflexivity.
Qed.

(** ** Attaching option groups *)

Lemma conflicting_optgroup_None (c : Command.t) (og : OptGroup.t) :
  Command.conflicting_optgroup c og = None ↔
  ∀ existing, existing ∈ Command.optgroups c →
    OptGroup.known_options existing ∩ OptGroup.known_options og = ∅.
Proof.
  unfold Command.conflicting_optgroup.
  induction (Command.optgroups c) as [|e l IH]; cbn [find].
  - split; [|done]. intros _ existing Hin. by apply elem_of_nil in Hin.
  - case_bool_decide as Hmeet.
    + split; [done|]. intros Hall. destruct Hmeet. apply Hall. by left.
    + rewrite IH. split.
      * intros Hall existing [->|Hin]%elem_of_cons; [|by apply Hall].
        destruct (decide (OptGroup.known_options e
                          ∩ OptGroup.known_options og = ∅)); [done|].
        by destruct Hmeet.
      * intros Hall existing Hin. apply Hall. by right.
Qed.

Lemma add_optgroup_Ok (c c' : Command.t) (og : OptGroup.t) :
  Command.add_optgroup c og = Ok c' →
  (∀ existing, existing ∈ Command.optgroups c →
     OptGroup.known_options existing ∩ OptGroup.known_options og = ∅)
  ∧ Command.optgroups c' = Command.optgroups c ++ [og]
  ∧ Command.arguments c' = Command.arguments c
  ∧ Command.known_arguments c' = Command.known_arguments c.
Proof.
  unfold Command.add_optgroup. intros Hr.
  destruct (Command.conflicting_optgroup c og) eqn:Hc; [discriminate|].
  injection Hr as <-. cbn.
  split; [exact (proj1 (conflicting_optgroup_None c og) Hc) | done].
Qed.

Lemma add_optgroup_fails_iff (c : Command.t) (og : OptGroup.t) :
  is_ok (Command.add_optgroup c og) = false ↔
  ∃ existing, existing ∈ Command.optgroups c
    ∧ OptGroup.known_options existing ∩ OptGroup.known_options og ≠ ∅.
Proof.
  unfold Command.add_optgroup.
  destruct (Command.conflicting_optgroup c og) as [e|] eqn:Hc; cbn.
  - split; [intros _|done]. unfold Command.conflicting_optgroup in Hc.
    apply find_some in Hc as [Hin Hmeet].
    exists e. split; [by apply list_elem_of_In|].
    by apply bool_decide_eq_true in Hmeet.
  - split; [done|]. intros (e & Hin & Hmeet).
    rewrite conflicting_optgroup_None in Hc. by destruct Hmeet; apply Hc.
Qed.

Lemma add_optgroup_empty (c : Command.t) (og : OptGroup.t) :
  OptGroup.known_options og = ∅ →
  ∃ c', Command.add_optgroup c og = Ok c'
        ∧ Command.optgroups c' = Command.optgroups c ++ [og].
Proof.
  intros Hempty. unfold Command.add_optgroup.
  assert (Hc : Command.conflicting_optgroup c og = None).
  { apply conflicting_optgroup_None. intros e _. rewrite Hempty.
    apply (right_absorb_L ∅ (∩)). }
  rewrite Hc. eauto.
Qed.

(** C10.  [add_optgroup] fails exactly when the key set of the group meets
    the key set of a group that is already attached.  So a group whose key
    set is empty can be attached again and again, the same group included:
    in [twice_file] the command references the group [none], which has no
    options, twice, and ends with that one group attached twice. *)
Theorem add_optgroup_fails_iff_keys_meet :
  (∀ (c : Command.t) (og : OptGroup.t),
     is_ok (Command.add_optgroup c og) = false ↔
     ∃ existing, existing ∈ Command.optgroups c
       ∧ OptGroup.known_options existing ∩ OptGroup.known_options og ≠ ∅)
  ∧ (∀ (c : Command.t) (og : OptGroup.t),
       OptGroup.known_options og = ∅ →
       ∃ c1 c2, Command.add_optgroup c og = Ok c1
                ∧ Command.add_optgroup c1 og = Ok c2
                ∧ Command.optgroups c2 = Command.optgroups c ++ [og; og])
  ∧ (∃ r c og, Slurp.ingest ∅ twice_file = Ok r
               ∧ commands (self r) = [c]
               ∧ optgroups (self r) = [og]
               ∧ OptGroup.options og = []
               ∧ Command.optgroups c = [og; og]).
Proof.
  split; [exact add_optgroup_fails_iff|]. split.
  - intros c og Hempty.
    destruct (add_optgroup_empty c og Hempty) as (c1 & H1 & Hogs1).
    destruct (add_optgroup_empty c1 og Hempty) as (c2 & H2 & Hogs2).
    exists c1, c2. split; [done|]. split; [done|].
    by rewrite Hogs2, Hogs1, <- (assoc_L (++)).
  - eexists _, _, _. split; [vm_compute; reflexivity|]. cbn.
    repeat split; reflexivity.
Qed.

Lemma add_optgroup_fails_iff_keys_meet_witness :
  ∃ og c1,
    OptGroup.init "none" (Native true) (Native false) None = Ok og
    ∧ Command.init "run" "run" [] (Native false) = Ok c1
    ∧ OptGroup.known_options og = ∅
    ∧ ∃ c2' c3, Command.add_optgroup c1 og = Ok c2'
                ∧ Command.add_optgroup c2' og = Ok c3
                ∧ Command.optgroups c3 = Command.optgroups c1 ++ [og; og].
Proof.
  eexists _, _. split; [vm_compute; reflexivity|].
  split; [vm_compute; reflexivity|]. split; [reflexivity|].
  apply (proj1 (proj2 add_optgroup_fails_iff_keys_meet)). reflexivity.
Defined.

(** ** The invariant of ingest *)

Lemma keys_NoDup (o : Option.t) : NoDup (Option.keys o).
Proof.
  unfold Option.keys. destruct (Option.short o) as [c|]; cbn [app].
  all: repeat (apply NoDup_cons; split;
               [rewrite ?elem_of_cons, elem_of_nil; intuition discriminate|]).
  all: apply NoDup_nil_2.
Qed.

Lemma command_keys_bind (c : Command.t) :
  command_keys c = og ← Command.optgroups c; optgroup_keys og.
Proof.
  unfold command_keys, Command.iter_options, optgroup_keys.
  induction (Command.optgroups c) as [|og ogs IH]; [reflexivity|].
  rewrite !bind_cons, bind_app. f_equal; [|exact IH].
  induction (OptGroup.options og) as [|o os IHo]; [reflexivity|].
  rewrite !bind_cons, bind_app, bind_singleton. by f_equal.
Qed.

Lemma add_option_Ok (og og' : OptGroup.t) (o : Option.t) :
  OptGroup.add_option og o = Ok og' →
  list_to_set (Option.keys o) ∩ OptGroup.known_options og = (∅ : gset string)
  ∧ OptGroup.options og' = OptGroup.options og ++ [o]
  ∧ OptGroup.known_options og'
    = OptGroup.known_options og ∪ list_to_set (Option.keys o).
Proof.
  unfold OptGroup.add_option. intros Hr.
  case_bool_decide as Hmeet; [discriminate|]. injection Hr as <-. cbn.
  split; [|done].
  destruct (decide (list_to_set (Option.keys o)
                    ∩ OptGroup.known_options og = (∅ : gset string)));
    [done | by destruct Hmeet].
Qed.

Lemma add_option_consistent (og og' : OptGroup.t) (o : Option.t) :
  optgroup_consistent og → OptGroup.add_option og o = Ok og' →
  optgroup_consistent og'.
Proof.
  intros [Hnodup Hknown] (Hdisj & Hopts & Hknown')%add_option_Ok.
  unfold optgroup_consistent, optgroup_keys.
  rewrite Hopts, Hknown', bind_app, bind_singleton. split.
  - apply NoDup_app. split; [done|]. split; [|apply keys_NoDup].
    intros k Hk Hk'. rewrite Hknown in Hdisj.
    assert (Hin : k ∈ (list_to_set (Option.keys o)
                       ∩ list_to_set (optgroup_keys og) : gset string))
      by (apply elem_of_intersection; split; by apply elem_of_list_to_set).
    rewrite Hdisj in Hin. by apply not_elem_of_empty in Hin.
  - rewrite Hknown. by rewrite list_to_set_app_L.
Qed.

Lemma add_optgroup_consistent (c c' : Command.t) (og : OptGroup.t) :
  command_consistent c → optgroup_consistent og →
  Command.add_optgroup c og = Ok c' → command_consistent c'.
Proof.
  intros (Hogs & Hnodup & Hargs & Hknown & Hnames) [Hognodup Hogknown]
    (Hdisj & Hogs' & Hargs' & Hknown')%add_optgroup_Ok.
  unfold command_consistent.
  rewrite command_keys_bind, Hogs', Hargs', Hknown'.
  split; [apply Forall_app; split; [done|by apply Forall_singleton]|].
  split; [|done].
  rewrite bind_app, bind_singleton.
  apply NoDup_app. split; [by rewrite <- command_keys_bind|]. split; [|done].
  intros k Hk Hk'. apply list_elem_of_bind in Hk as (e & Hke & He).
  pose proof (Hdisj e He) as Hempty.
  rewrite Forall_forall in Hogs. destruct (Hogs e He) as [_ Heknown].
  assert (Hin : k ∈ OptGroup.known_options e ∩ OptGroup.known_options og).
  { rewrite Heknown, Hogknown.
    apply elem_of_intersection; split; by apply elem_of_list_to_set. }
  rewrite Hempty in Hin. by apply not_elem_of_empty in Hin.
Qed.

(** ** The order of arguments *)

Lemma add_argument_Ok (c c' : Command.t) (a : Argument.t) :
  Command.add_argument c a = Ok c' →
  (Argument.name a ∉ Command.known_arguments c)
  ∧ (∀ z, last (Command.arguments c) = Some z →
       Argument.repeat z = false
       ∧ (Argument.optional z = true → Argument.optional a = true))
  ∧ Command.arguments c' = Command.arguments c ++ [a]
  ∧ Command.known_arguments c'
    = Command.known_arguments c ∪ {[Argument.name a]}
  ∧ Command.optgroups c' = Command.optgroups c.
Proof.
  unfold Command.add_argument. intros Hr.
  case_bool_decide as Hdup; [discriminate|].
  apply bind_Ok in Hr as ([] & Hcheck & Hr). injection Hr as <-. cbn.
  split; [done|]. split; [|done].
  intros z Hz. rewrite Hz in Hcheck.
  destruct (Argument.optional z), (Argument.optional a),
    (Argument.repeat z); cbn in Hcheck; try discriminate; done.
Qed.

Lemma arguments_ordered_snoc (l : list Argument.t) (x : Argument.t) :
  arguments_ordered l →
  (∀ z, last l = Some z →
     Argument.repeat z = false
     ∧ (Argument.optional z = true → Argument.optional x = true)) →
  arguments_ordered (l ++ [x]).
Proof.
  intros Hord Hlast before a after Heq.
  destruct after as [|b after' _] using rev_ind.
  { split; [done|]. intros _ b Hb. by apply elem_of_nil in Hb. }
  rewrite app_comm_cons, (assoc_L (++)) in Heq.
  apply app_inj_tail in Heq as [-> ->].
  destruct (Hord before a after' eq_refl) as [Hrep Hopt].
  assert (Hz : ∃ z, last (before ++ a :: after') = Some z
                    ∧ (after' = [] → z = a) ∧ (after' ≠ [] → z ∈ after')).
  { rewrite last_app. destruct after' as [|y after'' _] using rev_ind.
    - exists a. cbn. done.
    - exists y. rewrite app_comm_cons, last_snoc.
      split; [done|]. split; [by intros [_ [=]]%app_nil|].
      intros _. apply elem_of_app. right. by left. }
  destruct Hz as (z & Hz & Hza & Hzin).
  destruct (Hlast z Hz) as [Hzrep Hzopt].
  split.
  - intros _. destruct after' as [|y after'']; [by rewrite <- (Hza eq_refl)|].
    by apply Hrep.
  - intros Ha c [Hc| ->%list_elem_of_singleton]%elem_of_app; [by apply Hopt|].
    apply Hzopt. destruct after' as [|y after''].
    + by rewrite (Hza eq_refl).
    + apply Hopt; [done|]. by apply Hzin.
Qed.

Lemma add_argument_consistent (c c' : Command.t) (a : Argument.t) :
  command_consistent c → Command.add_argument c a = Ok c' →
  command_consistent c'.
Proof.
  intros (Hogs & Hnodup & Hargs & Hknown & Hnames)
    (Hfresh & Hlast & Hargs' & Hknown' & Hogs')%add_argument_Ok.
  unfold command_consistent.
  rewrite command_keys_bind, Hogs', Hargs', Hknown', <- command_keys_bind.
  split; [done|]. split; [done|].
  split; [by apply arguments_ordered_snoc|].
  rewrite fmap_app, list_to_set_app_L, Hknown. cbn.
  split; [by rewrite (right_id_L ∅ (∪))|].
  apply NoDup_app. split; [done|]. split; [|apply NoDup_singleton].
  intros n Hn ->%list_elem_of_singleton.
  apply Hfresh. rewrite Hknown. by apply elem_of_list_to_set.
Qed.

Lemma arguments_ordered_nil : arguments_ordered [].
Proof. intros before a after Heq. by destruct before. Qed.

Lemma Command_init_consistent name symbol altnames export c :
  Command.init name symbol altnames export = Ok c → command_consistent c.
Proof.
  unfold Command.init. intros Hr. result_inv. subst c.
  unfold command_consistent. cbn.
  split; [apply Forall_nil_2|]. split; [apply NoDup_nil_2|].
  split; [apply arguments_ordered_nil|]. split; [done | apply NoDup_nil_2].
Qed.

Lemma OptGroup_init_consistent name forward export human og :
  OptGroup.init name forward export human = Ok og → optgroup_consistent og.
Proof.
  unfold OptGroup.init. intros Hr. result_inv. subst og.
  split; [apply NoDup_nil_2 | done].
Qed.

Lemma set_private_consistent og :
  optgroup_consistent og → optgroup_consistent (OptGroup.set_private og).
Proof. done. Qed.

Lemma slurp_init_consistent : slurp_consistent Slurp.init.
Proof.
  unfold slurp_consistent. cbn.
  split; [apply Forall_nil_2|]. split; [apply Forall_nil_2|]. done.
Qed.

Ltac slurp_goal :=
  unfold slurp_consistent; cbn;
  repeat match goal with
    | |- _ ∧ _ => split
    | |- Forall _ (_ ++ [_]) => apply Forall_app; split
    | |- Forall _ [_] => apply Forall_singleton
    | |- ∀ _, Some _ = Some _ → _ => intros ? [= <-]
    | |- ∀ _, None = Some _ → _ => intros ? [=]
    end;
  try (intros; congruence);
  eauto using add_optgroup_consistent, add_argument_consistent,
    add_option_consistent, Command_init_consistent,
    OptGroup_init_consistent, set_private_consistent.

Lemma slurp_start_consistent method kw s s' :
  slurp_consistent s → Slurp.start method kw s = Ok s' → slurp_consistent s'.
Proof.
  intros (Hogs & Hcmds & Hcur & Href & Hcmd) Hr. unfold Slurp.start in Hr.
  repeat case_bool_decide; try discriminate.
  - unfold Slurp.on_command_start in Hr. result_inv; subst; slurp_goal.
  - unfold Slurp.on_optgroup_start in Hr. result_inv; subst; slurp_goal.
    destruct (Slurp.has_command _); slurp_goal.
  - unfold Slurp.on_option_start in Hr. result_inv; subst; slurp_goal.
  - unfold Slurp.on_argument_start in Hr. result_inv; subst; slurp_goal.
  - unfold Slurp.on_optgroup_reference_start in Hr. result_inv; subst;
      slurp_goal.
    match goal with
    | H : find _ _ = Some _ |- _ => apply find_some in H as [Hin _]
    end.
    rewrite Forall_forall in Hogs. apply Hogs. by apply list_elem_of_In.
  - apply ignore_Ok in Hr as ->. slurp_goal.
Qed.

Lemma slurp_stop_consistent method s s' :
  slurp_consistent s → Slurp.stop method s = Ok s' → slurp_consistent s'.
Proof.
  intros (Hogs & Hcmds & Hcur & Href & Hcmd) Hr. unfold Slurp.stop in Hr.
  repeat case_bool_decide; try discriminate.
  - unfold Slurp.on_command_end, Slurp.need in Hr. result_inv; subst;
      slurp_goal.
  - unfold Slurp.on_optgroup_end, Slurp.need in Hr. cbn in Hr.
    result_inv; subst; slurp_goal.
  - unfold Slurp.on_option_end, Slurp.need in Hr. cbn in Hr.
    result_inv; subst; slurp_goal.
  - unfold Slurp.on_argument_end, Slurp.need in Hr. cbn in Hr.
    result_inv; subst; slurp_goal.
  - unfold Slurp.on_optgroup_reference_end, Slurp.need in Hr. cbn in Hr.
    result_inv; subst; slurp_goal.
  - apply ignore_Ok in Hr as ->. slurp_goal.
Qed.

Lemma ingest_consistent defs file r :
  Slurp.ingest defs file = Ok r → slurp_consistent (self r).
Proof.
  unfold Slurp.ingest. intros Hr.
  eapply (parse_invariant slurp_consistent) in Hr; [done|..].
  - intros. by eapply slurp_start_consistent.
  - intros. by eapply slurp_stop_consistent.
  - intros ??? Hs [= <-]. exact Hs.
  - apply slurp_init_consistent.
Qed.

(** C6.  After a successful ingest, the keys [long:L], [symbol:Y] and
    [short:S] of all options of all groups attached to a command are
    pairwise distinct, and the key set of each attached group is the set
    of the keys of its options.  [add_optgroup] dies when the key set of
    the group meets that of a group already attached, and [add_option]
    dies when a key of the option is already in the key set of its
    group. *)
Theorem option_keys_disjoint :
  (∀ (defs : gset string) (file : list event)
     (r : UsageFileReader CommandSlurpingReader),
     Slurp.ingest defs file = Ok r →
     ∀ c, c ∈ commands (self r) →
       NoDup (command_keys c)
       ∧ ∀ og, og ∈ Command.optgroups c →
           OptGroup.known_options og = list_to_set (optgroup_keys og))
  ∧ (∀ (c : Command.t) (og existing : OptGroup.t),
       existing ∈ Command.optgroups c →
       OptGroup.known_options existing ∩ OptGroup.known_options og ≠ ∅ →
       ∃ first, Command.add_optgroup c og
                = Err (Die (OptgroupConflict (OptGroup.name og)
                                             (OptGroup.name first))))
  ∧ (∀ (og : OptGroup.t) (o : Option.t) (k : string),
       k ∈ Option.keys o → k ∈ OptGroup.known_options og →
       OptGroup.add_option og o = Err (Die ConflictingOptions)).
Proof.
  split; [|split].
  - intros defs file r Hr c Hc.
    destruct (ingest_consistent _ _ _ Hr) as (_ & Hcmds & _).
    rewrite Forall_forall in Hcmds.
    destruct (Hcmds c Hc) as (Hogs & Hnodup & _).
    split; [done|]. intros og Hog.
    rewrite Forall_forall in Hogs. by destruct (Hogs og Hog).
  - intros c og existing Hin Hmeet. unfold Command.add_optgroup.
    destruct (Command.conflicting_optgroup c og) as [e|] eqn:Hc; [by eexists|].
    rewrite conflicting_optgroup_None in Hc. by destruct Hmeet; apply Hc.
  - intros og o k Hk Hknown. unfold OptGroup.add_option.
    case_bool_decide as Hempty; [done|]. exfalso.
    assert (Hin : k ∈ (list_to_set (Option.keys o)
                       ∩ OptGroup.known_options og : gset string))
      by (apply elem_of_intersection; split;
          [by apply elem_of_list_to_set | done]).
    rewrite Hempty in Hin. by apply not_elem_of_empty in Hin.
Qed.

Lemma option_keys_disjoint_witness :
  ∃ r c, Slurp.ingest ∅ greet_file = Ok r
         ∧ commands (self r) = [c]
         ∧ NoDup (command_keys c)
         ∧ command_keys c
           = ["long:verbose"; "symbol:verbose"; "short:v";
              "long:lang"; "symbol:lang"].
Proof.
  eexists _, _. split; [vm_compute; reflexivity|].
  split; [reflexivity|]. split; [|reflexivity].
  eapply (proj1 option_keys_disjoint ∅ greet_file).
  - vm_compute. reflexivity.
  - cbn. by left.
Defined.

(** C7.  After a successful ingest, in the argument list of every command
    no argument follows a repeat argument, no mandatory argument follows
    an optional one, and no two arguments have the same name.
    [add_argument] dies when the name is already known, when the last
    argument is optional and the new one is not, and when the last
    argument is a repeat argument. *)
Theorem argument_ordering :
  (∀ (defs : gset string) (file : list event)
     (r : UsageFileReader CommandSlurpingReader),
     Slurp.ingest defs file = Ok r →
     ∀ c, c ∈ commands (self r) →
       arguments_ordered (Command.arguments c)
       ∧ NoDup (Argument.name <$> Command.arguments c)
       ∧ Command.known_arguments c
         = list_to_set (Argument.name <$> Command.arguments c))
  ∧ (∀ (c : Command.t) (a : Argument.t),
       Argument.name a ∈ Command.known_arguments c →
       Command.add_argument c a
       = Err (Die (DuplicateArgumentName (Argument.name a))))
  ∧ (∀ (c : Command.t) (a last_argument : Argument.t),
       last (Command.arguments c) = Some last_argument →
       Argument.name a ∉ Command.known_arguments c →
       Argument.optional last_argument = true →
       Argument.optional a = false →
       Command.add_argument c a = Err (Die MandatoryFollowsOptional))
  ∧ (∀ (c : Command.t) (a last_argument : Argument.t),
       last (Command.arguments c) = Some last_argument →
       Argument.repeat last_argument = true →
       ∃ m, Command.add_argument c a = Err (Die m)).
Proof.
  split; [|split; [|split]].
  - intros defs file r Hr c Hc.
    destruct (ingest_consistent _ _ _ Hr) as (_ & Hcmds & _).
    rewrite Forall_forall in Hcmds.
    by destruct (Hcmds c Hc) as (_ & _ & Hord & Hknown & Hnames).
  - intros c a Hdup. unfold Command.add_argument.
    by rewrite bool_decide_eq_true_2.
  - intros c a z Hlast Hfresh Hz Ha. unfold Command.add_argument.
    rewrite bool_decide_eq_false_2 by done. by rewrite Hlast, Hz, Ha.
  - intros c a z Hlast Hz. unfold Command.add_argument.
    case_bool_decide; [by eexists|]. rewrite Hlast, Hz.
    destruct (Argument.optional z && negb (Argument.optional a));
      by eexists.
Qed.

(** In [copy_file] the command [copy] takes [source], then the optional
    [target], then the optional repeat argument [more], in an order that
    the checks allow.  A second [source] is refused, and so is any fourth
    argument, since [more] is a repeat argument; after [source] and
    [target] alone, a mandatory argument is refused. *)
Lemma argument_ordering_witness :
  ∃ r c r' c',
    Slurp.ingest ∅ copy_file = Ok r
    ∧ commands (self r) = [c]
    ∧ ((fun a => (Argument.name a, Argument.optional a, Argument.repeat a))
         <$> Command.arguments c)
      = [("source", false, false); ("target", true, false);
         ("more", true, true)]
    ∧ arguments_ordered (Command.arguments c)
    ∧ NoDup (Argument.name <$> Command.arguments c)
    ∧ Command.add_argument c (Argument.mk "source" "source" "string" false true)
      = Err (Die (DuplicateArgumentName "source"))
    ∧ (∃ m, Command.add_argument c
              (Argument.mk "last" "last" "string" false true) = Err (Die m))
    ∧ Slurp.ingest ∅ (take 6 copy_file ++ drop 8 copy_file) = Ok r'
    ∧ commands (self r') = [c']
    ∧ (Argument.name <$> Command.arguments c') = ["source"; "target"]
    ∧ Command.add_argument c' (Argument.mk "last" "last" "string" false false)
      = Err (Die MandatoryFollowsOptional).
Proof.
  pose proof argument_ordering as (Hordered & Hduplicate & Hmandatory & Hrepeat).
  eexists _, _, _, _. split; [vm_compute; reflexivity|].
  split; [reflexivity|]. split; [reflexivity|].
  split; [|split; [|split; [|split; [|split; [|split; [|split]]]]]].
  - eapply (Hordered ∅ copy_file); [vm_compute; reflexivity|].
    apply list_elem_of_here.
  - eapply (Hordered ∅ copy_file); [vm_compute; reflexivity|].
    apply list_elem_of_here.
  - apply (Hduplicate _ (Argument.mk "source" "source" "string" false true)).
    apply (bool_decide_eq_true_1 _). vm_compute. reflexivity.
  - eapply Hrepeat; reflexivity.
  - vm_compute. reflexivity.
  - reflexivity.
  - reflexivity.
  - eapply Hmandatory; [reflexivity| |reflexivity|reflexivity].
    apply (bool_decide_eq_true_1 _). vm_compute. reflexivity.
Defined.

(** ** The documentation walker *)

Lemma flush_paragraph_paragraph r : Pod.paragraph (Pod.flush_paragraph r) = [].
Proof.
  unfold Pod.flush_paragraph.
  destruct (negb _ && negb _); [destruct (0 <? _)|]; reflexivity.
Qed.


Lemma flush_paragraph_marker r :
  Pod.flush_paragraph (Pod.spool "Z<>" (Pod.flush_paragraph r))
  = Pod.flush_paragraph r.
Proof.
  pose proof (flush_paragraph_paragraph r) as Hp.
  destruct (Pod.flush_paragraph r) as [ogs cmds p d o sc f cs cc].
  cbn in Hp. subst p. reflexivity.
Qed.

(** Evaluates the tests on a method name that is known. *)
Ltac decide_methods :=
  repeat match goal with
    | |- context [bool_decide ?P] =>
        let b := eval vm_compute in (bool_decide P) in
        change (bool_decide P) with b; cbv iota
    end.

Lemma bind_kwargs_none : bind_kwargs [] [] false (fixed_attr []) = Ok ().
Proof. vm_compute. reflexivity. Qed.

(** C3 does not hold of the code.  The only statement of
    [on_vspace_start] is [command("Z<>")], which is there to write the
    marker as a paragraph of its own; but [flush_paragraph] drops a
    paragraph that consists of [Z<>] alone, so in every state of the
    walker the start of a [vspace] element only flushes the paragraph
    that is pending, and its end does nothing.  On [vspace_file] the
    walker writes the two paragraphs around the [vspace] element and no
    paragraph [Z<>] between them. *)
Theorem vspace_only_flushes :
  (∀ r : Pod.t,
     Pod.flush_paragraph (Pod.spool "Z<>" (Pod.flush_paragraph r))
       = Pod.flush_paragraph r
     ∧ Pod.on_vspace_start r = Ok (Pod.flush_paragraph r)
     ∧ Pod.start (on_start_function "vspace") (fixed_attr []) r
       = Ok (Pod.flush_paragraph r)
     ∧ Pod.stop (on_stop_function "vspace") (Pod.flush_paragraph r)
       = Ok (Pod.flush_paragraph r))
  ∧ ∃ r, Pod.run ∅ [] [] true vspace_file = Ok r
         ∧ Pod.out (self r)
           = {| BufferingWriter.output :=
                  "=encoding utf8" +:+ Pod.nl2 +:+ "=head1 NAME" +:+ Pod.nl2
                  +:+ "Z<>fbadb - vspace" +:+ Pod.nl2
                  +:+ "Z<>above" +:+ Pod.nl2 +:+ "Z<>below" +:+ Pod.nl2;
                BufferingWriter.output_buffer := None |}
         ∧ contains (Pod.nl2 +:+ "Z<>" +:+ Pod.nl2)
             (BufferingWriter.output (Pod.out (self r))) = false.
Proof.
  split.
  - intros r.
    assert (Hv : Pod.on_vspace_start r = Ok (Pod.flush_paragraph r)).
    { unfold Pod.on_vspace_start, Pod.command. cbn [pyfmt chr_eqb Ascii.eqb].
      cbn. by rewrite flush_paragraph_marker. }
    split; [apply flush_paragraph_marker|]. split; [exact Hv|]. split.
    + change (on_start_function "vspace") with "on_vspace_start".
      unfold Pod.start. decide_methods. by rewrite bind_kwargs_none.
    + change (on_stop_function "vspace") with "on_vspace_end".
      unfold Pod.stop. by decide_methods.
  - eexists. split; [vm_compute; reflexivity|].
    split; vm_compute; reflexivity.
Qed.

(** ** Preformatted blocks *)

Lemma sub_wsruns_aux_head (s : string) :
  match sub_wsruns_aux true s with
  | EmptyString => True
  | String d _ => re_ws d = false
  end.
Proof.
  induction s as [|c s IH]; [done|]. cbn [sub_wsruns_aux].
  by destruct (re_ws c) eqn:Hc.
Qed.

Lemma sub_wsruns_aux_collapsed (s : string) (in_run : bool) :
  ws_collapsed (sub_wsruns_aux in_run s) = true.
Proof.
  revert in_run. induction s as [|c s IH]; intros in_run; [done|].
  cbn [sub_wsruns_aux]. destruct (re_ws c) eqn:Hc.
  - destruct in_run; [apply IH|].
    cbn [ws_collapsed]. rewrite IH.
    pose proof (sub_wsruns_aux_head s) as Hhead.
    destruct (sub_wsruns_aux true s); [done|]. by rewrite Hhead.
  - cbn [ws_collapsed]. by rewrite Hc, IH.
Qed.

(** C2, as the code has it.  While the pre-depth is positive, [quote]
    returns the data as they are, so the characters [<], [>], [|] and [/]
    are not escaped.  White space is not kept: [on_cdata] spools the data
    with every run of space, tab, CR, LF and VT replaced by one space,
    and without their leading white space when the paragraph is empty;
    no [Z<>] marker is spooled.  [flush_paragraph] collapses and strips
    the paragraph once more and writes it after one space. *)
Theorem pre_cdata_unescaped_and_collapsed (r : Pod.t) (cdata : string) :
  0 < Pod.pre_depth r →
  Pod.quote r cdata = cdata
  ∧ Pod.on_cdata cdata r
    = match Pod.paragraph r with
      | [] =>
          if bool_decide (lstrip (sub_wsruns cdata) = EmptyString) then r
          else Pod.spool (lstrip (sub_wsruns cdata)) r
      | _ :: _ => Pod.spool (sub_wsruns cdata) r
      end
  ∧ ws_collapsed (sub_wsruns cdata) = true
  ∧ Pod.flush_paragraph r
    = let text := strip (sub_wsruns (concat (Pod.paragraph r))) in
      if bool_decide (text = EmptyString) || bool_decide (text = "Z<>")
      then Pod.with_paragraph [] r
      else Pod.write Pod.nl2
             (Pod.write (strip text)
                (Pod.write " " (Pod.with_paragraph [] r))).
Proof.
  intros Hpre.
  assert (Hltb : (0 <? Pod.pre_depth r) = true) by by apply Z.ltb_lt.
  assert (Hq : Pod.quote r cdata = cdata) by (unfold Pod.quote; by rewrite Hltb).
  split; [exact Hq|]. split; [|split].
  - unfold Pod.on_cdata. rewrite Hq.
    destruct (Pod.paragraph r); [|done].
    case_bool_decide; [done|].
    rewrite bool_decide_eq_false_2 by lia. done.
  - apply sub_wsruns_aux_collapsed.
  - unfold Pod.flush_paragraph. cbv zeta.
    change (Pod.pre_depth (Pod.with_paragraph [] r)) with (Pod.pre_depth r).
    rewrite Hltb.
    destruct (bool_decide (_ = EmptyString)), (bool_decide (_ = "Z<>"));
      reflexivity.
Qed.

Lemma pre_cdata_unescaped_and_collapsed_witness :
  0 < Pod.pre_depth pre_state
  ∧ Pod.quote pre_state "<y>" = "<y>"
  ∧ Pod.paragraph (Pod.on_cdata ("x  <y>" +:+ str1 newline +:+ "z") pre_state)
    = ["x <y> z"].
Proof.
  destruct (pre_cdata_unescaped_and_collapsed pre_state "<y>" eq_refl)
    as (Hq & _).
  destruct (pre_cdata_unescaped_and_collapsed pre_state
              ("x  <y>" +:+ str1 newline +:+ "z") eq_refl)
    as (_ & Hc & _).
  split; [reflexivity|]. split; [exact Hq|]. rewrite Hc. reflexivity.
Defined.

(** C2, as stated, fails on [pre_file]: the two spaces and the newline of
    the data inside [pre] reach the output as single spaces. *)
Lemma pre_whitespace_counterexample :
  ∃ r, Pod.run ∅ [] [] true pre_file = Ok r
       ∧ Pod.out (self r)
         = {| BufferingWriter.output :=
                "=encoding utf8" +:+ Pod.nl2 +:+ "=head1 NAME" +:+ Pod.nl2
                +:+ "Z<>fbadb - pre" +:+ Pod.nl2
                +:+ " x <y> z" +:+ Pod.nl2;
              BufferingWriter.output_buffer := None |}
       ∧ contains ("x  <y>" +:+ str1 newline +:+ "z")
           (BufferingWriter.output (Pod.out (self r))) = false.
Proof.
  eexists. split; [vm_compute; reflexivity|].
  split; vm_compute; reflexivity.
Qed.

(** ** Sections of the documentation *)


Lemma keeps_trans r1 r2 r3 :
  keeps_sections r1 r2 → keeps_sections r2 r3 → keeps_sections r1 r3.
Proof. intros [H1 H2] [H3 H4]. split; congruence. Qed.

Lemma flush_paragraph_keeps r : keeps_sections r (Pod.flush_paragraph r).
Proof.
  unfold Pod.flush_paragraph.
  destruct (negb _ && negb _); [destruct (0 <? _)|]; done.
Qed.

Lemma spool_keeps part r : keeps_sections r (Pod.spool part r).
Proof. done. Qed.

Lemma write_keeps text r : keeps_sections r (Pod.write text r).
Proof. done. Qed.

Lemma on_cdata_keeps cdata r : keeps_sections r (Pod.on_cdata cdata r).
Proof.
  unfold Pod.on_cdata. destruct (Pod.paragraph r); [|done].
  case_bool_decide; [done|]. by case_bool_decide.
Qed.

Lemma command_keeps fmt args r r' :
  Pod.command fmt args r = Ok r' → keeps_sections r r'.
Proof.
  unfold Pod.command. intros Hr. result_inv. subst r'.
  eapply keeps_trans; [apply flush_paragraph_keeps|].
  eapply keeps_trans; [apply spool_keeps|]. apply flush_paragraph_keeps.
Qed.

Lemma write_command_synopsis_keeps cmd verbose r r' :
  Pod.write_command_synopsis cmd verbose r = Ok r' → keeps_sections r r'.
Proof.
  unfold Pod.write_command_synopsis.
  destruct (foldl _ _ _) as [s optdepth]. apply command_keeps.
Qed.

Lemma for_each_keeps {A} (l : list A) body r r' :
  (∀ x r r', body x r = Ok r' → keeps_sections r r') →
  Pod.for_each l body r = Ok r' → keeps_sections r r'.
Proof.
  intros Hbody. revert r. induction l as [|x l IH]; intros r Hr; cbn in Hr.
  - by injection Hr as <-.
  - apply bind_Ok in Hr as (r1 & H1 & Hr).
    eapply keeps_trans; [by eapply Hbody | by apply IH].
Qed.

Lemma keeps_advances r r' : keeps_sections r r' → advances r r'.
Proof.
  intros [Hsc Hcur].
  split; intros title; unfold recorded_or_pending, recorded;
    by rewrite Hsc, ?Hcur.
Qed.

Lemma advances_refl r : advances r r.
Proof. by split. Qed.

Lemma advances_trans r1 r2 r3 : advances r1 r2 → advances r2 r3 → advances r1 r3.
Proof. intros [H1 H2] [H3 H4]. split; intros title Ht; eauto. Qed.

Lemma section_contents_with_out w r :
  Pod.section_contents (Pod.with_out w r) = Pod.section_contents r.
Proof. reflexivity. Qed.

Lemma section_contents_with_current_section c r :
  Pod.section_contents (Pod.with_current_section c r) = Pod.section_contents r.
Proof. reflexivity. Qed.

Lemma section_contents_with_section_contents m r :
  Pod.section_contents (Pod.with_section_contents m r) = m.
Proof. reflexivity. Qed.

Lemma current_section_with_section_contents m r :
  Pod.current_section (Pod.with_section_contents m r) = Pod.current_section r.
Proof. reflexivity. Qed.

Lemma flush_section_buffer_spec r :
  Pod.current_section (Pod.flush_section_buffer r) = None
  ∧ ∀ title, recorded_or_pending title r →
      recorded title (Pod.flush_section_buffer r).
Proof.
  unfold Pod.flush_section_buffer, recorded_or_pending, recorded.
  destruct (flush_paragraph_keeps r) as [Hsc Hcur].
  destruct (Pod.current_section (Pod.flush_paragraph r)) as [name|] eqn:Hname.
  - destruct (BufferingWriter.ob_end_flush _) as [w contents].
    rewrite current_section_with_section_contents.
    split; [done|]. intros title Ht.
    rewrite section_contents_with_section_contents,
      section_contents_with_current_section, section_contents_with_out.
    destruct Ht as [Hrec|Hpend].
    + rewrite Hsc. destruct (decide (name = title)) as [->|Hne].
      * rewrite lookup_insert_eq. by eexists.
      * by rewrite lookup_insert_ne.
    + assert (name = title) as -> by congruence.
      rewrite lookup_insert_eq. by eexists.
  - split; [done|]. intros title [Hrec|Hpend].
    + by rewrite Hsc.
    + congruence.
Qed.

Lemma start_section_buffer_spec title r r' :
  Pod.start_section_buffer title r = Ok r' →
  Pod.section_contents r' = Pod.section_contents r
  ∧ Pod.current_section r' = Some title.
Proof.
  unfold Pod.start_section_buffer. intros Hr. result_inv. by subst r'.
Qed.

Lemma head1_spec title args r r' :
  Pod.head1 title args r = Ok r' →
  ∃ expanded_title,
    pyfmt title args = Ok expanded_title
    ∧ Pod.current_section r' = Some expanded_title
    ∧ ∀ t, recorded_or_pending t r → recorded t r'.
Proof.
  unfold Pod.head1. intros Hr.
  apply bind_Ok in Hr as (expanded & Hfmt & Hr).
  apply bind_Ok in Hr as (heading & _ & Hr).
  apply bind_Ok in Hr as (r1 & Hcmd & Hr).
  apply command_keeps in Hcmd as [Hsc1 _].
  apply start_section_buffer_spec in Hr as [Hsc2 Hcur2].
  exists expanded. split; [done|]. split; [done|].
  intros t Ht. unfold recorded. rewrite Hsc2, Hsc1.
  by apply flush_section_buffer_spec.
Qed.

Lemma head1_advances title args r r' :
  Pod.head1 title args r = Ok r' → advances r r'.
Proof.
  intros (e & _ & _ & Hrec)%head1_spec.
  split; intros t Ht; [|left]; apply Hrec; [by left | done].
Qed.

Lemma flush_section_buffer_advances r :
  advances r (Pod.flush_section_buffer r).
Proof.
  split; intros t Ht; [|left]; apply flush_section_buffer_spec;
    [by left | done].
Qed.

(** Turns what is known about the steps of a handler into facts about
    sections and chains them. *)
Ltac sections :=
  repeat match goal with
    | H : Pod.command _ _ _ = Ok _ |- _ => apply command_keeps in H
    | H : Pod.write_command_synopsis _ _ _ = Ok _ |- _ =>
        apply write_command_synopsis_keeps in H
    | H : Pod.head1 _ _ _ = Ok _ |- _ => apply head1_advances in H
    | H : keeps_sections _ _ |- _ => apply keeps_advances in H
    end;
  repeat match goal with
    | |- advances ?r ?r => apply advances_refl
    | H : advances ?r1 ?r2 |- advances _ ?r2 =>
        apply (advances_trans _ r1 r2); [clear H | exact H]
    | |- advances ?r (Pod.flush_paragraph ?r) =>
        apply keeps_advances, flush_paragraph_keeps
    | |- advances ?r (Pod.flush_section_buffer ?r) =>
        apply flush_section_buffer_advances
    | |- advances ?r (Pod.flush_paragraph ?r1) =>
        apply (advances_trans _ r1);
        [|apply keeps_advances, flush_paragraph_keeps]
    | |- advances ?r (Pod.flush_section_buffer ?r1) =>
        apply (advances_trans _ r1); [|apply flush_section_buffer_advances]
    | |- advances ?r (Pod.spool _ ?r1) =>
        apply (advances_trans _ r1); [|apply keeps_advances, spool_keeps]
    | |- advances ?r (Pod.write _ ?r1) =>
        apply (advances_trans _ r1); [|apply keeps_advances, write_keeps]
    | |- advances ?r (Pod.on_cdata _ ?r1) =>
        apply (advances_trans _ r1); [|apply keeps_advances, on_cdata_keeps]
    | |- advances ?r (Pod.with_pre_depth _ ?r1) =>
        apply (advances_trans _ r1); [|by apply keeps_advances]
    | |- advances ?r (Pod.with_current_command _ ?r1) =>
        apply (advances_trans _ r1); [|by apply keeps_advances]
    end.

Lemma on_synopsis_start_advances r r' :
  Pod.on_synopsis_start r = Ok r' → advances r r'.
Proof.
  unfold Pod.on_synopsis_start. intros Hr.
  apply bind_Ok in Hr as (r1 & H1 & Hr).
  apply for_each_keeps in H1;
    [|intros; by eapply write_command_synopsis_keeps].
  sections.
Qed.

Lemma pod_start_advances method kw r r' :
  Pod.start method kw r = Ok r' → advances r r'.
Proof.
  unfold Pod.start. intros Hr.
  repeat case_bool_decide; try discriminate.
  all: apply bind_Ok in Hr as ([] & _ & Hr).
  all: try (apply on_synopsis_start_advances in Hr; exact Hr).
  all: unfold Pod.on_usage_start, Pod.on_section_start, Pod.on_section_end,
         Pod.on_optgroup_start, Pod.on_option_start, Pod.on_vspace_start,
         Pod.on_command_start, Pod.on_argument_start,
         Pod.on_optgroup_reference_start, Pod.on_dt_start, Pod.on_pre_start
         in Hr.
  all: result_inv; subst; sections.
Qed.

Lemma pod_stop_advances method r r' :
  Pod.stop method r = Ok r' → advances r r'.
Proof.
  unfold Pod.stop. intros Hr.
  repeat case_bool_decide; try discriminate.
  all: unfold Pod.on_usage_end, Pod.on_section_end, Pod.on_optgroup_end,
         Pod.on_command_end, Pod.on_dt_end, Pod.on_pre_end in Hr.
  all: result_inv; subst; sections.
Qed.

Lemma pod_parse_advances file (r r' : UsageFileReader Pod.t) :
  parse file r = Ok r' → advances (self r) (self r').
Proof.
  intros Hr.
  eapply (parse_invariant (advances (self r))) in Hr; [done|..].
  - intros method kw s s' Hs Hstart.
    eapply advances_trans; [exact Hs | by eapply pod_start_advances].
  - intros method s s' Hs Hstop.
    eapply advances_trans; [exact Hs | by eapply pod_stop_advances].
  - intros cdata s s' Hs [= <-].
    eapply advances_trans; [exact Hs|]. apply keeps_advances, on_cdata_keeps.
  - apply advances_refl.
Qed.

(** *** The tables of the walker *)

Lemma od_get_set_eq {V} (k : string) (v : V) (d : list (string * V)) :
  od_get k (od_set k v d) = Ok v.
Proof.
  induction d as [|[k' v'] d IH]; cbn.
  - by rewrite bool_decide_eq_true_2.
  - case_bool_decide as Hk; cbn.
    + by rewrite bool_decide_eq_true_2.
    + by rewrite bool_decide_eq_false_2.
Qed.

Lemma od_get_set_ne {V} (k k' : string) (v : V) (d : list (string * V)) :
  k' ≠ k → od_get k (od_set k' v d) = od_get k d.
Proof.
  intros Hne. induction d as [|[k1 v1] d IH]; cbn.
  - by rewrite bool_decide_eq_false_2.
  - case_bool_decide as Hk; cbn.
    + subst k1. by rewrite !bool_decide_eq_false_2.
    + case_bool_decide; [done | exact IH].
Qed.

(** [OrderedDict((key(v), v) for v in l)[k]] is the last [v] of [l] whose
    key is [k]. *)
Lemma od_get_foldl {V} (key : V → string) (k : string) (l : list V)
  (d : list (string * V)) :
  od_get k (foldl (fun d kv => od_set kv.1 kv.2 d) d
              ((fun v => (key v, v)) <$> l))
  = match last (filter (fun v => key v = k) l) with
    | Some v => Ok v
    | None => od_get k d
    end.
Proof.
  revert d. induction l as [|v l IH]; intros d; [reflexivity|].
  cbn [fmap list_fmap foldl fst snd]. rewrite IH.
  destruct (decide (key v = k)) as [Hk|Hk].
  - rewrite filter_cons_True by done.
    destruct (filter _ l) as [|w ws] eqn:Hf.
    + cbn. rewrite <- Hk. apply od_get_set_eq.
    + rewrite last_cons_cons.
      destruct (last (w :: ws)) eqn:Hl; [done|]. by apply last_None in Hl.
  - rewrite filter_cons_False by done.
    destruct (last _); [done|]. by apply od_get_set_ne.
Qed.

Lemma od_get_ordered_dict {V} (key : V → string) (k : string) (l : list V)
  (v : V) :
  od_get k (ordered_dict ((fun v => (key v, v)) <$> l)) = Ok v ↔
  last (filter (fun v => key v = k) l) = Some v.
Proof.
  unfold ordered_dict. rewrite od_get_foldl.
  destruct (last _); cbn; split; intros [=]; by subst.
Qed.

Lemma od_get_ordered_dict_key {V} (key : V → string) (k : string)
  (l : list V) (v : V) :
  od_get k (ordered_dict ((fun v => (key v, v)) <$> l)) = Ok v → key v = k.
Proof.
  intros Hlast%od_get_ordered_dict. apply last_Some_elem_of in Hlast.
  by apply list_elem_of_filter in Hlast as [? _].
Qed.

Lemma same_tables_refl r : same_tables r r.
Proof. done. Qed.

Lemma same_tables_trans r1 r2 r3 :
  same_tables r1 r2 → same_tables r2 r3 → same_tables r1 r3.
Proof. intros [H1 H2] [H3 H4]. split; congruence. Qed.

Lemma flush_paragraph_tables r : same_tables r (Pod.flush_paragraph r).
Proof.
  unfold Pod.flush_paragraph.
  destruct (negb _ && negb _); [destruct (0 <? _)|]; done.
Qed.

Lemma on_cdata_tables cdata r : same_tables r (Pod.on_cdata cdata r).
Proof.
  unfold Pod.on_cdata. destruct (Pod.paragraph r); [|done].
  case_bool_decide; [done|]. by case_bool_decide.
Qed.

Lemma flush_section_buffer_tables r :
  same_tables r (Pod.flush_section_buffer r).
Proof.
  unfold Pod.flush_section_buffer.
  eapply same_tables_trans; [apply flush_paragraph_tables|].
  destruct (Pod.current_section _); [|done].
  by destruct (BufferingWriter.ob_end_flush _).
Qed.

Lemma command_tables fmt args r r' :
  Pod.command fmt args r = Ok r' → same_tables r r'.
Proof.
  unfold Pod.command. intros Hr. result_inv. subst r'.
  eapply same_tables_trans; [apply flush_paragraph_tables|].
  eapply same_tables_trans; [|apply flush_paragraph_tables]. done.
Qed.

Lemma head1_tables title args r r' :
  Pod.head1 title args r = Ok r' → same_tables r r'.
Proof.
  unfold Pod.head1. intros Hr.
  apply bind_Ok in Hr as (expanded & _ & Hr).
  apply bind_Ok in Hr as (heading & _ & Hr).
  apply bind_Ok in Hr as (r1 & Hcmd%command_tables & Hr).
  eapply same_tables_trans; [apply flush_section_buffer_tables|].
  eapply same_tables_trans; [exact Hcmd|].
  unfold Pod.start_section_buffer in Hr. result_inv. by subst r'.
Qed.

Lemma write_command_synopsis_tables cmd verbose r r' :
  Pod.write_command_synopsis cmd verbose r = Ok r' → same_tables r r'.
Proof.
  unfold Pod.write_command_synopsis.
  destruct (foldl _ _ _) as [s optdepth]. apply command_tables.
Qed.

Lemma for_each_tables {A} (l : list A) body r r' :
  (∀ x r r', body x r = Ok r' → same_tables r r') →
  Pod.for_each l body r = Ok r' → same_tables r r'.
Proof.
  intros Hbody. revert r. induction l as [|x l IH]; intros r Hr; cbn in Hr.
  - by injection Hr as <-.
  - apply bind_Ok in Hr as (r1 & H1 & Hr).
    eapply same_tables_trans; [by eapply Hbody | by apply IH].
Qed.

(** Turns what is known about the steps of a handler into facts about
    the tables and chains them. *)
Ltac tables :=
  repeat match goal with
    | H : Pod.command _ _ _ = Ok _ |- _ => apply command_tables in H
    | H : Pod.write_command_synopsis _ _ _ = Ok _ |- _ =>
        apply write_command_synopsis_tables in H
    | H : Pod.head1 _ _ _ = Ok _ |- _ => apply head1_tables in H
    end;
  repeat match goal with
    | |- same_tables ?r ?r => apply same_tables_refl
    | H : same_tables ?r1 ?r2 |- same_tables _ ?r2 =>
        apply (same_tables_trans _ r1 r2); [clear H | exact H]
    | |- same_tables ?r (Pod.flush_paragraph ?r1) =>
        apply (same_tables_trans _ r1); [|apply flush_paragraph_tables]
    | |- same_tables ?r (Pod.flush_section_buffer ?r1) =>
        apply (same_tables_trans _ r1); [|apply flush_section_buffer_tables]
    | |- same_tables ?r (Pod.on_cdata _ ?r1) =>
        apply (same_tables_trans _ r1); [|apply on_cdata_tables]
    | |- same_tables ?r (Pod.spool _ ?r1) =>
        apply (same_tables_trans _ r1); [|done]
    | |- same_tables ?r (Pod.write _ ?r1) =>
        apply (same_tables_trans _ r1); [|done]
    | |- same_tables ?r (Pod.with_pre_depth _ ?r1) =>
        apply (same_tables_trans _ r1); [|done]
    | |- same_tables ?r (Pod.with_current_command _ ?r1) =>
        apply (same_tables_trans _ r1); [|done]
    end.

Lemma pod_start_tables method kw r r' :
  Pod.start method kw r = Ok r' → same_tables r r'.
Proof.
  unfold Pod.start. intros Hr.
  repeat case_bool_decide; try discriminate.
  all: apply bind_Ok in Hr as ([] & _ & Hr).
  all: unfold Pod.on_usage_start, Pod.on_section_start, Pod.on_section_end,
         Pod.on_synopsis_start, Pod.on_optgroup_start, Pod.on_option_start,
         Pod.on_vspace_start, Pod.on_command_start, Pod.on_argument_start,
         Pod.on_optgroup_reference_start, Pod.on_dt_start, Pod.on_pre_start
         in Hr.
  all: result_inv; subst;
    try match goal with
      | H : Pod.for_each _ _ _ = Ok _ |- _ =>
          apply for_each_tables in H;
          [|intros; by eapply write_command_synopsis_tables]
      end;
    tables.
Qed.

Lemma pod_stop_tables method r r' :
  Pod.stop method r = Ok r' → same_tables r r'.
Proof.
  unfold Pod.stop. intros Hr.
  repeat case_bool_decide; try discriminate.
  all: unfold Pod.on_usage_end, Pod.on_section_end, Pod.on_optgroup_end,
         Pod.on_command_end, Pod.on_dt_end, Pod.on_pre_end in Hr.
  all: result_inv; subst; tables.
Qed.

Lemma pod_parse_tables file (r r' : UsageFileReader Pod.t) :
  parse file r = Ok r' → same_tables (self r) (self r').
Proof.
  intros Hr.
  eapply (parse_invariant (same_tables (self r))) in Hr; [done|..].
  - intros method kw s s' Hs Hstart.
    eapply same_tables_trans; [exact Hs | by eapply pod_start_tables].
  - intros method s s' Hs Hstop.
    eapply same_tables_trans; [exact Hs | by eapply pod_stop_tables].
  - intros cdata s s' Hs [= <-].
    eapply same_tables_trans; [exact Hs | apply on_cdata_tables].
  - apply same_tables_refl.
Qed.

Lemma pod_init_tables optgroups commands full_optgroups pod :
  Pod.init optgroups commands full_optgroups = Ok pod →
  Pod.optgroups pod
  = ordered_dict ((fun og => (OptGroup.name og, og)) <$> optgroups)
  ∧ Pod.commands pod
    = ordered_dict ((fun c => (Command.name c, c)) <$> commands).
Proof.
  unfold Pod.init. intros [Hogs Hcmds]%command_tables. by rewrite Hogs, Hcmds.
Qed.

(** The code's title of a group is the specification's. *)
Lemma section_title_for_optgroup_spec (og : OptGroup.t) :
  Pod.section_title_for_optgroup og = group_title og.
Proof.
  unfold Pod.section_title_for_optgroup, group_title, truthy.
  destruct (OptGroup.human og) as [h|]; [|reflexivity].
  by destruct h.
Qed.

(** The element that opens a section makes its title the pending one,
    and records the section that was pending. *)
Lemma element_title_opens optgroups commands (r r' : UsageFileReader Pod.t)
  ev title :
  Pod.optgroups (self r)
  = ordered_dict ((fun og => (OptGroup.name og, og)) <$> optgroups) →
  Pod.commands (self r)
  = ordered_dict ((fun c => (Command.name c, c)) <$> commands) →
  enabled_p r = true → element_title optgroups ev = Some title →
  handle ev r = Ok r' →
  Pod.current_section (self r') = Some title
  ∧ ∀ t, recorded_or_pending t (self r) → recorded t (self r').
Proof.
  intros Hogs Hcmds Hen Hopen Hr.
  destruct ev as [tag attrs| | |]; try discriminate.
  cbn [handle] in Hr. unfold StartElementHandler in Hr. rewrite Hen in Hr.
  cbn [negb] in Hr. apply bind_Ok in Hr as (s & Hstart & [= <-]).
  cbn [self]. cbn [start_handler Pod.handlers] in Hstart.
  unfold element_title in Hopen.
  case_bool_decide as Hcmd.
  - subst tag. change (on_start_function "command") with "on_command_start"
      in Hstart.
    unfold Pod.start in Hstart.
    revert Hstart. decide_methods. intros Hstart.
    apply bind_Ok in Hstart as ([] & _ & Hstart).
    apply bind_Ok in Hstart as (names & Hnames & Hstart).
    unfold kwarg in Hnames.
    destruct (fixed_attr attrs !! "names") as [names'|]; [|discriminate].
    injection Hnames as ->. cbn in Hopen. injection Hopen as <-.
    unfold Pod.on_command_start in Hstart. unfold command_element_title.
    destruct (split_on "," names) as [|name rest]; [discriminate|].
    cbn [fmap list_fmap head default] in Hstart |- *.
    apply bind_Ok in Hstart as (name' & [= <-] & Hstart).
    apply bind_Ok in Hstart as (cmd & Hget & Hstart).
    rewrite Hcmds in Hget. apply od_get_ordered_dict_key in Hget.
    apply bind_Ok in Hstart as (r1 & Hhead & Hstart).
    apply head1_spec in Hhead as (e & Hfmt & Hcur & Hrec).
    rewrite pyfmt_s in Hfmt. injection Hfmt as <-.
    apply write_command_synopsis_keeps in Hstart as [Hsc ->]. split.
    + rewrite Hcur. unfold Pod.section_title_for_command. by rewrite Hget.
    + intros t Ht. unfold recorded. rewrite Hsc. by apply Hrec.
  - case_bool_decide as Hog; [|discriminate].
    subst tag. change (on_start_function "optgroup") with "on_optgroup_start"
      in Hstart.
    unfold Pod.start in Hstart.
    revert Hstart. decide_methods. intros Hstart.
    apply bind_Ok in Hstart as ([] & _ & Hstart).
    apply bind_Ok in Hstart as (name & Hname & Hstart).
    unfold kwarg in Hname.
    destruct (fixed_attr attrs !! "name") as [name'|]; [|discriminate].
    injection Hname as ->. cbn [mbind option_bind] in Hopen.
    unfold Pod.on_optgroup_start in Hstart.
    apply bind_Ok in Hstart as (og & Hget & Hstart).
    rewrite Hogs in Hget. apply od_get_ordered_dict in Hget.
    unfold group_named in Hopen. rewrite Hget in Hopen.
    cbn [mbind option_bind] in Hopen.
    destruct (OptGroup.private og); [discriminate|].
    cbn [negb] in Hstart.
    apply bind_Ok in Hstart as (r1 & Hhead & Hstart).
    apply bind_Ok in Hhead as (title' & Htitle & Hhead).
    rewrite section_title_for_optgroup_spec in Htitle.
    rewrite Htitle in Hopen. injection Hopen as <-.
    apply head1_spec in Hhead as (e & Hfmt & Hcur & Hrec).
    rewrite pyfmt_s in Hfmt. injection Hfmt as <-.
    apply command_keeps in Hstart as [Hsc ->]. split; [exact Hcur|].
    intros t Ht. unfold recorded. rewrite Hsc. by apply Hrec.
Qed.

(** The end of a [usage] element records the pending section. *)
Lemma usage_end_records (r r' : UsageFileReader Pod.t) title :
  enabled_p r = true → handle (EndElement "usage") r = Ok r' →
  recorded_or_pending title (self r) → recorded title (self r').
Proof.
  intros Hen Hr Ht. cbn [handle] in Hr. unfold EndElementHandler in Hr.
  rewrite Hen in Hr. cbn [negb] in Hr.
  apply bind_Ok in Hr as (s & Hstop & [= <-]). cbn [self].
  cbn [end_handler Pod.handlers] in Hstop.
  change (on_stop_function "usage") with "on_usage_end" in Hstop.
  unfold Pod.stop in Hstop. revert Hstop. decide_methods.
  unfold Pod.on_usage_end. intros [= <-].
  apply flush_section_buffer_spec.
  by apply (proj2 (keeps_advances _ _ (flush_paragraph_keeps (self r)))).
Qed.


(** ** Identifiers *)

Lemma re_tail_spec (cls : ascii → bool) (s : string) :
  cls newline = false →
  re_tail cls s = true
  ↔ all_chars cls s = true
    ∨ ∃ body, s = body +:+ str1 newline ∧ all_chars cls body = true.
Proof.
  intros Hnl. induction s as [|c r IH]; cbn [re_tail all_chars].
  - split; [by left | done].
  - destruct (cls c) eqn:Hc; cbn [andb].
    + rewrite IH. split.
      * intros [Hall | (body & -> & Hall)]; [by left | right].
        exists (String c body). cbn [all_chars]. by rewrite Hc.
      * intros [Hall | (body & Heq & Hall)]; [by left | right].
        destruct body as [|d body]; cbn in Heq; injection Heq as -> ->.
        -- congruence.
        -- cbn [all_chars] in Hall. apply andb_prop in Hall as [_ Hall]. eauto.
    + split.
      * intros [Heq Hr]%andb_prop. destruct r; [|discriminate Hr].
        right. exists EmptyString.
        unfold chr_eqb in Heq. apply Ascii.eqb_eq in Heq as ->. done.
      * intros [? | (body & Heq & Hall)]; [done|].
        destruct body as [|d body]; cbn in Heq; injection Heq as -> ->.
        -- unfold chr_eqb. by rewrite Ascii.eqb_refl.
        -- cbn [all_chars] in Hall. by rewrite Hc in Hall.
Qed.

Lemma id_char_newline : id_char newline = false.
Proof. reflexivity. Qed.

Lemma id_dash_char_newline : id_dash_char newline = false.
Proof. reflexivity. Qed.

(** X2.  [check_id] returns its argument or dies with "invalid ID"; it
    accepts exactly a letter or underscore followed by letters, digits and
    underscores, optionally followed by one newline (the [$] of the
    pattern matches before a final newline).  [check_id_dash] is the same
    with the dash among the characters that may follow. *)
Theorem identifier_checks (s : string) :
  (check_id s = Ok s ∨ check_id s = Err (Die (InvalidID s)))
  ∧ (check_id s = Ok s
     ↔ ∃ c body, id_start c = true ∧ all_chars id_char body = true
         ∧ (s = String c body ∨ s = String c body +:+ str1 newline))
  ∧ (check_id_dash s = Ok s ∨ check_id_dash s = Err (Die (InvalidName s)))
  ∧ (check_id_dash s = Ok s
     ↔ ∃ c body, id_start c = true ∧ all_chars id_dash_char body = true
         ∧ (s = String c body ∨ s = String c body +:+ str1 newline)).
Proof.
  assert (Hgen : ∀ cls, cls newline = false →
            (match s with
             | EmptyString => false
             | String c r => id_start c && re_tail cls r
             end = true
             ↔ ∃ c body, id_start c = true ∧ all_chars cls body = true
                 ∧ (s = String c body ∨ s = String c body +:+ str1 newline))).
  { intros cls Hnl. destruct s as [|c r].
    - split; [done|]. intros (c & body & _ & _ & [?|?]); discriminate.
    - rewrite andb_true_iff, re_tail_spec by done. split.
      + intros [Hc [Hall | (body & -> & Hall)]]; exists c; eauto 10.
      + intros (c' & body & Hc & Hall & [Heq|Heq]); cbn in Heq;
          injection Heq as -> ->; eauto. }
  unfold check_id, check_id_dash, die, ID, ID_DASH.
  pose proof (Hgen id_char id_char_newline) as Hid.
  pose proof (Hgen id_dash_char id_dash_char_newline) as Hdash.
  split; [|split; [|split]].
  - clear. destruct s as [|c r]; [by right|].
    destruct (_ && _); [by left | by right].
  - rewrite <- Hid. clear. destruct s as [|c r]; [done|].
    by destruct (_ && _).
  - clear. destruct s as [|c r]; [by right|].
    destruct (_ && _); [by left | by right].
  - rewrite <- Hdash. clear. destruct s as [|c r]; [done|].
    by destruct (_ && _).
Qed.

Lemma replace_dash_id_char (c : ascii) :
  id_dash_char c = true →
  id_char (if chr_eqb c "-" then "_"%char else c) = true.
Proof.
  unfold id_dash_char. destruct (chr_eqb c "-"); [done|].
  by rewrite orb_false_r.
Qed.

Lemma re_tail_replace_dash (s : string) :
  re_tail id_dash_char s = true →
  re_tail id_char (replace_char "-" "_" s) = true.
Proof.
  unfold replace_char. induction s as [|c r IH]; [done|].
  cbn [re_tail map_chars]. destruct (id_dash_char c) eqn:Hc.
  - intros Hr. by rewrite (replace_dash_id_char c Hc), IH.
  - intros [Heq Hr]%andb_prop. destruct r; [|discriminate Hr].
    unfold chr_eqb in Heq. apply Ascii.eqb_eq in Heq as ->. reflexivity.
Qed.

Lemma ID_DASH_replace (s : string) :
  ID_DASH s = true → ID (replace_char "-" "_" s) = true.
Proof.
  destruct s as [|c r]; [done|]. unfold ID_DASH, ID, replace_char.
  cbn [map_chars]. intros [Hc Hr]%andb_prop.
  assert (chr_eqb c "-" = false) as ->.
  { unfold chr_eqb. destruct (Ascii.eqb_spec c "-") as [->|]; [|done].
    discriminate Hc. }
  rewrite Hc. by apply re_tail_replace_dash.
Qed.

Lemma check_id_dash_Ok (s s' : string) :
  check_id_dash s = Ok s' → s' = s ∧ ID_DASH s = true.
Proof.
  unfold check_id_dash. destruct (ID_DASH s); [|discriminate].
  by intros [= <-].
Qed.

Lemma check_id_Ok (s s' : string) :
  check_id s = Ok s' → s' = s ∧ ID s = true.
Proof.
  unfold check_id. destruct (ID s); [|discriminate]. by intros [= <-].
Qed.

(** X1.  A name that [check_id_dash] accepts gives, with its dashes
    replaced by underscores, a symbol that [check_id] accepts: the check
    of the derived symbol cannot fail, and [Argument] can only be refused
    for its name or for its booleans. *)
Theorem derived_symbol_always_valid (s : string) :
  check_id_dash s = Ok s →
  check_id (replace_char "-" "_" s) = Ok (replace_char "-" "_" s)
  ∧ ∀ type repeat optional e,
      Argument.init s type repeat optional = Err e →
      ∃ v, e = Die (InvalidBool v).
Proof.
  intros [_ Hs]%check_id_dash_Ok.
  assert (Hsym : check_id (replace_char "-" "_" s)
                 = Ok (replace_char "-" "_" s))
    by (unfold check_id; by rewrite ID_DASH_replace).
  split; [exact Hsym|]. intros type repeat optional e.
  unfold Argument.init, check_id_dash. rewrite Hs. cbn.
  rewrite Hsym. cbn.
  destruct repeat as [b|v]; cbn.
  - destruct optional as [b'|v']; cbn; [discriminate|].
    repeat case_bool_decide; cbn; try discriminate. intros [= <-]. eauto.
  - repeat case_bool_decide; cbn.
    3: intros [= <-]; eauto.
    all: destruct optional as [b'|v']; cbn; try discriminate.
    all: repeat case_bool_decide; cbn; try discriminate.
    all: intros [= <-]; eauto.
Qed.

Lemma derived_symbol_always_valid_witness :
  check_id_dash "dry-run" = Ok "dry-run"
  ∧ check_id "dry_run" = Ok "dry_run".
Proof.
  split; [reflexivity|].
  apply (derived_symbol_always_valid "dry-run"). reflexivity.
Defined.

(** ** Conditionals and nesting in the reader *)

Lemma bind_Err {A B} (f : A → result B) (r : result A) (e : error) :
  r ≫= f = Err e → r = Err e ∨ ∃ a, r = Ok a ∧ f a = Err e.
Proof. destruct r as [a|e']; [eauto | intros [= <-]; by left]. Qed.

Lemma reader_eta {S} (r : UsageFileReader S) :
  {| defs := defs r; ifdefs := ifdefs r; level := level r; self := self r |}
  = r.
Proof. by destruct r. Qed.

(** Evaluates the tests of the handler on the target [endif]. *)
Ltac endif_target :=
  change (bool_decide ("endif" ∈ ["ifdef"; "ifndef"])) with false in *;
  change (bool_decide ("endif" = "endif")) with true in *;
  cbv iota in *.

Section ReaderShape.
Context {S : Type} `{Handlers S}.

Lemma handle_disabled (ev : event) (r : UsageFileReader S) :
  is_pi ev = false → enabled_p r = false → handle ev r = Ok r.
Proof.
  intros Hev Hdis. destruct ev; try discriminate; cbn;
    unfold StartElementHandler, EndElementHandler, CharacterDataHandler;
    by rewrite Hdis.
Qed.

Lemma handle_conditional target data condition (r : UsageFileReader S) :
  target ∈ ["ifdef"; "ifndef"] → split_ws data = [condition] →
  handle (ProcessingInstruction target data) r
  = Ok {| defs := defs r;
          ifdefs := ifdefs r
                    ++ [(eqb (bool_decide (condition ∈ defs r))
                             (bool_decide (target = "ifdef")), level r)];
          level := level r; self := self r |}.
Proof.
  intros Ht Hd. cbn. unfold ProcessingInstructionHandler.
  by rewrite bool_decide_eq_true_2, Hd.
Qed.

Lemma handle_endif blank (r : UsageFileReader S) enable :
  split_ws blank = [] →
  handle (ProcessingInstruction "endif" blank)
    {| defs := defs r; ifdefs := ifdefs r ++ [(enable, level r)];
       level := level r; self := self r |}
  = Ok r.
Proof.
  intros Hb. cbn [handle]. unfold ProcessingInstructionHandler.
  endif_target. rewrite Hb. cbn [ifdefs level defs self].
  rewrite last_snoc, removelast_last.
  rewrite bool_decide_eq_false_2 by (intros Hne; by apply Hne).
  by rewrite reader_eta.
Qed.

Lemma enabled_p_snoc (r : UsageFileReader S) frame :
  enabled_p r = false →
  enabled_p {| defs := defs r; ifdefs := ifdefs r ++ [frame];
               level := level r; self := self r |} = false.
Proof.
  unfold enabled_p. cbn. intros Hdis. by rewrite forallb_app, Hdis.
Qed.

Lemma parse_skippable (body : list event) :
  skippable body →
  ∀ r : UsageFileReader S, enabled_p r = false → parse body r = Ok r.
Proof.
  induction 1 as [|ev rest Hev _ IH
                  |target data condition blank body rest Ht Hd Hb _ IHb _ IHr];
    intros r Hdis.
  - reflexivity.
  - cbn [parse]. rewrite (handle_disabled ev r Hev Hdis). cbn. by apply IH.
  - cbn [parse]. rewrite (handle_conditional _ _ _ r Ht Hd). cbn.
    rewrite parse_app, IHb by by apply enabled_p_snoc.
    cbn [mbind result_bind rbind parse]. rewrite (handle_endif _ r _ Hb).
    cbn. by apply IHr.
Qed.

(** X3.  A conditional whose condition does not hold hides what it
    encloses: when the [ifdef] names a macro that is not defined (or the
    [ifndef] one that is), the events up to its [endif] leave the reader
    exactly as it was, handler state, depth and conditional stack
    included.  The events enclosed may be any elements and character
    data, among them elements no handler exists for, and conditionals
    that are closed in turn. *)
Theorem false_conditional_skipped (r : UsageFileReader S)
  (target data condition blank : string) (body : list event) :
  split_ws data = [condition] →
  split_ws blank = [] →
  (target = "ifdef" ∧ condition ∉ defs r)
  ∨ (target = "ifndef" ∧ condition ∈ defs r) →
  skippable body →
  parse (ProcessingInstruction target data
         :: body ++ [ProcessingInstruction "endif" blank]) r
  = Ok r.
Proof.
  intros Hd Hb Hcond Hbody.
  assert (Ht : target ∈ ["ifdef"; "ifndef"])
    by (destruct Hcond as [[-> _]|[-> _]]; set_solver).
  cbn [parse]. rewrite (handle_conditional _ _ _ r Ht Hd). cbn.
  rewrite parse_app, (parse_skippable body Hbody).
  - cbn [mbind result_bind rbind parse]. by rewrite (handle_endif _ r _ Hb).
  - unfold enabled_p. cbn. rewrite forallb_app. cbn.
    destruct Hcond as [[-> Hc]|[-> Hc]].
    + rewrite (bool_decide_eq_false_2 _ Hc). cbn. by rewrite andb_false_r.
    + rewrite (bool_decide_eq_true_2 _ Hc). cbn. by rewrite andb_false_r.
Qed.

Lemma parse_well_nested_Ok (file : list event) :
  well_nested file →
  ∀ r r' : UsageFileReader S, parse file r = Ok r' →
    level r' = level r ∧ ifdefs r' = ifdefs r ∧ defs r' = defs r.
Proof.
  induction 1 as [|cdata rest _ IH
                  |name attributes body rest _ IHb _ IHr
                  |target data blank body rest Ht _ IHb _ IHr];
    intros r r' Hr.
  - by injection Hr as <-.
  - cbn [parse] in Hr. apply bind_Ok in Hr as (r1 & H1 & Hr).
    apply IH in Hr as (-> & -> & ->).
    cbn in H1. unfold CharacterDataHandler in H1.
    destruct (negb (enabled_p r)); result_inv; by subst.
  - cbn [parse] in Hr. apply bind_Ok in Hr as (r1 & H1 & Hr).
    rewrite parse_app in Hr. apply bind_Ok in Hr as (r2 & H2 & Hr).
    cbn [parse] in Hr. apply bind_Ok in Hr as (r3 & H3 & Hr).
    apply IHr in Hr as (-> & -> & ->).
    apply IHb in H2 as (Hl2 & Hi2 & Hd2).
    cbn in H1, H3. unfold StartElementHandler in H1.
    unfold EndElementHandler, enabled_p in H3. rewrite Hi2 in H3.
    unfold enabled_p in H1.
    destruct (negb (forallb fst (ifdefs r))) eqn:Hen.
    + injection H1 as <-. rewrite Hen in H3. injection H3 as <-. done.
    + apply bind_Ok in H1 as (s1 & _ & [= <-]). cbn in *. rewrite Hen in H3.
      apply bind_Ok in H3 as (s3 & _ & [= <-]). cbn.
      split; [lia | done].
  - cbn [parse] in Hr. apply bind_Ok in Hr as (r1 & H1 & Hr).
    rewrite parse_app in Hr. apply bind_Ok in Hr as (r2 & H2 & Hr).
    cbn [parse] in Hr. apply bind_Ok in Hr as (r3 & H3 & Hr).
    apply IHr in Hr as (-> & -> & ->).
    apply IHb in H2 as (Hl2 & Hi2 & Hd2).
    cbn [handle] in H1, H3. unfold ProcessingInstructionHandler in H1, H3.
    endif_target. rewrite bool_decide_eq_true_2 in H1 by done.
    destruct (split_ws data) as [|condition [|]]; try discriminate.
    injection H1 as <-. cbn [ifdefs level defs self] in *.
    destruct (split_ws blank); [|discriminate].
    rewrite Hi2, last_snoc in H3.
    destruct (bool_decide (level r2 ≠ level r)); [discriminate|].
    injection H3 as <-. cbn [level ifdefs defs].
    rewrite removelast_last. done.
Qed.

Lemma parse_well_nested_Err (file : list event) :
  handlers_quiet S → well_nested file →
  ∀ (r : UsageFileReader S) e, parse file r = Err e → ¬ bookkeeping_error e.
Proof.
  intros Hquiet.
  induction 1 as [|cdata rest _ IH
                  |name attributes body rest Hbody IHb _ IHr
                  |target data blank body rest Ht Hbody IHb _ IHr];
    intros r e Hr Hbad.
  - discriminate.
  - cbn [parse] in Hr. apply bind_Err in Hr as [H1|(r1 & _ & Hr)];
      [|by eapply IH].
    cbn in H1. unfold CharacterDataHandler in H1.
    destruct (negb (enabled_p r)); [discriminate|].
    apply bind_Err in H1 as [H1|(? & _ & [=])].
    by apply (Hquiet e Hbad) in H1.
  - cbn [parse] in Hr. apply bind_Err in Hr as [H1|(r1 & H1 & Hr)].
    { cbn in H1. unfold StartElementHandler in H1.
      destruct (negb (enabled_p r)); [discriminate|].
      apply bind_Err in H1 as [H1|(? & _ & [=])].
      by apply (Hquiet e Hbad) in H1. }
    rewrite parse_app in Hr. apply bind_Err in Hr as [H2|(r2 & H2 & Hr)];
      [by eapply IHb|].
    cbn [parse] in Hr. apply bind_Err in Hr as [H3|(r3 & _ & Hr)];
      [|by eapply IHr].
    cbn in H3. unfold EndElementHandler in H3.
    destruct (negb (enabled_p r2)); [discriminate|].
    apply bind_Err in H3 as [H3|(? & _ & [=])].
    by apply (Hquiet e Hbad) in H3.
  - cbn [parse] in Hr. apply bind_Err in Hr as [H1|(r1 & H1 & Hr)].
    { cbn in H1. unfold ProcessingInstructionHandler in H1.
      rewrite bool_decide_eq_true_2 in H1 by done.
      destruct (split_ws data) as [|condition [|]]; try discriminate;
        injection H1 as <-; destruct Hbad; discriminate. }
    rewrite parse_app in Hr. apply bind_Err in Hr as [H2|(r2 & H2 & Hr)];
      [by eapply IHb|].
    cbn [parse] in Hr. apply bind_Err in Hr as [H3|(r3 & _ & Hr)];
      [|by eapply IHr].
    apply (parse_well_nested_Ok body Hbody) in H2 as (Hl2 & Hi2 & _).
    cbn [handle] in H1, H3. unfold ProcessingInstructionHandler in H1, H3.
    endif_target. rewrite bool_decide_eq_true_2 in H1 by done.
    destruct (split_ws data) as [|condition [|]]; try discriminate.
    injection H1 as <-. cbn [ifdefs level defs self] in *.
    destruct (split_ws blank).
    + rewrite Hi2, last_snoc in H3.
      rewrite bool_decide_eq_false_2 in H3 by (intros Hne; by apply Hne).
      discriminate.
    + injection H3 as <-. destruct Hbad; discriminate.
Qed.

(** X4.  In a file whose elements and conditionals are nested in each
    other, a parse that succeeds ends at the depth and with the stack of
    conditionals it started with, whether or not the conditionals hold;
    and when no handler raises them itself, the parse fails neither with
    "badly formed ifdef" nor with the IndexError of an [endif] that finds
    the stack empty: on such a file every [endif] finds its own
    conditional, at the depth that was saved with it. *)
Theorem well_nested_parse_balanced (file : list event)
  (r : UsageFileReader S) :
  well_nested file →
  (∀ r', parse file r = Ok r' →
     level r' = level r ∧ ifdefs r' = ifdefs r ∧ defs r' = defs r)
  ∧ (handlers_quiet S →
     ∀ e, parse file r = Err e → ¬ bookkeeping_error e).
Proof.
  intros Hfile. split.
  - intros r'. by apply parse_well_nested_Ok.
  - intros Hquiet e. by apply parse_well_nested_Err.
Qed.
End ReaderShape.

Lemma false_conditional_skipped_witness :
  parse [ProcessingInstruction "ifdef" "WINDOWS";
         StartElement "no-such-element" [("x", "y")];
         CharacterData "text";
         ProcessingInstruction "ifndef" "WINDOWS";
         EndElement "no-such-element";
         ProcessingInstruction "endif" " ";
         ProcessingInstruction "endif" EmptyString]
    (reader_init ∅ Slurp.init)
  = Ok (reader_init ∅ Slurp.init).
Proof.
  apply (false_conditional_skipped (reader_init ∅ Slurp.init)
           "ifdef" "WINDOWS" "WINDOWS" EmptyString
           [StartElement "no-such-element" [("x", "y")];
            CharacterData "text";
            ProcessingInstruction "ifndef" "WINDOWS";
            EndElement "no-such-element";
            ProcessingInstruction "endif" " "]).
  - reflexivity.
  - reflexivity.
  - left. split; [reflexivity | apply not_elem_of_empty].
  - apply skippable_event; [reflexivity|].
    apply skippable_event; [reflexivity|].
    apply (skippable_conditional "ifndef" "WINDOWS" "WINDOWS" " "
             [EndElement "no-such-element"] []).
    + set_solver.
    + reflexivity.
    + reflexivity.
    + apply skippable_event; [reflexivity | apply skippable_nil].
    + apply skippable_nil.
Defined.

(** [nested_file] with [X] defined: the first conditional holds, the
    second does not, and the parse ends at the depth and with the stack
    it started with. *)
Lemma well_nested_parse_balanced_witness :
  ∃ r', parse nested_file (reader_init {["X"]} Slurp.init) = Ok r'
        ∧ level r' = 0 ∧ ifdefs r' = [] ∧ defs r' = {["X"]}.
Proof.
  destruct (parse nested_file (reader_init {["X"]} Slurp.init))
    as [r'|e] eqn:Hr; [|vm_compute in Hr; discriminate].
  exists r'. split; [done|].
  refine (proj1 (well_nested_parse_balanced nested_file
                   (reader_init {["X"]} Slurp.init) _) r' Hr).
  apply (well_nested_element "b" []
           [ProcessingInstruction "ifdef" "X";
            StartElement "i" []; CharacterData "x"; EndElement "i";
            ProcessingInstruction "endif" EmptyString;
            ProcessingInstruction "ifndef" "X";
            StartElement "tt" []; EndElement "tt";
            ProcessingInstruction "endif" EmptyString] []);
    [|apply well_nested_nil].
  apply (well_nested_conditional "ifdef" "X" EmptyString
           [StartElement "i" []; CharacterData "x"; EndElement "i"]
           [ProcessingInstruction "ifndef" "X";
            StartElement "tt" []; EndElement "tt";
            ProcessingInstruction "endif" EmptyString]).
  - apply list_elem_of_here.
  - apply (well_nested_element "i" [] [CharacterData "x"] []);
      [apply well_nested_cdata|]; apply well_nested_nil.
  - apply (well_nested_conditional "ifndef" "X" EmptyString
             [StartElement "tt" []; EndElement "tt"] []).
    + apply list_elem_of_further, list_elem_of_here.
    + apply (well_nested_element "tt" [] [] []); apply well_nested_nil.
    + apply well_nested_nil.
Defined.

(** ** What the handlers can raise *)

Create HintDb quiet discriminated.

Ltac result_err :=
  repeat match goal with
    | H : Err _ = Err _ |- _ => injection H as H
    | H : Ok _ = Err _ |- _ => discriminate H
    | H : die _ = Err _ |- _ => unfold die in H
    | H : (_ ≫= _) = Err _ |- _ =>
        let H1 := fresh "Hb" in
        apply bind_Err in H as [H | (? & H1 & H)]
    | H : (if ?b then _ else _) = Err _ |- _ => destruct b eqn:?
    | H : match ?x with _ => _ end = Err _ |- _ => destruct x eqn:?
    end.

(** Closes a goal [¬ bookkeeping_error e] from an equation that names
    [e], or from a rule of the database. *)
Ltac plain_error :=
  subst;
  first [ by (intros [?|?]; discriminate)
        | by eauto with quiet ].

Lemma check_id_plain s e : check_id s = Err e → ¬ bookkeeping_error e.
Proof. unfold check_id. intros Hr. result_err. plain_error. Qed.

Lemma check_id_dash_plain s e :
  check_id_dash s = Err e → ¬ bookkeeping_error e.
Proof. unfold check_id_dash. intros Hr. result_err. plain_error. Qed.

Lemma check_bool_plain v e : check_bool v = Err e → ¬ bookkeeping_error e.
Proof. unfold check_bool. intros Hr. result_err. plain_error. Qed.

Lemma mapM_plain {A B} (f : A → result B) (l : list A) e :
  (∀ x e, f x = Err e → ¬ bookkeeping_error e) →
  mapM f l = Err e → ¬ bookkeeping_error e.
Proof.
  intros Hf. induction l as [|x l IH]; cbn; [discriminate|].
  intros Hr. result_err; eauto. discriminate.
Qed.

Lemma bind_kwargs_plain required optional rest kw e :
  bind_kwargs required optional rest kw = Err e → ¬ bookkeeping_error e.
Proof. unfold bind_kwargs. intros Hr. result_err. plain_error. Qed.

Lemma kwarg_plain kw k e : kwarg kw k = Err e → ¬ bookkeeping_error e.
Proof. unfold kwarg. intros Hr. result_err. plain_error. Qed.

Lemma need_plain {A} (o : option A) e :
  Slurp.need o = Err e → ¬ bookkeeping_error e.
Proof. unfold Slurp.need. intros Hr. result_err. plain_error. Qed.

#[local] Hint Resolve check_id_plain check_id_dash_plain check_bool_plain
  bind_kwargs_plain kwarg_plain need_plain : quiet.

Lemma Command_init_plain name symbol altnames export e :
  Command.init name symbol altnames export = Err e → ¬ bookkeeping_error e.
Proof.
  unfold Command.init. intros Hr. result_err; try plain_error.
  eapply mapM_plain; [|eassumption]. eauto with quiet.
Qed.

Lemma OptGroup_init_plain name forward export human e :
  OptGroup.init name forward export human = Err e → ¬ bookkeeping_error e.
Proof. unfold OptGroup.init. intros Hr. result_err; plain_error. Qed.

Lemma Option_init_plain short long arg type accumulate e :
  Option.init short long arg type accumulate = Err e →
  ¬ bookkeeping_error e.
Proof.
  unfold Option.init. intros Hr. result_err; try plain_error.
  all: match goal with
       | H : (_ <$> _) = Err _ |- _ =>
           unfold fmap, result_fmap in H; result_err; plain_error
       end.
Qed.

Lemma Argument_init_plain name type repeat optional e :
  Argument.init name type repeat optional = Err e → ¬ bookkeeping_error e.
Proof. unfold Argument.init. intros Hr. result_err; plain_error. Qed.

Lemma add_option_plain og o e :
  OptGroup.add_option og o = Err e → ¬ bookkeeping_error e.
Proof. unfold OptGroup.add_option. intros Hr. result_err. plain_error. Qed.

Lemma add_optgroup_plain c og e :
  Command.add_optgroup c og = Err e → ¬ bookkeeping_error e.
Proof. unfold Command.add_optgroup. intros Hr. result_err. plain_error. Qed.

Lemma add_argument_plain c a e :
  Command.add_argument c a = Err e → ¬ bookkeeping_error e.
Proof. unfold Command.add_argument. intros Hr. result_err; plain_error. Qed.

#[local] Hint Resolve Command_init_plain OptGroup_init_plain
  Option_init_plain Argument_init_plain add_option_plain add_optgroup_plain
  add_argument_plain : quiet.

Lemma ignore_plain kw s e :
  Slurp._ignore kw s = Err e → ¬ bookkeeping_error e.
Proof. unfold Slurp._ignore. intros Hr. result_err; plain_error. Qed.

Lemma slurp_start_plain method kw s e :
  Slurp.start method kw s = Err e → ¬ bookkeeping_error e.
Proof.
  unfold Slurp.start. intros Hr.
  repeat case_bool_decide; try (injection Hr as <-; plain_error);
    try (by eapply ignore_plain); try discriminate.
  - unfold Slurp.on_command_start in Hr. result_err; try plain_error.
    eapply mapM_plain; [|eassumption]. eauto with quiet.
  - unfold Slurp.on_optgroup_start in Hr. result_err; plain_error.
  - unfold Slurp.on_option_start in Hr. result_err; plain_error.
  - unfold Slurp.on_argument_start in Hr. result_err; plain_error.
  - unfold Slurp.on_optgroup_reference_start in Hr. result_err; plain_error.
Qed.

Lemma slurp_stop_plain method s e :
  Slurp.stop method s = Err e → ¬ bookkeeping_error e.
Proof.
  unfold Slurp.stop. intros Hr.
  repeat case_bool_decide; try (injection Hr as <-; plain_error);
    try (by eapply ignore_plain); try discriminate.
  - unfold Slurp.on_command_end in Hr. result_err; plain_error.
  - unfold Slurp.on_optgroup_end in Hr. result_err; plain_error.
  - unfold Slurp.on_option_end in Hr. result_err; plain_error.
  - unfold Slurp.on_argument_end in Hr. result_err; plain_error.
  - unfold Slurp.on_optgroup_reference_end in Hr. result_err; plain_error.
Qed.

Lemma slurp_quiet : handlers_quiet CommandSlurpingReader.
Proof.
  intros e Hbad. split; [|split].
  - intros method kw s Hr. by apply slurp_start_plain in Hr.
  - intros method s Hr. by apply slurp_stop_plain in Hr.
  - intros cdata s Hr. discriminate.
Qed.

Lemma pyfmt_plain fmt args e :
  pyfmt fmt args = Err e → ¬ bookkeeping_error e.
Proof. intros [->|[->| ->]]%pyfmt_error; plain_error. Qed.

Lemma upper_plain s e : upper s = Err e → ¬ bookkeeping_error e.
Proof. intros ->%upper_error. plain_error. Qed.

Lemma od_get_plain {V} k (d : list (string * V)) e :
  od_get k d = Err e → ¬ bookkeeping_error e.
Proof.
  induction d as [|[k' v] d IH]; cbn; [intros [= <-]; plain_error|].
  case_bool_decide; [discriminate | exact IH].
Qed.

Lemma section_title_plain og e :
  Pod.section_title_for_optgroup og = Err e → ¬ bookkeeping_error e.
Proof. unfold Pod.section_title_for_optgroup. apply upper_plain. Qed.

Lemma fmt_nlo_plain r x e :
  Pod.fmt_nlo r x = Err e → ¬ bookkeeping_error e.
Proof.
  unfold Pod.fmt_nlo. intros Hr. result_err. by eapply section_title_plain.
Qed.

#[local] Hint Resolve pyfmt_plain od_get_plain upper_plain
  section_title_plain fmt_nlo_plain : quiet.

Lemma pod_command_plain fmt args r e :
  Pod.command fmt args r = Err e → ¬ bookkeeping_error e.
Proof. unfold Pod.command. intros Hr. result_err. plain_error. Qed.

#[local] Hint Resolve pod_command_plain : quiet.

Lemma head1_plain title args r e :
  Pod.head1 title args r = Err e → ¬ bookkeeping_error e.
Proof.
  unfold Pod.head1, Pod.start_section_buffer, BufferingWriter.ob_start.
  intros Hr. result_err; plain_error.
Qed.

Lemma write_command_synopsis_plain cmd verbose r e :
  Pod.write_command_synopsis cmd verbose r = Err e → ¬ bookkeeping_error e.
Proof.
  unfold Pod.write_command_synopsis. destruct (foldl _ _ _).
  apply pod_command_plain.
Qed.

Lemma pod_for_each_plain {A} (l : list A) body r e :
  (∀ x r e, body x r = Err e → ¬ bookkeeping_error e) →
  Pod.for_each l body r = Err e → ¬ bookkeeping_error e.
Proof.
  intros Hbody. revert r. induction l as [|x l IH]; intros r; cbn;
    [discriminate|].
  intros Hr. result_err; eauto.
Qed.

#[local] Hint Resolve head1_plain write_command_synopsis_plain : quiet.

Lemma split_on_nonempty sep s : split_on sep s ≠ [].
Proof.
  destruct s as [|c r]; cbn; [done|].
  destruct (chr_eqb c sep); [done|]. by destruct (split_on sep r).
Qed.

Lemma pod_start_plain method kw r e :
  Pod.start method kw r = Err e → ¬ bookkeeping_error e.
Proof.
  unfold Pod.start. intros Hr.
  repeat case_bool_decide; try (injection Hr as <-; plain_error).
  all: apply bind_Err in Hr as [Hr|(? & _ & Hr)]; [plain_error|].
  all: try (injection Hr as <-; plain_error); try discriminate.
  all: cbv beta zeta delta
         [Pod.on_usage_start Pod.on_section_start Pod.on_section_end
          Pod.on_synopsis_start Pod.on_optgroup_start Pod.on_option_start
          Pod.on_vspace_start Pod.on_command_start Pod.on_argument_start
          Pod.on_optgroup_reference_start Pod.on_dt_start Pod.on_pre_start]
         in Hr;
    result_err; try plain_error.
  - eapply pod_for_each_plain; [|eassumption].
    intros cmd r0 e0 Hx. by apply write_command_synopsis_plain in Hx.
  - match goal with
    | H : _ <$> split_on _ _ = [] |- _ =>
        apply fmap_nil_inv in H; by apply split_on_nonempty in H
    end.
Qed.

Lemma pod_stop_plain method r e :
  Pod.stop method r = Err e → ¬ bookkeeping_error e.
Proof.
  unfold Pod.stop. intros Hr.
  repeat case_bool_decide; try (injection Hr as <-; plain_error);
    try discriminate; try plain_error.
  unfold Pod.on_command_end in Hr. result_err; try plain_error.
  all: eapply mapM_plain; [|eassumption]; eauto with quiet.
Qed.

Lemma pod_quiet : handlers_quiet Pod.t.
Proof.
  intros e Hbad. split; [|split].
  - intros method kw s Hr. by apply pod_start_plain in Hr.
  - intros method s Hr. by apply pod_stop_plain in Hr.
  - intros cdata s Hr. discriminate.
Qed.



(** ** What ingest guarantees *)

Section SlurpAll.
Variable Pog : OptGroup.t → Prop.
Variable Pcmd : Command.t → Prop.
Variable Popt : Option.t → Prop.
Variable Parg : Argument.t → Prop.
Hypothesis Hog_init : ∀ name forward export human og,
  OptGroup.init name forward export human = Ok og → Pog og.
Hypothesis Hprivate : ∀ og, Pog og → Pog (OptGroup.set_private og).
Hypothesis Hopt_init : ∀ short long arg type accumulate o,
  Option.init short long arg type accumulate = Ok o → Popt o.
Hypothesis Harg_init : ∀ name type repeat optional a,
  Argument.init name type repeat optional = Ok a → Parg a.
Hypothesis Hcmd_init : ∀ names name0 altnames export c,
  mapM check_id_dash names = Ok (name0 :: altnames) →
  Command.init name0 (replace_char "-" "_" name0) altnames export = Ok c →
  Pcmd c.
Hypothesis Hadd_option : ∀ og o og',
  Pog og → Popt o → OptGroup.add_option og o = Ok og' → Pog og'.
Hypothesis Hadd_optgroup : ∀ c og c',
  Pcmd c → Pog og → Command.add_optgroup c og = Ok c' → Pcmd c'.
Hypothesis Hadd_argument : ∀ c a c',
  Pcmd c → Parg a → Command.add_argument c a = Ok c' → Pcmd c'.

Ltac slurp_all_goal :=
  unfold slurp_all; cbn;
  repeat match goal with
    | |- _ ∧ _ => split
    | |- Forall _ (_ ++ [_]) => apply Forall_app; split
    | |- Forall _ [_] => apply Forall_singleton
    | |- ∀ _, Some _ = Some _ → _ => intros ? [= <-]
    | |- ∀ _, None = Some _ → _ => intros ? [=]
    end;
  try (intros; congruence);
  eauto.

Lemma slurp_all_init : slurp_all Pog Pcmd Popt Parg Slurp.init.
Proof. slurp_all_goal. Qed.

Lemma slurp_all_start method kw s s' :
  slurp_all Pog Pcmd Popt Parg s → Slurp.start method kw s = Ok s' →
  slurp_all Pog Pcmd Popt Parg s'.
Proof.
  intros (Hogs & Hcmds & Hcur & Href & Hcmd & Hopt & Harg) Hr.
  unfold Slurp.start in Hr.
  repeat case_bool_decide; try discriminate.
  - unfold Slurp.on_command_start in Hr. result_inv; subst; slurp_all_goal.
  - unfold Slurp.on_optgroup_start in Hr. result_inv; subst; slurp_all_goal.
    destruct (Slurp.has_command _); slurp_all_goal.
  - unfold Slurp.on_option_start in Hr. result_inv; subst; slurp_all_goal.
  - unfold Slurp.on_argument_start in Hr. result_inv; subst; slurp_all_goal.
  - unfold Slurp.on_optgroup_reference_start in Hr. result_inv; subst;
      slurp_all_goal.
    match goal with
    | H : find _ _ = Some _ |- _ => apply find_some in H as [Hin _]
    end.
    rewrite Forall_forall in Hogs. apply Hogs. by apply list_elem_of_In.
  - apply ignore_Ok in Hr as ->. slurp_all_goal.
Qed.

Lemma slurp_all_stop method s s' :
  slurp_all Pog Pcmd Popt Parg s → Slurp.stop method s = Ok s' →
  slurp_all Pog Pcmd Popt Parg s'.
Proof.
  intros (Hogs & Hcmds & Hcur & Href & Hcmd & Hopt & Harg) Hr.
  unfold Slurp.stop in Hr.
  repeat case_bool_decide; try discriminate.
  - unfold Slurp.on_command_end, Slurp.need in Hr. result_inv; subst;
      slurp_all_goal.
  - unfold Slurp.on_optgroup_end, Slurp.need in Hr. cbn in Hr.
    result_inv; subst; slurp_all_goal.
  - unfold Slurp.on_option_end, Slurp.need in Hr. cbn in Hr.
    result_inv; subst; slurp_all_goal.
  - unfold Slurp.on_argument_end, Slurp.need in Hr. cbn in Hr.
    result_inv; subst; slurp_all_goal.
  - unfold Slurp.on_optgroup_reference_end, Slurp.need in Hr. cbn in Hr.
    result_inv; subst; slurp_all_goal.
  - apply ignore_Ok in Hr as ->. slurp_all_goal.
Qed.

Lemma ingest_all defs file r :
  Slurp.ingest defs file = Ok r → slurp_all Pog Pcmd Popt Parg (self r).
Proof.
  unfold Slurp.ingest. intros Hr.
  eapply (parse_invariant (slurp_all Pog Pcmd Popt Parg)) in Hr; [done|..].
  - intros. by eapply slurp_all_start.
  - intros. by eapply slurp_all_stop.
  - intros ??? Hs [= <-]. exact Hs.
  - apply slurp_all_init.
Qed.
End SlurpAll.

Lemma mapM_check_id_dash (l l' : list string) :
  mapM check_id_dash l = Ok l' →
  l' = l ∧ Forall (λ n, ID_DASH n = true) l.
Proof.
  revert l'. induction l as [|x l IH]; intros l'; cbn.
  - intros [= <-]. split; [done | apply Forall_nil_2].
  - intros Hr. result_inv. subst.
    match goal with
    | H : check_id_dash _ = Ok _ |- _ => apply check_id_dash_Ok in H as [-> ?]
    end.
    match goal with
    | H : mapM _ _ = Ok _ |- _ => apply IH in H as [-> ?]
    end.
    injection Hr as <-. split; [done | by apply Forall_cons].
Qed.

Lemma OptGroup_init_named name forward export human og :
  OptGroup.init name forward export human = Ok og → optgroup_named og.
Proof.
  unfold OptGroup.init. intros Hr. result_inv. subst og.
  repeat match goal with
         | H : check_id _ = Ok _ |- _ => apply check_id_Ok in H as [-> ?]
         end.
  unfold optgroup_named. cbn. split; [done|]. split; [done|].
  split; [apply Forall_nil_2 | done].
Qed.

Lemma set_private_named og :
  optgroup_named og → optgroup_named (OptGroup.set_private og).
Proof. done. Qed.

Lemma Option_init_named short long arg type accumulate o :
  Option.init short long arg type accumulate = Ok o → option_named o.
Proof.
  unfold Option.init. intros Hr.
  apply bind_Ok in Hr as (short' & _ & Hr).
  apply bind_Ok in Hr as (? & _ & Hr).
  apply bind_Ok in Hr as (long' & [-> Hlong]%check_id_dash_Ok & Hr).
  apply bind_Ok in Hr as (symbol' & [-> Hsym]%check_id_Ok & Hr).
  apply bind_Ok in Hr as (accumulate' & Hacc & Hr).
  injection Hr as <-. unfold option_named. cbn.
  split; [done|]. split; [done|]. split; [done|].
  intros a ->. destruct accumulate as [a0|]; [|discriminate].
  destruct (check_id a0) as [a1|] eqn:Ha; [|discriminate].
  injection Hacc as ->. by apply check_id_Ok in Ha as [-> ?].
Qed.

Lemma Argument_init_named name type repeat optional a :
  Argument.init name type repeat optional = Ok a → argument_named a.
Proof.
  unfold Argument.init. intros Hr.
  apply bind_Ok in Hr as (name' & [-> Hname]%check_id_dash_Ok & Hr).
  apply bind_Ok in Hr as (symbol' & [-> Hsym]%check_id_Ok & Hr).
  apply bind_Ok in Hr as (? & _ & Hr).
  apply bind_Ok in Hr as (? & _ & Hr).
  injection Hr as <-. by unfold argument_named.
Qed.

Lemma Command_init_named names name0 altnames export c :
  mapM check_id_dash names = Ok (name0 :: altnames) →
  Command.init name0 (replace_char "-" "_" name0) altnames export = Ok c →
  command_named c.
Proof.
  intros _. unfold Command.init. intros Hr.
  apply bind_Ok in Hr as (name' & [-> Hname]%check_id_dash_Ok & Hr).
  apply bind_Ok in Hr as (symbol' & [-> Hsym]%check_id_Ok & Hr).
  apply bind_Ok in Hr as (altnames' & [-> Halt]%mapM_check_id_dash & Hr).
  apply bind_Ok in Hr as (? & _ & Hr).
  injection Hr as <-. unfold command_named. cbn.
  split; [done|]. split; [done|]. split; [done|]. split; [done|].
  split; apply Forall_nil_2.
Qed.

Lemma add_option_named og o og' :
  optgroup_named og → option_named o →
  OptGroup.add_option og o = Ok og' → optgroup_named og'.
Proof.
  intros (Hname & Hsym & Hopts & Hacc) Ho. unfold OptGroup.add_option.
  case_bool_decide; [discriminate|]. intros [= <-].
  unfold optgroup_named. cbn. split; [done|]. split; [done|]. split.
  - apply Forall_app. split; [done | by apply Forall_singleton].
  - rewrite omap_app, list_to_set_app_L, <- Hacc. cbn.
    destruct (Option.accumulate o); cbn; by rewrite union_empty_r_L.
Qed.

Lemma add_optgroup_named c og c' :
  command_named c → optgroup_named og →
  Command.add_optgroup c og = Ok c' → command_named c'.
Proof.
  intros (Hname & Hsym & Hid & Halt & Hogs & Hargs) Hog.
  unfold Command.add_optgroup.
  destruct (Command.conflicting_optgroup c og); [discriminate|].
  intros [= <-]. unfold command_named. cbn.
  repeat (split; [done|]). split; [|done].
  apply Forall_app. split; [done | by apply Forall_singleton].
Qed.

Lemma add_argument_named c a c' :
  command_named c → argument_named a →
  Command.add_argument c a = Ok c' → command_named c'.
Proof.
  intros (Hname & Hsym & Hid & Halt & Hogs & Hargs) Ha.
  unfold Command.add_argument. intros Hr.
  result_inv; subst c'; unfold command_named; cbn;
    repeat (split; [done|]);
    (apply Forall_app; split; [done | by apply Forall_singleton]).
Qed.

Lemma ingest_named defs file r :
  Slurp.ingest defs file = Ok r →
  slurp_all optgroup_named command_named option_named argument_named (self r).
Proof.
  apply ingest_all;
    eauto using OptGroup_init_named, set_private_named, Option_init_named,
      Argument_init_named, Command_init_named, add_option_named,
      add_optgroup_named, add_argument_named.
Qed.

(** X6.  After a successful ingest every name that reaches the emitters
    has been checked: the name of a command and its alternative names
    match the dashed-identifier pattern, the names of groups and
    accumulations the identifier pattern, the long names of options and
    the names of arguments the dashed one; every symbol is its name with
    the dashes replaced by underscores and is an identifier; and the
    accumulations of a group are exactly those its options name. *)
Theorem ingest_names_are_identifiers (defs : gset string)
  (file : list event) (r : UsageFileReader CommandSlurpingReader) :
  Slurp.ingest defs file = Ok r →
  Forall optgroup_named (optgroups (self r))
  ∧ Forall command_named (commands (self r)).
Proof.
  intros Hr. destruct (ingest_named _ _ _ Hr) as (Hogs & Hcmds & _).
  by split.
Qed.

Lemma ingest_names_are_identifiers_witness :
  Forall optgroup_named (optgroups (self greet_ir))
  ∧ Forall command_named (commands (self greet_ir)).
Proof.
  apply (ingest_names_are_identifiers ∅ greet_file greet_ir).
  vm_compute. reflexivity.
Defined.

(** ** Command names *)

Lemma commands_apart_snoc (l : list Command.t) (c : Command.t) :
  commands_apart l →
  (∀ c', c' ∈ l → command_names c' ## command_names c) →
  commands_apart (l ++ [c]).
Proof.
  induction l as [|x l IH]; cbn; intros Hl Hc.
  - split; [|done]. intros c' Hc'. by apply elem_of_nil in Hc'.
  - destruct Hl as [Hx Hl]. split.
    + intros c' [Hc'| ->%list_elem_of_singleton]%elem_of_app.
      * by apply Hx.
      * apply Hc. by left.
    + apply IH; [done|]. intros c' Hc'. apply Hc. by right.
Qed.

Lemma commands_apart_lookup (l : list Command.t) (i j : nat) ci cj :
  commands_apart l → (i < j)%nat →
  l !! i = Some ci → l !! j = Some cj →
  command_names ci ## command_names cj.
Proof.
  revert i j. induction l as [|x l IH]; intros i j Hl Hij Hi Hj;
    [done|].
  destruct Hl as [Hx Hl]. destruct i as [|i], j as [|j]; try lia.
  - cbn in Hi, Hj. injection Hi as ->. apply Hx.
    by eapply list_elem_of_lookup_2.
  - cbn in Hi, Hj. eapply (IH i j); [done | lia | done | done].
Qed.

Lemma add_optgroup_names c og c' :
  Command.add_optgroup c og = Ok c' → command_names c' = command_names c.
Proof.
  unfold Command.add_optgroup.
  destruct (Command.conflicting_optgroup c og); [discriminate|].
  by intros [= <-].
Qed.

Lemma add_argument_names c a c' :
  Command.add_argument c a = Ok c' → command_names c' = command_names c.
Proof.
  unfold Command.add_argument. intros Hr. by result_inv; subst c'.
Qed.

Lemma Command_init_names name symbol altnames export c :
  Command.init name symbol altnames export = Ok c →
  command_names c = list_to_set (name :: altnames) ∪ {[symbol]}.
Proof.
  unfold Command.init. intros Hr.
  apply bind_Ok in Hr as (name' & [-> _]%check_id_dash_Ok & Hr).
  apply bind_Ok in Hr as (symbol' & [-> _]%check_id_Ok & Hr).
  apply bind_Ok in Hr as (altnames' & [-> _]%mapM_check_id_dash & Hr).
  apply bind_Ok in Hr as (? & _ & Hr).
  by injection Hr as <-.
Qed.

Lemma names_apart_init : names_apart Slurp.init.
Proof.
  unfold names_apart. cbn. split; [done|]. split.
  - intros c Hc. by apply elem_of_nil in Hc.
  - intros c [=].
Qed.

(** A handler that leaves the commands and the known names alone, and
    the names of the open command with them, keeps the invariant. *)
Lemma names_apart_same s s' :
  names_apart s →
  commands s' = commands s → known_commands s' = known_commands s →
  (∀ c', cur_command (current s') = Some c' →
     ∃ c, cur_command (current s) = Some c
          ∧ command_names c' = command_names c) →
  names_apart s'.
Proof.
  intros (Hapart & Hknown & Hcur) Hcmds Hk Hsame. unfold names_apart.
  rewrite Hcmds, Hk. split; [done|]. split; [done|].
  intros c' (c & Hc & ->)%Hsame. by apply Hcur.
Qed.

Lemma names_apart_start method kw s s' :
  names_apart s → Slurp.start method kw s = Ok s' → names_apart s'.
Proof.
  intros Hs Hr. unfold Slurp.start in Hr.
  repeat case_bool_decide; try discriminate.
  - destruct Hs as (Hapart & Hknown & Hcur).
    unfold Slurp.on_command_start in Hr. result_inv. subst s'.
    match goal with
    | H : Command.init _ _ _ _ = Ok _ |- _ =>
        apply Command_init_names in H; rename H into Hnames
    end.
    match goal with
    | H : bool_decide (_ ≠ ∅) = false |- _ =>
        apply bool_decide_eq_false in H; rename H into Hfresh
    end.
    unfold names_apart. cbn. split; [done|]. split.
    + intros c Hc. apply Hknown in Hc.
      etrans; [exact Hc | apply union_subseteq_l].
    + intros c [= <-]. rewrite Hnames. split; [apply union_subseteq_r|].
      intros c' Hc'. apply Hknown in Hc'.
      match goal with
      | H : mapM _ _ = Ok _ |- _ => clear H
      end.
      intros n Hn Hn'. apply Hfresh. intros Hempty.
      assert (Hin : n ∈ known_commands s
                        ∩ (list_to_set (_ :: _) ∪ {[_]} : gset string))
        by (apply elem_of_intersection; split; [by apply Hc' | exact Hn']).
      rewrite Hempty in Hin. by apply not_elem_of_empty in Hin.
  - unfold Slurp.on_optgroup_start in Hr. result_inv; subst s';
      (eapply names_apart_same; [exact Hs | done | done |]); cbn; eauto.
  - unfold Slurp.on_option_start in Hr. result_inv; subst s';
      (eapply names_apart_same; [exact Hs | done | done |]); cbn; eauto.
  - unfold Slurp.on_argument_start in Hr. result_inv; subst s';
      (eapply names_apart_same; [exact Hs | done | done |]); cbn; eauto.
  - unfold Slurp.on_optgroup_reference_start in Hr. result_inv; subst s';
      (eapply names_apart_same; [exact Hs | done | done |]); cbn; eauto.
  - by apply ignore_Ok in Hr as ->.
Qed.

Ltac same_names :=
  (eapply names_apart_same; [eassumption | done | done |]); cbn;
  first [ intros ? [= <-];
          by eauto using add_optgroup_names, add_argument_names
        | by intros ? [=]
        | by eauto ].

Lemma names_apart_stop method s s' :
  names_apart s → Slurp.stop method s = Ok s' → names_apart s'.
Proof.
  intros Hs Hr. unfold Slurp.stop in Hr.
  repeat case_bool_decide; try discriminate.
  - destruct Hs as (Hapart & Hknown & Hcur).
    unfold Slurp.on_command_end, Slurp.need in Hr. result_inv. subst.
    destruct (Hcur _ eq_refl) as [Hsub Hdis].
    unfold names_apart. cbn. split; [by apply commands_apart_snoc|].
    split; [|intros ? [=]].
    intros c' [Hc'| ->%list_elem_of_singleton]%elem_of_app;
      [by apply Hknown | done].
  - unfold Slurp.on_optgroup_end, Slurp.need in Hr. cbn in Hr.
    result_inv; subst; same_names.
  - unfold Slurp.on_option_end, Slurp.need in Hr. cbn in Hr.
    result_inv; subst; same_names.
  - unfold Slurp.on_argument_end, Slurp.need in Hr. cbn in Hr.
    result_inv; subst; same_names.
  - unfold Slurp.on_optgroup_reference_end, Slurp.need in Hr. cbn in Hr.
    result_inv; subst; same_names.
  - by apply ignore_Ok in Hr as ->.
Qed.

Lemma ingest_names_apart defs file r :
  Slurp.ingest defs file = Ok r → names_apart (self r).
Proof.
  unfold Slurp.ingest. intros Hr.
  eapply (parse_invariant names_apart) in Hr; [done|..].
  - intros. by eapply names_apart_start.
  - intros. by eapply names_apart_stop.
  - intros ??? Hs [= <-]. exact Hs.
  - apply names_apart_init.
Qed.

(** X7.  After a successful ingest two different commands share no name:
    the name, the alternative names and the symbol of one are all
    different from those of the other ([on_command_start] dies with
    "duplicate command names" otherwise).  The names of one command are
    checked as a set, so a name repeated inside one [names] attribute is
    accepted. *)
Theorem command_names_disjoint (defs : gset string) (file : list event)
  (r : UsageFileReader CommandSlurpingReader) (i j : nat)
  (ci cj : Command.t) :
  Slurp.ingest defs file = Ok r →
  i ≠ j →
  commands (self r) !! i = Some ci →
  commands (self r) !! j = Some cj →
  command_names ci ## command_names cj.
Proof.
  intros Hr Hij Hi Hj.
  destruct (ingest_names_apart _ _ _ Hr) as (Hapart & _).
  destruct (decide (i < j)%nat).
  - by eapply commands_apart_lookup.
  - symmetry. eapply (commands_apart_lookup _ j i); [done | lia | done..].
Qed.

Lemma command_names_disjoint_witness :
  ∃ ci cj, commands (self pair_ir) = [ci; cj]
           ∧ Command.allnames ci = ["push"; "p"; "push"]
           ∧ command_names ci ## command_names cj.
Proof.
  eexists _, _. split; [vm_compute; reflexivity|].
  split; [reflexivity|].
  apply (command_names_disjoint ∅ pair_file pair_ir 0 1).
  - vm_compute. reflexivity.
  - lia.
  - reflexivity.
  - reflexivity.
Defined.

(** ** Attached groups *)

Lemma groups_listed_init : groups_listed Slurp.init.
Proof.
  unfold groups_listed. cbn. split; [|split].
  - intros c Hc. by apply elem_of_nil in Hc.
  - intros c [=].
  - intros og [=].
Qed.

Lemma add_optgroup_optgroups c og c' :
  Command.add_optgroup c og = Ok c' →
  Command.optgroups c' = Command.optgroups c ++ [og].
Proof.
  unfold Command.add_optgroup.
  destruct (Command.conflicting_optgroup c og); [discriminate|].
  by intros [= <-].
Qed.

Lemma add_argument_optgroups c a c' :
  Command.add_argument c a = Ok c' →
  Command.optgroups c' = Command.optgroups c.
Proof.
  unfold Command.add_argument. intros Hr. by result_inv; subst c'.
Qed.

Lemma Command_init_optgroups name symbol altnames export c :
  Command.init name symbol altnames export = Ok c → Command.optgroups c = [].
Proof. unfold Command.init. intros Hr. result_inv. by subst c. Qed.

Ltac listed_goal :=
  unfold groups_listed; cbn;
  repeat match goal with
    | |- _ ∧ _ => split
    | |- ∀ _, Some _ = Some _ → _ => intros ? [= <-]
    | |- ∀ _, None = Some _ → _ => intros ? [=]
    end;
  try done; eauto.

Lemma groups_listed_start method kw s s' :
  groups_listed s → Slurp.start method kw s = Ok s' → groups_listed s'.
Proof.
  intros (Hcmds & Hcur & Href) Hr. unfold Slurp.start in Hr.
  repeat case_bool_decide; try discriminate.
  - unfold Slurp.on_command_start in Hr. result_inv; subst; listed_goal.
    match goal with
    | H : Command.init _ _ _ _ = Ok _ |- _ =>
        apply Command_init_optgroups in H as ->
    end.
    intros og Hog. by apply elem_of_nil in Hog.
  - unfold Slurp.on_optgroup_start in Hr. result_inv; subst; listed_goal.
  - unfold Slurp.on_option_start in Hr. result_inv; subst; listed_goal.
  - unfold Slurp.on_argument_start in Hr. result_inv; subst; listed_goal.
  - unfold Slurp.on_optgroup_reference_start in Hr. result_inv; subst;
      listed_goal.
    match goal with
    | H : find _ _ = Some _ |- _ => apply find_some in H as [Hin _]
    end.
    by apply list_elem_of_In.
  - apply ignore_Ok in Hr as ->. listed_goal.
Qed.

Lemma groups_listed_stop method s s' :
  groups_listed s → Slurp.stop method s = Ok s' → groups_listed s'.
Proof.
  intros (Hcmds & Hcur & Href) Hr. unfold Slurp.stop in Hr.
  repeat case_bool_decide; try discriminate.
  - unfold Slurp.on_command_end, Slurp.need in Hr. result_inv; subst;
      listed_goal.
    intros c [Hc| ->%list_elem_of_singleton]%elem_of_app; eauto.
  - unfold Slurp.on_optgroup_end, Slurp.need in Hr. cbn in Hr.
    result_inv; subst; listed_goal.
    + intros c Hc og Hog. apply elem_of_app. left. by eapply Hcmds.
    + match goal with
      | H : Command.add_optgroup _ _ = Ok _ |- _ =>
          apply add_optgroup_optgroups in H as ->
      end.
      intros og [Hog| ->%list_elem_of_singleton]%elem_of_app;
        apply elem_of_app; [left; by eapply Hcur | right; by left].
    + intros og Hog. apply elem_of_app. left. by apply Href.
    + intros c Hc og Hog. apply elem_of_app. left. by eapply Hcmds.
    + intros c Hc. rewrite Hc in *. discriminate.
    + intros og Hog. apply elem_of_app. left. by apply Href.
  - unfold Slurp.on_option_end, Slurp.need in Hr. cbn in Hr.
    result_inv; subst; listed_goal.
  - unfold Slurp.on_argument_end, Slurp.need in Hr. cbn in Hr.
    result_inv; subst; listed_goal.
    match goal with
    | H : Command.add_argument _ _ = Ok _ |- _ =>
        apply add_argument_optgroups in H as ->
    end.
    eauto.
  - unfold Slurp.on_optgroup_reference_end, Slurp.need in Hr. cbn in Hr.
    result_inv; subst; listed_goal.
    match goal with
    | H : Command.add_optgroup _ _ = Ok _ |- _ =>
        apply add_optgroup_optgroups in H as ->
    end.
    intros og [Hog| ->%list_elem_of_singleton]%elem_of_app; eauto.
    by eapply Hcur.
  - apply ignore_Ok in Hr as ->. listed_goal.
Qed.

(** X8.  After a successful ingest every group attached to a command,
    whether it was declared inside the command or reached through an
    [optgroup-reference], is one of the groups the reader lists: the
    modes that walk [optgroups] to declare or define what a group needs
    meet every group that a command uses. *)
Theorem attached_groups_are_listed (defs : gset string) (file : list event)
  (r : UsageFileReader CommandSlurpingReader) (c : Command.t)
  (og : OptGroup.t) :
  Slurp.ingest defs file = Ok r →
  c ∈ commands (self r) →
  og ∈ Command.optgroups c →
  og ∈ optgroups (self r).
Proof.
  unfold Slurp.ingest. intros Hr Hc Hog.
  eapply (parse_invariant groups_listed) in Hr.
  - destruct Hr as (Hcmds & _). by eapply Hcmds.
  - intros. by eapply groups_listed_start.
  - intros. by eapply groups_listed_stop.
  - intros ??? Hs [= <-]. exact Hs.
  - apply groups_listed_init.
Qed.

Lemma attached_groups_are_listed_witness :
  ∃ c og, commands (self greet_ir) = [c]
          ∧ Command.optgroups c = [og]
          ∧ og ∈ optgroups (self greet_ir).
Proof.
  eexists _, _. split; [vm_compute; reflexivity|].
  split; [reflexivity|].
  eapply (attached_groups_are_listed ∅ greet_file greet_ir).
  - vm_compute. reflexivity.
  - vm_compute. apply list_elem_of_here.
  - vm_compute. apply list_elem_of_here.
Defined.

(** ** Markup and ingest *)

Lemma ignore_without_self kw s :
  "self" ∉ dom kw → Slurp._ignore kw s = Ok s.
Proof.
  intros Hself. unfold Slurp._ignore, bind_kwargs.
  by rewrite bool_decide_eq_false_2.
Qed.

Lemma ignore_with_self kw s :
  "self" ∈ dom kw → Slurp._ignore kw s = Err TypeError.
Proof.
  intros Hself. unfold Slurp._ignore, bind_kwargs.
  by rewrite (bool_decide_eq_true_2 _ Hself).
Qed.

Lemma slurp_start_markup name kw s :
  name ∈ MARKUP_TAGS →
  Slurp.start (on_start_function name) kw s = Slurp._ignore kw s.
Proof.
  unfold MARKUP_TAGS. intros Hname.
  repeat (apply elem_of_cons in Hname as [->|Hname]);
    [..|by apply elem_of_nil in Hname].
  all: unfold Slurp.start; decide_methods; reflexivity.
Qed.

Lemma slurp_stop_markup name s :
  name ∈ MARKUP_TAGS → Slurp.stop (on_stop_function name) s = Ok s.
Proof.
  unfold MARKUP_TAGS. intros Hname.
  repeat (apply elem_of_cons in Hname as [->|Hname]);
    [..|by apply elem_of_nil in Hname].
  all: unfold Slurp.stop; decide_methods; by apply ignore_without_self.
Qed.

(** A markup event changes nothing but the depth. *)
Lemma handle_markup (ev : event) (r : UsageFileReader CommandSlurpingReader) :
  is_markup ev = true →
  ∃ r', handle ev r = Ok r' ∧ self r' = self r ∧ ifdefs r' = ifdefs r.
Proof.
  destruct ev as [name attrs|name|cdata|target data]; cbn [is_markup];
    intros Hm; try discriminate; cbn [handle].
  - apply andb_prop in Hm as [Hm Hself].
    apply bool_decide_eq_true in Hm.
    apply negb_true_iff, bool_decide_eq_false in Hself.
    unfold StartElementHandler. destruct (negb (enabled_p r)); [by eauto|].
    cbn [start_handler Slurp.handlers].
    rewrite (slurp_start_markup name _ _ Hm), ignore_without_self by done.
    cbn. by eauto.
  - apply bool_decide_eq_true in Hm.
    unfold EndElementHandler. destruct (negb (enabled_p r)); [by eauto|].
    cbn [end_handler Slurp.handlers].
    rewrite (slurp_stop_markup name _ Hm). cbn. by eauto.
  - unfold CharacterDataHandler. destruct (negb (enabled_p r)); [by eauto|].
    cbn. by eauto.
Qed.

(** An event that is not a processing instruction is handled alike by
    two readers that agree on the handler state and on the conditionals. *)
Lemma handle_agree (ev : event)
  (r1 r2 : UsageFileReader CommandSlurpingReader) :
  is_pi ev = false → self r1 = self r2 → ifdefs r1 = ifdefs r2 →
  match handle ev r1, handle ev r2 with
  | Ok r1', Ok r2' => self r1' = self r2' ∧ ifdefs r1' = ifdefs r2'
  | Err e1, Err e2 => e1 = e2
  | _, _ => False
  end.
Proof.
  intros Hev Hself Hif.
  destruct ev as [name attrs|name|cdata|target data]; try discriminate;
    cbn [handle];
    unfold StartElementHandler, EndElementHandler, CharacterDataHandler,
      enabled_p;
    rewrite Hif, Hself; destruct (negb (forallb fst (ifdefs r2)));
    try done.
  - destruct (start_handler _ _ _); by cbn.
  - destruct (end_handler _ _); by cbn.
Qed.

Lemma parse_without_markup (file : list event) :
  forallb (λ ev, negb (is_pi ev)) file = true →
  ∀ r1 r2 : UsageFileReader CommandSlurpingReader,
    self r1 = self r2 → ifdefs r1 = ifdefs r2 →
    self <$> parse file r1
    = self <$> parse (filter (λ ev, is_markup ev = false) file) r2.
Proof.
  induction file as [|ev file IH]; intros Hpi r1 r2 Hself Hif.
  - cbn. by rewrite Hself.
  - cbn [forallb] in Hpi. apply andb_prop in Hpi as [Hev Hpi].
    apply negb_true_iff in Hev. cbn [parse].
    destruct (is_markup ev) eqn:Hm.
    + rewrite filter_cons_False by (rewrite Hm; discriminate).
      destruct (handle_markup ev r1 Hm) as (r1' & -> & Hs' & Hi').
      cbn. apply IH; [done | congruence | congruence].
    + rewrite filter_cons_True by done. cbn [parse].
      pose proof (handle_agree ev r1 r2 Hev Hself Hif) as Hag.
      destruct (handle ev r1) as [r1'|e1], (handle ev r2) as [r2'|e2];
        try done.
      * destruct Hag as [Hs' Hi']. cbn. by apply IH.
      * cbn. by rewrite Hag.
Qed.

(** X9.  The ingest does not depend on the markup of the file: in a file
    without processing instructions, dropping all character data and
    every element of [MARKUP_TAGS] whose start tag has no attribute
    named [self] changes neither the commands and groups that the reader
    builds nor the exception it ends with.  A start tag of such an
    element with an attribute named [self] is not ignored: the call of
    its handler fails with [TypeError], since the reader itself is bound
    to that parameter. *)
Theorem ingest_ignores_markup (defs : gset string) (file : list event) :
  forallb (λ ev, negb (is_pi ev)) file = true →
  self <$> Slurp.ingest defs file
  = self <$> Slurp.ingest defs (filter (λ ev, is_markup ev = false) file)
  ∧ ∀ name attributes rest,
      name ∈ MARKUP_TAGS → "self" ∈ dom (fixed_attr attributes) →
      Slurp.ingest defs (StartElement name attributes :: rest)
      = Err TypeError.
Proof.
  intros Hpi. split.
  - unfold Slurp.ingest. by apply parse_without_markup.
  - intros name attributes rest Hname Hself. unfold Slurp.ingest.
    cbn [parse handle]. unfold StartElementHandler.
    cbn [enabled_p ifdefs reader_init forallb negb start_handler
         Slurp.handlers self].
    by rewrite (slurp_start_markup name _ _ Hname), ignore_with_self.
Qed.

Lemma ingest_ignores_markup_witness :
  (λ r, Command.name <$> commands (self r)) <$> Slurp.ingest ∅ markup_file
  = Ok ["run"]
  ∧ filter (λ ev, is_markup ev = false) markup_file
    = [StartElement "command" [("names", "run")]; EndElement "command"]
  ∧ self <$> Slurp.ingest ∅ markup_file
    = self <$> Slurp.ingest ∅
                 [StartElement "command" [("names", "run")];
                  EndElement "command"]
  ∧ Slurp.ingest ∅ self_file = Err TypeError.
Proof.
  split; [vm_compute; reflexivity|].
  assert (Hf : filter (λ ev, is_markup ev = false) markup_file
               = [StartElement "command" [("names", "run")];
                  EndElement "command"])
    by (vm_compute; reflexivity).
  split; [exact Hf|]. rewrite <- Hf.
  split; [by apply (ingest_ignores_markup ∅ markup_file)|].
  apply (ingest_ignores_markup ∅ markup_file); [reflexivity | |].
  - apply list_elem_of_here.
  - apply (bool_decide_eq_true_1
             ("self" ∈ dom (fixed_attr [("self", "x")]))).
    vm_compute. reflexivity.
Defined.

(** ** The assertions of the walker *)

Lemma keeps_buffer_refl r : keeps_buffer r r.
Proof. done. Qed.

Lemma keeps_buffer_trans r1 r2 r3 :
  keeps_buffer r1 r2 → keeps_buffer r2 r3 → keeps_buffer r1 r3.
Proof.
  intros [H1 H2] [H3 H4]. split; [by eapply keeps_trans|]. by rewrite H4.
Qed.

Lemma write_keeps_buffer text r : keeps_buffer r (Pod.write text r).
Proof.
  split; [done|]. unfold Pod.write, BufferingWriter.write. cbn.
  by destruct (BufferingWriter.output_buffer (Pod.out r)).
Qed.

Lemma flush_paragraph_keeps_buffer r :
  keeps_buffer r (Pod.flush_paragraph r).
Proof.
  unfold Pod.flush_paragraph.
  destruct (negb _ && negb _); [|done].
  destruct (0 <? _);
    repeat (eapply keeps_buffer_trans; [|apply write_keeps_buffer]); done.
Qed.

Lemma spool_keeps_buffer part r : keeps_buffer r (Pod.spool part r).
Proof. done. Qed.

Lemma on_cdata_keeps_buffer cdata r : keeps_buffer r (Pod.on_cdata cdata r).
Proof.
  unfold Pod.on_cdata. destruct (Pod.paragraph r); [|done].
  case_bool_decide; [done|]. by case_bool_decide.
Qed.

Lemma tracks_keeps r r' :
  buffer_tracks_section r → keeps_buffer r r' → buffer_tracks_section r'.
Proof.
  intros [Hbuf Hsc] [[Hsc' Hcur'] Hbuf']. split.
  - by rewrite Hcur', Hbuf'.
  - by rewrite Hsc'.
Qed.

Lemma pyfmt_no_assertion fmt args e :
  pyfmt fmt args = Err e → e ≠ AssertionError.
Proof. by intros [->|[->| ->]]%pyfmt_error. Qed.

Lemma upper_no_assertion s e : upper s = Err e → e ≠ AssertionError.
Proof. by intros ->%upper_error. Qed.

Lemma assertions_hold_bind {A} (m : result A) (f : A → result Pod.t) :
  (∀ e, m = Err e → e ≠ AssertionError) →
  (∀ x, m = Ok x → assertions_hold (f x)) →
  assertions_hold (m ≫= f).
Proof. intros Hm Hf. destruct m as [x|e]; cbn; eauto. Qed.

Lemma assertions_hold_then (m : result Pod.t) (f : Pod.t → result Pod.t) :
  assertions_hold m →
  (∀ r, buffer_tracks_section r → assertions_hold (f r)) →
  assertions_hold (m ≫= f).
Proof. intros Hm Hf. destruct m as [x|e]; cbn; eauto. Qed.

Lemma command_holds fmt args r :
  buffer_tracks_section r → assertions_hold (Pod.command fmt args r).
Proof.
  intros Hr. unfold Pod.command.
  apply assertions_hold_bind; [apply pyfmt_no_assertion|].
  intros text _. cbn. eapply tracks_keeps; [exact Hr|].
  eapply keeps_buffer_trans; [apply flush_paragraph_keeps_buffer|].
  eapply keeps_buffer_trans; [apply spool_keeps_buffer|].
  apply flush_paragraph_keeps_buffer.
Qed.

(** After [flush_section_buffer] no section is open and no buffer is. *)
Lemma flush_section_buffer_holds r :
  buffer_tracks_section r →
  buffer_tracks_section (Pod.flush_section_buffer r)
  ∧ Pod.current_section (Pod.flush_section_buffer r) = None.
Proof.
  intros Hr.
  pose proof (tracks_keeps _ _ Hr (flush_paragraph_keeps_buffer r)) as Hfl.
  pose proof Hfl as [Hbuf Hsc].
  unfold Pod.flush_section_buffer.
  destruct (Pod.current_section (Pod.flush_paragraph r)) as [name|] eqn:Hcur.
  - unfold BufferingWriter.ob_end_flush, BufferingWriter.ob_get_contents.
    destruct (BufferingWriter.output_buffer (Pod.out (Pod.flush_paragraph r)))
      as [contents|] eqn:Hout.
    + split; [|done]. split; [done|]. intros title. cbn.
      destruct (decide (name = title)) as [->|Hne].
      * by rewrite lookup_insert_eq.
      * rewrite lookup_insert_ne by done. apply Hsc.
    + destruct Hbuf as [_ Hb]. by specialize (Hb eq_refl).
  - by split.
Qed.

Lemma start_section_buffer_holds title r :
  buffer_tracks_section r → Pod.current_section r = None →
  assertions_hold (Pod.start_section_buffer title r).
Proof.
  intros [Hbuf Hsc] Hcur. unfold Pod.start_section_buffer.
  rewrite Hcur. cbn. unfold BufferingWriter.ob_start.
  rewrite (proj1 Hbuf Hcur). cbn. split; [|exact Hsc]. by cbn.
Qed.

Lemma head1_holds title args r :
  buffer_tracks_section r → assertions_hold (Pod.head1 title args r).
Proof.
  intros Hr. unfold Pod.head1.
  destruct (flush_section_buffer_holds r Hr) as [Hfl Hcur].
  apply assertions_hold_bind; [apply pyfmt_no_assertion|].
  intros expanded _.
  apply assertions_hold_bind; [apply upper_no_assertion|].
  intros heading _.
  pose proof (command_holds "=head1 %s" [heading] _ Hfl) as Hcmd.
  destruct (Pod.command _ _ _) as [r1|e] eqn:H1; [|exact Hcmd].
  cbn. apply start_section_buffer_holds; [exact Hcmd|].
  apply command_keeps in H1 as [_ ->]. exact Hcur.
Qed.

Lemma write_command_synopsis_holds cmd verbose r :
  buffer_tracks_section r →
  assertions_hold (Pod.write_command_synopsis cmd verbose r).
Proof.
  intros Hr. unfold Pod.write_command_synopsis.
  destruct (foldl _ _ _) as [s optdepth]. by apply command_holds.
Qed.

Lemma for_each_holds {A} (l : list A) body r :
  (∀ x r, buffer_tracks_section r → assertions_hold (body x r)) →
  buffer_tracks_section r → assertions_hold (Pod.for_each l body r).
Proof.
  intros Hbody. revert r. induction l as [|x l IH]; intros r Hr; [done|].
  cbn [Pod.for_each]. apply assertions_hold_then; eauto.
Qed.

Lemma od_get_no_assertion {V} k (d : list (string * V)) e :
  od_get k d = Err e → e ≠ AssertionError.
Proof.
  induction d as [|[k' v] d IH]; cbn; [by intros [= <-]|].
  by case_bool_decide.
Qed.

Lemma bind_kwargs_no_assertion required optional rest kw e :
  bind_kwargs required optional rest kw = Err e → e ≠ AssertionError.
Proof. unfold bind_kwargs. intros Hr. result_err; by subst. Qed.

Lemma kwarg_no_assertion kw k e : kwarg kw k = Err e → e ≠ AssertionError.
Proof. unfold kwarg. intros Hr. result_err; by subst. Qed.

Lemma section_title_no_assertion og e :
  Pod.section_title_for_optgroup og = Err e → e ≠ AssertionError.
Proof. unfold Pod.section_title_for_optgroup. apply upper_no_assertion. Qed.

Lemma fmt_nlo_no_assertion r x e :
  Pod.fmt_nlo r x = Err e → e ≠ AssertionError.
Proof.
  unfold Pod.fmt_nlo. intros Hr. result_err.
  by eapply section_title_no_assertion.
Qed.

Lemma mapM_no_assertion {A B} (f : A → result B) (l : list A) e :
  (∀ x e, f x = Err e → e ≠ AssertionError) →
  mapM f l = Err e → e ≠ AssertionError.
Proof.
  intros Hf. induction l as [|x l IH]; cbn; [discriminate|].
  intros Hr. result_err; eauto; discriminate.
Qed.

#[local] Hint Resolve pyfmt_no_assertion od_get_no_assertion
  bind_kwargs_no_assertion kwarg_no_assertion upper_no_assertion
  section_title_no_assertion fmt_nlo_no_assertion : quiet.
#[local] Hint Resolve command_holds head1_holds write_command_synopsis_holds
  : quiet.

(** Splits [assertions_hold] of a sequence of steps. *)
Ltac holds_step :=
  lazymatch goal with
  | |- assertions_hold (Ok _) => cbn [assertions_hold]
  | |- assertions_hold (Err _) => by cbn
  | |- assertions_hold (if ?b then _ else _) => destruct b eqn:?
  | |- assertions_hold (_ ≫= _) =>
      first [ apply assertions_hold_then;
                [by eauto with quiet | intros ? ?]
            | apply assertions_hold_bind;
                [by eauto with quiet | intros ? ?] ]
  end.

Lemma with_pre_depth_keeps_buffer d r :
  keeps_buffer r (Pod.with_pre_depth d r).
Proof. done. Qed.

Lemma with_current_command_keeps_buffer c r :
  keeps_buffer r (Pod.with_current_command c r).
Proof. done. Qed.

(** Closes [buffer_tracks_section] of a state reached by steps that leave
    the sections and the buffer alone. *)
Ltac tracks_goal :=
  eapply tracks_keeps; [eassumption|];
  repeat first
    [ apply keeps_buffer_refl
    | apply flush_paragraph_keeps_buffer
    | apply spool_keeps_buffer
    | apply on_cdata_keeps_buffer
    | apply write_keeps_buffer
    | apply with_pre_depth_keeps_buffer
    | apply with_current_command_keeps_buffer
    | eapply keeps_buffer_trans;
        [|first [ apply flush_paragraph_keeps_buffer
                | apply spool_keeps_buffer
                | apply on_cdata_keeps_buffer
                | apply write_keeps_buffer
                | apply with_pre_depth_keeps_buffer
                | apply with_current_command_keeps_buffer ]] ].

Lemma on_usage_start_holds program summary r :
  buffer_tracks_section r →
  assertions_hold (Pod.on_usage_start program summary r).
Proof.
  intros Hr. unfold Pod.on_usage_start, Pod.on_section_start,
    Pod.on_section_end.
  repeat holds_step. tracks_goal.
Qed.

Lemma on_synopsis_start_holds r :
  buffer_tracks_section r → assertions_hold (Pod.on_synopsis_start r).
Proof.
  intros Hr. unfold Pod.on_synopsis_start.
  apply assertions_hold_then; [|by eauto with quiet].
  apply for_each_holds; [|done]. by eauto with quiet.
Qed.

Lemma on_optgroup_start_holds name r :
  buffer_tracks_section r → assertions_hold (Pod.on_optgroup_start name r).
Proof.
  intros Hr. unfold Pod.on_optgroup_start.
  holds_step. apply assertions_hold_then; [|by eauto with quiet].
  destruct (negb _); [|done]. holds_step. by eauto with quiet.
Qed.

Lemma on_command_start_holds names r :
  buffer_tracks_section r → assertions_hold (Pod.on_command_start names r).
Proof.
  intros Hr. unfold Pod.on_command_start.
  apply assertions_hold_bind.
  { intros e. destruct (strip <$> _); [by intros [= <-]|discriminate]. }
  intros name _. holds_step.
  apply assertions_hold_then; [|by eauto with quiet].
  apply head1_holds. tracks_goal.
Qed.

Lemma on_command_end_holds r :
  buffer_tracks_section r → assertions_hold (Pod.on_command_end r).
Proof.
  intros Hr. unfold Pod.on_command_end.
  assert (Hfl : buffer_tracks_section (Pod.flush_paragraph r))
    by tracks_goal.
  apply assertions_hold_bind.
  { intros e. destruct (Pod.current_command _); [discriminate|].
    by intros [= <-]. }
  intros cmd _. apply assertions_hold_then.
  - destruct (Pod.full_optgroups _); [done|].
    destruct (Pod.nonlocal_options cmd) as [|x [|y nlo]]; [done|..].
    + holds_step. by apply command_holds.
    + apply assertions_hold_bind.
      { intros e. apply mapM_no_assertion. by eauto with quiet. }
      intros texts _. apply assertions_hold_bind.
      { intros e. destruct (last _); [by eauto with quiet | discriminate]. }
      intros last_text _. by apply command_holds.
  - intros r1 Hr1. cbn. tracks_goal.
Qed.

Lemma on_argument_start_holds name r :
  buffer_tracks_section r → assertions_hold (Pod.on_argument_start name r).
Proof.
  intros Hr. unfold Pod.on_argument_start.
  apply assertions_hold_then; [|by eauto with quiet].
  apply command_holds. tracks_goal.
Qed.

Lemma on_optgroup_reference_start_holds name r :
  buffer_tracks_section r →
  assertions_hold (Pod.on_optgroup_reference_start name r).
Proof.
  intros Hr. unfold Pod.on_optgroup_reference_start.
  destruct (Pod.full_optgroups r); [|done]. holds_step. holds_step.
  destruct (Pod.section_contents r !! _) as [[text|]|]; [|done..].
  cbn. tracks_goal.
Qed.

#[local] Hint Resolve on_usage_start_holds on_synopsis_start_holds
  on_optgroup_start_holds on_command_start_holds on_command_end_holds
  on_argument_start_holds on_optgroup_reference_start_holds : quiet.

Lemma pod_start_holds method kw r :
  buffer_tracks_section r → assertions_hold (Pod.start method kw r).
Proof.
  intros Hr. unfold Pod.start.
  repeat case_bool_decide; try by cbn.
  all: repeat holds_step.
  all: unfold Pod.on_section_start, Pod.on_option_start, Pod.on_vspace_start,
         Pod.on_dt_start, Pod.on_pre_start; cbn [assertions_hold].
  all: first [ by eauto with quiet | tracks_goal ].
Qed.

Lemma pod_stop_holds method r :
  buffer_tracks_section r → assertions_hold (Pod.stop method r).
Proof.
  intros Hr. unfold Pod.stop.
  repeat case_bool_decide; try by cbn.
  all: unfold Pod.on_usage_end, Pod.on_section_end, Pod.on_optgroup_end,
         Pod.on_dt_end, Pod.on_pre_end; cbn [assertions_hold].
  all: first [ by eauto with quiet
             | by apply flush_section_buffer_holds; tracks_goal
             | tracks_goal ].
Qed.

Lemma pod_init_holds optgroups commands full_optgroups :
  assertions_hold (Pod.init optgroups commands full_optgroups).
Proof.
  unfold Pod.init. apply command_holds. split; [done|].
  intros title. cbn. by rewrite lookup_empty.
Qed.

Lemma pod_handle_holds ev (r : UsageFileReader Pod.t) :
  buffer_tracks_section (self r) →
  match handle ev r with
  | Ok r' => buffer_tracks_section (self r')
  | Err e => e ≠ AssertionError
  end.
Proof.
  intros Hr. destruct ev as [name attrs|name|cdata|target data];
    cbn [handle].
  - unfold StartElementHandler. destruct (negb (enabled_p r)); [done|].
    cbn [start_handler Pod.handlers].
    pose proof (pod_start_holds (on_start_function name)
                  (fixed_attr attrs) (self r) Hr) as Hs.
    by destruct (Pod.start _ _ _).
  - unfold EndElementHandler. destruct (negb (enabled_p r)); [done|].
    cbn [end_handler Pod.handlers].
    pose proof (pod_stop_holds (on_stop_function name) (self r) Hr) as Hs.
    by destruct (Pod.stop _ _).
  - unfold CharacterDataHandler. destruct (negb (enabled_p r)); [done|].
    cbn. tracks_goal.
  - destruct (ProcessingInstructionHandler target data r) as [r'|e] eqn:Hpi.
    + unfold ProcessingInstructionHandler in Hpi. result_inv; by subst r'.
    + unfold ProcessingInstructionHandler in Hpi. result_err; by subst e.
Qed.

Lemma pod_parse_holds file (r : UsageFileReader Pod.t) :
  buffer_tracks_section (self r) →
  match parse file r with
  | Ok r' => buffer_tracks_section (self r')
  | Err e => e ≠ AssertionError
  end.
Proof.
  revert r. induction file as [|ev file IH]; intros r Hr; [done|].
  cbn [parse]. pose proof (pod_handle_holds ev r Hr) as Hev.
  destruct (handle ev r) as [r1|e]; [|done]. cbn. by apply IH.
Qed.

Lemma pod_run_holds defs optgroups commands full_optgroups file :
  match Pod.run defs optgroups commands full_optgroups file with
  | Ok r => buffer_tracks_section (self r)
  | Err e => e ≠ AssertionError
  end.
Proof.
  unfold Pod.run.
  pose proof (pod_init_holds optgroups commands full_optgroups) as Hinit.
  destruct (Pod.init _ _ _) as [pod|e]; [|exact Hinit].
  exact (pod_parse_holds file (reader_init defs pod) Hinit).
Qed.

(** X10.  Neither assertion of the walker can fail: whatever the file,
    [ob_start] never finds a buffer open and [start_section_buffer] never
    finds a section open, because the buffer is open exactly while a
    section is.  When the walk ends normally, every section recorded in
    [section_contents] has a text, never [None]. *)
Theorem walker_assertions_never_fail (defs : gset string)
  (optgroups : list OptGroup.t) (commands : list Command.t)
  (full_optgroups : bool) (file : list event) :
  Pod.run defs optgroups commands full_optgroups file ≠ Err AssertionError
  ∧ ∀ r, Pod.run defs optgroups commands full_optgroups file = Ok r →
      (Pod.current_section (self r) = None
       ↔ BufferingWriter.output_buffer (Pod.out (self r)) = None)
      ∧ ∀ title, Pod.section_contents (self r) !! title ≠ Some None.
Proof.
  pose proof (pod_run_holds defs optgroups commands full_optgroups file)
    as Hrun.
  destruct (Pod.run _ _ _ _ _) as [r'|e].
  - split; [done|]. by intros r [= <-].
  - split; [congruence | done].
Qed.

(** ** The header mode *)

Lemma succeeds_skip : succeeds skip.
Proof. intros hf _. by exists hf. Qed.

Lemma succeeds_and_then a b : succeeds a → succeeds b → succeeds (a ;; b)%emit.
Proof.
  intros Ha Hb hf Hi. destruct (Ha hf Hi) as (hf1 & H1 & Hi1).
  destruct (Hb hf1) as (hf2 & H2 & Hi2); [lia|].
  exists hf2. unfold and_then. rewrite H1. cbn. split; [done | congruence].
Qed.

Lemma succeeds_for_each {A} (l : list A) (body : A → emitter) :
  (∀ x, x ∈ l → succeeds (body x)) → succeeds (for_each l body).
Proof.
  induction l as [|x l IH]; intros Hbody; cbn [for_each].
  - apply succeeds_skip.
  - apply succeeds_and_then.
    + apply Hbody, list_elem_of_here.
    + apply IH. intros y Hy. by apply Hbody, list_elem_of_further.
Qed.

Lemma succeeds_writeln fmt args text :
  pyfmt fmt args = Ok text → succeeds (CW.writeln fmt args).
Proof.
  intros Hfmt hf Hi. unfold CW.writeln, CW.write.
  destruct (Z.ltb_spec (indent hf) 0) as [?|_]; [lia|].
  cbn. rewrite Hfmt. cbn. by eexists.
Qed.

Lemma succeeds_indented after body :
  succeeds body → succeeds (CW.indented (Some after) body).
Proof.
  intros Hbody hf Hi. unfold CW.indented, and_then, CW.set_indent. cbn.
  destruct (Hbody {| out := out hf; indent := indent hf + 1 |})
    as (hf1 & H1 & Hi1); [cbn; lia|].
  rewrite H1. cbn in Hi1 |- *.
  destruct (succeeds_writeln "%s" [after] _ (pyfmt_s after)
              {| out := out hf1; indent := indent hf1 - 1 |})
    as (hf2 & H2 & Hi2); [cbn; lia|].
  exists hf2. split; [exact H2|]. cbn in Hi2. lia.
Qed.

Lemma succeeds_prototype fn static : succeeds (Emit.prototype fn static).
Proof. unfold Emit.prototype. by eapply succeeds_writeln. Qed.

Lemma all_chars_app cls (s t : string) :
  all_chars cls (s +:+ t) = all_chars cls s && all_chars cls t.
Proof.
  induction s as [|c s IH]; [by rewrite app_nil_l|].
  rewrite app_cons. cbn [all_chars]. by rewrite IH, andb_assoc.
Qed.

Lemma pyfmt_percent_free (fmt : string) :
  percent_free fmt = true → pyfmt fmt [] = Ok fmt.
Proof.
  unfold percent_free. induction fmt as [|c fmt IH]; [done|].
  cbn. intros [Hc Hfmt]%andb_prop. apply negb_true_iff in Hc.
  rewrite Hc, IH by done. reflexivity.
Qed.

Lemma re_tail_all_chars (cls ok : ascii → bool) (s : string) :
  (∀ c, cls c = true → ok c = true) → ok newline = true →
  re_tail cls s = true → all_chars ok s = true.
Proof.
  intros Hcls Hnl. induction s as [|c s IH]; [done|]. cbn.
  destruct (cls c) eqn:Hc.
  - intros Hs. by rewrite (Hcls c Hc), IH.
  - intros [Heq Hs]%andb_prop. destruct s; [|discriminate].
    unfold chr_eqb in Heq. apply Ascii.eqb_eq in Heq as ->.
    by rewrite Hnl.
Qed.

Lemma id_dash_char_percent c :
  id_dash_char c = true → negb (chr_eqb c "%") = true.
Proof.
  unfold chr_eqb. destruct (Ascii.eqb_spec c "%") as [->|]; [|done].
  discriminate.
Qed.

Lemma id_char_id_dash_char c : id_char c = true → id_dash_char c = true.
Proof. unfold id_dash_char. intros ->. reflexivity. Qed.

Lemma ID_DASH_percent_free (s : string) :
  ID_DASH s = true → percent_free s = true.
Proof.
  unfold ID_DASH, percent_free. destruct s as [|c s]; [done|].
  intros [Hc Hs]%andb_prop. cbn. apply andb_true_intro. split.
  - unfold chr_eqb. destruct (Ascii.eqb_spec c "%") as [->|]; [|done].
    discriminate.
  - by eapply re_tail_all_chars; [apply id_dash_char_percent| |exact Hs].
Qed.

Lemma ID_percent_free (s : string) : ID s = true → percent_free s = true.
Proof.
  unfold ID, percent_free. destruct s as [|c s]; [done|].
  intros [Hc Hs]%andb_prop. cbn. apply andb_true_intro. split.
  - unfold chr_eqb. destruct (Ascii.eqb_spec c "%") as [->|]; [|done].
    discriminate.
  - eapply re_tail_all_chars; [| |exact Hs]; [|done].
    intros d Hd. by apply id_dash_char_percent, id_char_id_dash_char.
Qed.

Lemma succeeds_struct_definition name body :
  percent_free name = true → succeeds body →
  succeeds (struct_definition name [] body).
Proof.
  intros Hname Hbody. unfold struct_definition.
  apply succeeds_and_then; [|by apply succeeds_indented].
  eapply succeeds_writeln, pyfmt_percent_free.
  unfold percent_free in *. by rewrite !all_chars_app, Hname.
Qed.

(** Splits a sequence of emitters written with [;;]. *)
Ltac succeeds_seq :=
  repeat lazymatch goal with
    | |- succeeds (and_then _ _) => apply succeeds_and_then
    end.

Lemma succeeds_op_h_optgroup og :
  optgroup_named og → succeeds (op_h_optgroup og).
Proof.
  intros (Hname & _). unfold op_h_optgroup.
  succeeds_seq.
  - apply succeeds_struct_definition.
    + pose proof (ID_percent_free _ Hname) as Hp.
      unfold OptGroup.struct_name, percent_free in *.
      by rewrite all_chars_app, Hp.
    + succeeds_seq; apply succeeds_for_each; intros x _.
      * by eapply succeeds_writeln.
      * destruct (Option.arg x), (Option.accumulate x);
          first [apply succeeds_skip | by eapply succeeds_writeln].
      * destruct (Option.arg x), (Option.accumulate x);
          first [apply succeeds_skip | by eapply succeeds_writeln].
  - destruct (OptGroup.export_emit_args og);
      [apply succeeds_prototype | apply succeeds_skip].
  - by eapply succeeds_writeln.
Qed.

Lemma succeeds_op_h_command c :
  command_named c → succeeds (op_h_command c).
Proof.
  intros (Hname & _). unfold op_h_command.
  succeeds_seq.
  - apply succeeds_struct_definition.
    + pose proof (ID_DASH_percent_free _ Hname) as Hp.
      unfold Command.struct_name, percent_free in *.
      by rewrite !all_chars_app, Hp.
    + succeeds_seq; apply succeeds_for_each; intros x _.
      * by eapply succeeds_writeln.
      * destruct (Argument.repeat x); by eapply succeeds_writeln.
  - apply succeeds_prototype.
  - apply succeeds_prototype.
  - destruct (Command.export_parse_args c);
      [apply succeeds_prototype | apply succeeds_skip].
  - by eapply succeeds_writeln.
Qed.

(** X11.  The header mode fails only where ingest does: when ingest
    accepts the file, [op_h] writes the whole header and leaves the
    indentation at zero.  The names it splices into format strings passed
    [check_id] or [check_id_dash], so none holds a percent sign. *)
Theorem header_fails_only_in_ingest (defs : gset string)
  (file : list event) (r : UsageFileReader CommandSlurpingReader) :
  Slurp.ingest defs file = Ok r →
  ∃ hf, main_h defs file = Ok hf
        ∧ op_h file defs (optgroups (self r)) (commands (self r)) = Ok hf
        ∧ indent hf = 0.
Proof.
  intros Hr. destruct (ingest_named defs file r Hr) as (Hogs & Hcmds & _).
  assert (Hop : succeeds
    (CW.writeln "#pragma once" [] ;;
     CW.include "util.h" ;;
     CW.include "cmd.h" ;;
     CW.include "argv.h" ;;
     CW.writeln EmptyString [] ;;
     for_each (optgroups (self r)) op_h_optgroup ;;
     for_each (commands (self r)) op_h_command ;;
     CW.writeln "extern const struct cmd autocmds[];" [])%emit).
  { rewrite Forall_forall in Hogs. rewrite Forall_forall in Hcmds.
    succeeds_seq; try (by eapply succeeds_writeln).
    - apply succeeds_for_each. intros og Hog.
      by apply succeeds_op_h_optgroup, Hogs.
    - apply succeeds_for_each. intros c Hc.
      by apply succeeds_op_h_command, Hcmds. }
  destruct (Hop {| out := EmptyString; indent := 0 |}) as (hf & Hhf & Hi);
    [done|].
  exists hf. unfold main_h. rewrite Hr. cbn. by split.
Qed.

Lemma header_fails_only_in_ingest_witness :
  ∃ hf, main_h ∅ greet_file = Ok hf
        ∧ op_h greet_file ∅ (optgroups (self greet_ir))
            (commands (self greet_ir)) = Ok hf
        ∧ indent hf = 0.
Proof.
  apply (header_fails_only_in_ingest ∅ greet_file greet_ir).
  vm_compute. reflexivity.
Defined.

(** ** The struct of a command *)

Lemma length_app (s t : string) :
  String.length (s +:+ t) = (String.length s + String.length t)%nat.
Proof.
  induction s as [|c s IH]; [by rewrite app_nil_l|].
  rewrite app_cons. cbn [String.length]. by rewrite IH.
Qed.

Lemma app_inv_tail (a b s : string) : a +:+ s = b +:+ s → a = b.
Proof.
  revert b. induction a as [|c a IH]; intros [|d b] Heq.
  - done.
  - apply (f_equal String.length) in Heq.
    rewrite app_nil_l, app_cons in Heq. cbn [String.length] in Heq.
    rewrite length_app in Heq. lia.
  - apply (f_equal String.length) in Heq.
    rewrite app_nil_l, app_cons in Heq. cbn [String.length] in Heq.
    rewrite length_app in Heq. lia.
  - rewrite !app_cons in Heq. injection Heq as -> Heq. f_equal. by apply IH.
Qed.

Lemma replace_dash_fixed (s : string) :
  replace_char "-" "_" s = s ↔ dash_free s = true.
Proof.
  unfold replace_char, dash_free. induction s as [|c s IH]; [done|].
  cbn [map_chars all_chars]. rewrite andb_true_iff, <- IH.
  unfold chr_eqb. destruct (Ascii.eqb_spec c "-") as [->|Hc]; cbn.
  - split; [intros [=] | by intros [? _]].
  - split; [intros [= Hs]; by rewrite Hs | intros [_ ->]; done].
Qed.

Lemma struct_type_eq (name symbol : string) :
  "const struct cmd_" +:+ symbol +:+ "_info*"
  = "const struct " +:+ ("cmd_" +:+ name +:+ "_info") +:+ "*"
  ↔ symbol = name.
Proof.
  autorewrite with str. split; [|by intros ->].
  intros [= Heq]. by apply app_inv_tail in Heq.
Qed.

(** X12.  The struct that the header defines for a command is named after
    the command's name, while the prototypes of its [main] and [make_args]
    functions name the struct of their [info] parameter after its symbol.
    For a command that ingest has built, the prototypes name the struct
    that is defined exactly when the command's name holds no dash. *)
Theorem command_struct_named_by_name (defs : gset string)
  (file : list event) (r : UsageFileReader CommandSlurpingReader)
  (c : Command.t) :
  Slurp.ingest defs file = Ok r → c ∈ commands (self r) →
  (args (Command.main_function c)
     = [("const struct " +:+ Command.struct_name c +:+ "*", "info")]
   ↔ dash_free (Command.name c) = true)
  ∧ (args (Command.make_args_function c)
     = [("unsigned", "which");
        ("const struct " +:+ Command.struct_name c +:+ "*", "info")]
   ↔ dash_free (Command.name c) = true).
Proof.
  intros Hr Hc. destruct (ingest_named defs file r Hr) as (_ & Hcmds & _).
  rewrite Forall_forall in Hcmds.
  destruct (Hcmds c Hc) as (_ & Hsym & _).
  unfold Command.main_function, Command.make_args_function,
    Command.struct_name. cbn [args].
  rewrite <- replace_dash_fixed, <- Hsym.
  pose proof (struct_type_eq (Command.name c) (Command.symbol c)) as Heq.
  split; (split; [intros H; apply Heq; congruence
                 | intros H; apply Heq in H; by rewrite H]).
Qed.

Lemma command_struct_named_by_name_witness :
  ∃ c, commands (self greet_ir) !! 0%nat = Some c
       ∧ args (Command.main_function c)
         = [("const struct " +:+ Command.struct_name c +:+ "*", "info")].
Proof.
  destruct (commands (self greet_ir) !! 0%nat) as [c|] eqn:Hc;
    [|vm_compute in Hc; discriminate].
  exists c. split; [done|].
  apply (command_struct_named_by_name ∅ greet_file greet_ir c).
  - vm_compute. reflexivity.
  - by eapply list_elem_of_lookup_2.
  - vm_compute in Hc. injection Hc as <-. vm_compute. reflexivity.
Defined.

(** ** Character constants *)

(** X13.  Reading the C character constant that [quote_char] writes gives
    the character back, whatever the character; so two characters with the
    same constant are the same character. *)
Theorem quote_char_law :
  (∀ c : ascii, char_constant_value (CW.quote_char c) = Some c)
  ∧ (∀ c d : ascii, CW.quote_char c = CW.quote_char d → c = d).
Proof.
  assert (Hround : ∀ c, char_constant_value (CW.quote_char c) = Some c).
  { intros c. destruct c as [[] [] [] [] [] [] [] []]; reflexivity. }
  split; [exact Hround|]. intros c d Heq.
  pose proof (Hround c) as Hc. rewrite Heq, Hround in Hc. congruence.
Qed.

(** ** The buffering writer *)

Lemma foldl_write_direct (texts : list string) (w : BufferingWriter.t) :
  BufferingWriter.output_buffer w = None →
  foldl (λ w text, BufferingWriter.write text w) w texts
  = {| BufferingWriter.output := BufferingWriter.output w +:+ concat texts;
       BufferingWriter.output_buffer := None |}.
Proof.
  revert w. induction texts as [|text texts IH]; intros [o b] Hb;
    cbn in Hb; subst b.
  - cbn. by rewrite app_nil_r.
  - cbn [foldl concat]. rewrite IH by done.
    unfold BufferingWriter.write. cbn. by rewrite app_assoc.
Qed.

Lemma foldl_write_buffered (texts : list string) (w : BufferingWriter.t)
  (b : string) :
  BufferingWriter.output_buffer w = Some b →
  foldl (λ w text, BufferingWriter.write text w) w texts
  = {| BufferingWriter.output := BufferingWriter.output w;
       BufferingWriter.output_buffer := Some (b +:+ concat texts) |}.
Proof.
  revert w b. induction texts as [|text texts IH]; intros [o b'] b Hb;
    cbn in Hb; subst b'.
  - cbn. by rewrite app_nil_r.
  - cbn [foldl concat].
    rewrite (IH _ (b +:+ text)) by (unfold BufferingWriter.write; by cbn).
    unfold BufferingWriter.write. cbn. by rewrite app_assoc.
Qed.

(** X14.  Buffering is transparent: on a writer that is not buffering,
    [ob_start] succeeds; the texts written after it do not reach the
    stream; and [ob_end_flush] then returns their concatenation and
    leaves the writer as writing the same texts without a buffer would
    have left it. *)
Theorem buffering_is_transparent (w : BufferingWriter.t)
  (texts : list string) :
  BufferingWriter.output_buffer w = None →
  ∃ w1,
    BufferingWriter.ob_start w = Ok w1
    ∧ BufferingWriter.output
        (foldl (λ w text, BufferingWriter.write text w) w1 texts)
      = BufferingWriter.output w
    ∧ BufferingWriter.ob_end_flush
        (foldl (λ w text, BufferingWriter.write text w) w1 texts)
      = (foldl (λ w text, BufferingWriter.write text w) w texts,
         Some (concat texts)).
Proof.
  intros Hb. unfold BufferingWriter.ob_start. rewrite Hb.
  eexists. split; [reflexivity|].
  rewrite (foldl_write_buffered texts _ EmptyString) by done.
  rewrite foldl_write_direct by done.
  split; [done|].
  unfold BufferingWriter.ob_end_flush, BufferingWriter.ob_get_contents,
    BufferingWriter.write.
  cbn. by rewrite app_nil_l.
Qed.

Lemma buffering_is_transparent_witness :
  ∃ w1,
    BufferingWriter.ob_start BufferingWriter.init = Ok w1
    ∧ BufferingWriter.output
        (foldl (λ w text, BufferingWriter.write text w) w1 ["a"; "b"])
      = EmptyString
    ∧ BufferingWriter.ob_end_flush
        (foldl (λ w text, BufferingWriter.write text w) w1 ["a"; "b"])
      = (foldl (λ w text, BufferingWriter.write text w) BufferingWriter.init
           ["a"; "b"],
         Some "ab").
Proof.
  apply (buffering_is_transparent BufferingWriter.init ["a"; "b"]).
  reflexivity.
Defined.

(** ** What the walker has written *)

Lemma grows_refl r : output_grows r r.
Proof. exists EmptyString. by rewrite app_nil_r. Qed.

Lemma grows_same r r' :
  BufferingWriter.output (Pod.out r') = BufferingWriter.output (Pod.out r) →
  output_grows r r'.
Proof. intros H. exists EmptyString. by rewrite H, app_nil_r. Qed.

Lemma grows_trans r1 r2 r3 :
  output_grows r1 r2 → output_grows r2 r3 → output_grows r1 r3.
Proof.
  intros [t1 H1] [t2 H2]. exists (t1 +:+ t2).
  by rewrite H2, H1, app_assoc.
Qed.

Lemma write_grows text r : output_grows r (Pod.write text r).
Proof.
  unfold output_grows, Pod.write, BufferingWriter.write. cbn.
  destruct (BufferingWriter.output_buffer (Pod.out r)); cbn.
  - exists EmptyString. by rewrite app_nil_r.
  - by exists text.
Qed.

Lemma flush_paragraph_grows r : output_grows r (Pod.flush_paragraph r).
Proof.
  unfold Pod.flush_paragraph.
  destruct (negb _ && negb _); [|by apply grows_same].
  destruct (0 <? _);
    repeat (eapply grows_trans; [|apply write_grows]); by apply grows_same.
Qed.

Lemma spool_grows part r : output_grows r (Pod.spool part r).
Proof. by apply grows_same. Qed.

Lemma on_cdata_grows cdata r : output_grows r (Pod.on_cdata cdata r).
Proof.
  unfold Pod.on_cdata. destruct (Pod.paragraph r); [|by apply grows_same].
  case_bool_decide; [by apply grows_same|].
  case_bool_decide; by apply grows_same.
Qed.

Lemma with_pre_depth_grows d r : output_grows r (Pod.with_pre_depth d r).
Proof. by apply grows_same. Qed.

Lemma with_current_command_grows c r :
  output_grows r (Pod.with_current_command c r).
Proof. by apply grows_same. Qed.

Lemma flush_section_buffer_grows r :
  output_grows r (Pod.flush_section_buffer r).
Proof.
  unfold Pod.flush_section_buffer.
  eapply grows_trans; [apply flush_paragraph_grows|].
  destruct (Pod.current_section _); [|by apply grows_same].
  unfold BufferingWriter.ob_end_flush, BufferingWriter.ob_get_contents.
  destruct (BufferingWriter.output_buffer _) as [contents|]; cbn.
  - by exists contents.
  - by apply grows_same.
Qed.

(** Closes [output_grows] of a state reached by steps that are known to
    take nothing back. *)
Ltac grows_goal :=
  repeat first
    [ by apply grows_same
    | eassumption
    | apply flush_paragraph_grows
    | apply flush_section_buffer_grows
    | apply spool_grows
    | apply on_cdata_grows
    | apply write_grows
    | apply with_pre_depth_grows
    | apply with_current_command_grows
    | eapply grows_trans;
        [|first [ apply flush_paragraph_grows
                | apply flush_section_buffer_grows
                | apply spool_grows
                | apply on_cdata_grows
                | apply write_grows
                | apply with_pre_depth_grows
                | apply with_current_command_grows ]] ].

Lemma grows_result_bind {A} (r : Pod.t) (m : result A)
  (f : A → result Pod.t) :
  (∀ x, m = Ok x → grows_result r (f x)) → grows_result r (m ≫= f).
Proof. intros Hf. destruct m as [x|e]; cbn; eauto. Qed.

Lemma grows_result_then (r : Pod.t) (m : result Pod.t)
  (f : Pod.t → result Pod.t) :
  grows_result r m → (∀ r1, grows_result r1 (f r1)) →
  grows_result r (m ≫= f).
Proof.
  intros Hm Hf. destruct m as [r1|e]; cbn; [|done].
  specialize (Hf r1). destruct (f r1); [|done]. by eapply grows_trans.
Qed.

Lemma grows_result_from r r1 res :
  output_grows r r1 → grows_result r1 res → grows_result r res.
Proof. intros Hr. destruct res; [|done]. by apply grows_trans. Qed.

Lemma command_grows fmt args r : grows_result r (Pod.command fmt args r).
Proof.
  unfold Pod.command. apply grows_result_bind. intros text _. cbn.
  grows_goal.
Qed.

Lemma start_section_buffer_grows title r :
  grows_result r (Pod.start_section_buffer title r).
Proof.
  unfold Pod.start_section_buffer. destruct (Pod.current_section r); [done|].
  unfold BufferingWriter.ob_start. cbn.
  destruct (BufferingWriter.output_buffer (Pod.out r)); [done|].
  cbn. by apply grows_same.
Qed.

Lemma head1_grows title args r : grows_result r (Pod.head1 title args r).
Proof.
  unfold Pod.head1. apply grows_result_bind. intros expanded _.
  apply grows_result_bind. intros heading _.
  eapply grows_result_from; [apply flush_section_buffer_grows|].
  apply grows_result_then; [apply command_grows|].
  intros r1. apply start_section_buffer_grows.
Qed.

Lemma write_command_synopsis_grows cmd verbose r :
  grows_result r (Pod.write_command_synopsis cmd verbose r).
Proof.
  unfold Pod.write_command_synopsis.
  destruct (foldl _ _ _) as [s optdepth]. apply command_grows.
Qed.

Lemma for_each_grows {A} (l : list A) body r :
  (∀ x r, grows_result r (body x r)) →
  grows_result r (Pod.for_each l body r).
Proof.
  intros Hbody. revert r. induction l as [|x l IH]; intros r.
  - cbn. by apply grows_same.
  - cbn [Pod.for_each]. by apply grows_result_then.
Qed.

(** Splits [grows_result] of a sequence of steps. *)
Ltac grows_step :=
  lazymatch goal with
  | |- grows_result _ (Ok _) => cbn [grows_result]; grows_goal
  | |- grows_result _ (Err _) => exact I
  | |- grows_result _ (if ?b then _ else _) => destruct b eqn:?
  | |- grows_result _ (Pod.command _ _ _) =>
      eapply grows_result_from; [|apply command_grows]; grows_goal
  | |- grows_result _ (Pod.head1 _ _ _) =>
      eapply grows_result_from; [|apply head1_grows]; grows_goal
  | |- grows_result _ (Pod.write_command_synopsis _ _ _) =>
      eapply grows_result_from; [|apply write_command_synopsis_grows];
      grows_goal
  | |- grows_result _ (Pod.for_each _ _ _) =>
      apply for_each_grows; intros ? ?
  | |- grows_result _ (?m ≫= _) =>
      lazymatch type of m with
      | result Pod.t => apply grows_result_then; [|intros ?]
      | _ => apply grows_result_bind; intros ? _
      end
  | |- grows_result _ (match ?x with _ => _ end) => destruct x eqn:?
  end.

Lemma pod_start_grows method kw r : grows_result r (Pod.start method kw r).
Proof.
  unfold Pod.start.
  repeat case_bool_decide; try exact I.
  all: unfold Pod.on_usage_start, Pod.on_section_start, Pod.on_section_end,
         Pod.on_synopsis_start, Pod.on_optgroup_start, Pod.on_option_start,
         Pod.on_vspace_start, Pod.on_command_start, Pod.on_argument_start,
         Pod.on_optgroup_reference_start, Pod.on_dt_start, Pod.on_pre_start.
  all: repeat grows_step.
Qed.

Lemma pod_stop_grows method r : grows_result r (Pod.stop method r).
Proof.
  unfold Pod.stop.
  repeat case_bool_decide; try exact I.
  all: unfold Pod.on_usage_end, Pod.on_section_end, Pod.on_optgroup_end,
         Pod.on_command_end, Pod.on_dt_end, Pod.on_pre_end; cbv zeta.
  all: repeat grows_step.
Qed.

Lemma pod_parse_grows file (r r' : UsageFileReader Pod.t) :
  parse file r = Ok r' → output_grows (self r) (self r').
Proof.
  apply (parse_invariant (output_grows (self r))); [| | |by apply grows_same].
  - intros method kw s s' Hs Hstart.
    pose proof (pod_start_grows method kw s) as Hg.
    cbn [start_handler Pod.handlers] in Hstart. rewrite Hstart in Hg.
    by eapply grows_trans.
  - intros method s s' Hs Hstop.
    pose proof (pod_stop_grows method s) as Hg.
    cbn [end_handler Pod.handlers] in Hstop. rewrite Hstop in Hg.
    by eapply grows_trans.
  - intros cdata s s' Hs [= <-].
    eapply grows_trans; [exact Hs | apply on_cdata_grows].
Qed.

Lemma pod_init_output optgroups commands full_optgroups pod :
  Pod.init optgroups commands full_optgroups = Ok pod →
  BufferingWriter.output (Pod.out pod) = "=encoding utf8" +:+ Pod.nl2.
Proof. unfold Pod.init. intros [= <-]. reflexivity. Qed.

(** X15.  The walker takes nothing back from its output.  The document
    that [op_pod] prints begins with the line [=encoding utf8] and an
    empty line, and the document printed for a file that goes on after
    the events of another begins with the document of that other. *)
Theorem pod_output_only_grows (defs : gset string)
  (optgroups : list OptGroup.t) (commands : list Command.t)
  (file1 file2 : list event) (text1 text2 : string) :
  op_pod file1 defs optgroups commands = Ok text1 →
  op_pod (file1 ++ file2) defs optgroups commands = Ok text2 →
  (∃ rest, text1 = "=encoding utf8" +:+ Pod.nl2 +:+ rest)
  ∧ ∃ rest, text2 = text1 +:+ rest.
Proof.
  unfold op_pod, Pod.run. intros H1 H2.
  apply bind_Ok in H1 as (r1 & Hr1 & [= <-]).
  apply bind_Ok in H2 as (r2 & Hr2 & [= <-]).
  apply bind_Ok in Hr1 as (pod & Hinit & Hr1).
  rewrite Hinit in Hr2. cbn in Hr2.
  rewrite parse_app, Hr1 in Hr2. cbn in Hr2.
  apply pod_parse_grows in Hr1 as [rest1 Hrest1].
  apply pod_parse_grows in Hr2 as [rest2 Hrest2].
  change (self (reader_init defs pod)) with pod in Hrest1.
  rewrite (pod_init_output _ _ _ _ Hinit) in Hrest1.
  split.
  - exists rest1. by rewrite Hrest1, app_assoc.
  - by exists rest2.
Qed.

(** The document of the first eight events of [greet_file], which end
    with the group [style], begins the document of the whole file, which
    is longer. *)
Lemma pod_output_only_grows_witness :
  ∃ text1 text2,
    op_pod (take 8 greet_file) ∅ (optgroups (self greet_ir))
      (commands (self greet_ir)) = Ok text1
    ∧ op_pod (take 8 greet_file ++ drop 8 greet_file) ∅
        (optgroups (self greet_ir)) (commands (self greet_ir)) = Ok text2
    ∧ (∃ rest, text1 = "=encoding utf8" +:+ Pod.nl2 +:+ rest)
    ∧ (∃ rest, text2 = text1 +:+ rest)
    ∧ (String.length text1 <? String.length text2)%nat = true.
Proof.
  destruct (op_pod (take 8 greet_file) ∅ (optgroups (self greet_ir))
              (commands (self greet_ir))) as [text1|e] eqn:H1;
    [|vm_compute in H1; discriminate].
  destruct (op_pod (take 8 greet_file ++ drop 8 greet_file) ∅
              (optgroups (self greet_ir)) (commands (self greet_ir)))
    as [text2|e] eqn:H2; [|vm_compute in H2; discriminate].
  exists text1, text2. split; [done|]. split; [done|].
  destruct (pod_output_only_grows ∅ _ _ (take 8 greet_file)
              (drop 8 greet_file) text1 text2 H1 H2) as [Hhead Hgrows].
  split; [exact Hhead|]. split; [exact Hgrows|].
  vm_compute in H1, H2. injection H1 as <-. injection H2 as <-.
  vm_compute. reflexivity.
Defined.

(** ** The assertion of the writer *)

Lemma steady_skip : steady skip.
Proof. by intros hf _. Qed.

Lemma steady_and_then a b : steady a → steady b → steady (a ;; b)%emit.
Proof.
  intros Ha Hb hf Hi. unfold and_then. specialize (Ha hf Hi).
  destruct (a hf) as [hf1|e]; [|exact Ha]. cbn.
  specialize (Hb hf1). rewrite Ha in Hb. specialize (Hb Hi).
  destruct (b hf1); [congruence | done].
Qed.

Lemma steady_for_each {A} (l : list A) (body : A → emitter) :
  (∀ x, steady (body x)) → steady (for_each l body).
Proof.
  intros Hbody. induction l as [|x l IH]; cbn [for_each].
  - apply steady_skip.
  - by apply steady_and_then.
Qed.

Lemma steady_writeln fmt args : steady (CW.writeln fmt args).
Proof.
  intros hf Hi. unfold CW.writeln, CW.write.
  destruct (Z.ltb_spec (indent hf) 0) as [?|_]; [lia|]. cbn.
  pose proof (pyfmt_no_assertion fmt args) as Hfmt.
  destruct (pyfmt fmt args) as [text|e]; cbn; eauto.
Qed.

Lemma steady_indented after body :
  steady body → steady (CW.indented after body).
Proof.
  intros Hbody hf Hi. unfold CW.indented, and_then, CW.set_indent. cbn.
  specialize (Hbody {| out := out hf; indent := indent hf + 1 |}).
  cbn in Hbody. destruct (body _) as [hf1|e]; [|apply Hbody; lia]. cbn.
  assert (Hi1 : indent hf1 = indent hf + 1) by (apply Hbody; lia).
  destruct after as [a|]; [|cbn; lia].
  pose proof (steady_writeln "%s" [a]
                {| out := out hf1; indent := indent hf1 - 1 |}) as Hw.
  cbn in Hw. destruct (CW.writeln _ _ _); [|apply Hw; lia].
  rewrite Hw by lia. lia.
Qed.

Create HintDb steady discriminated.

#[local] Hint Resolve steady_skip steady_and_then steady_for_each
  steady_writeln steady_indented : steady.

Lemma steady_if_ c a body : steady body → steady (CW.if_ c a body).
Proof. unfold CW.if_. auto with steady. Qed.

Lemma steady_while_ c a body : steady body → steady (CW.while_ c a body).
Proof. unfold CW.while_. auto with steady. Qed.

Lemma steady_switch c a body : steady body → steady (CW.switch c a body).
Proof. unfold CW.switch. auto with steady. Qed.

Lemma steady_case c a body : steady body → steady (CW.case c a body).
Proof. unfold CW.case. auto with steady. Qed.

Lemma steady_default body : steady body → steady (CW.default body).
Proof. unfold CW.default. auto with steady. Qed.

Lemma steady_function_definition fn body :
  steady body → steady (Emit.function_definition fn body).
Proof. unfold Emit.function_definition. auto with steady. Qed.

Lemma steady_prototype fn static : steady (Emit.prototype fn static).
Proof. unfold Emit.prototype. auto with steady. Qed.

Lemma steady_sysinclude h : steady (CW.sysinclude h).
Proof. unfold CW.sysinclude. auto with steady. Qed.

Lemma steady_include h : steady (CW.include h).
Proof. unfold CW.include. auto with steady. Qed.

#[local] Hint Resolve steady_if_ steady_while_ steady_switch steady_case
  steady_default steady_function_definition steady_prototype
  steady_sysinclude steady_include : steady.

(** Splits the conditionals of an emitter and closes each branch with the
    rules above. *)
Ltac steady_goal :=
  repeat first
    [ progress auto with steady
    | match goal with
      | |- steady (if ?b then _ else _) => destruct b
      | |- steady (match ?x with _ => _ end) => destruct x
      | |- steady (and_then _ _) => apply steady_and_then
      | |- steady (for_each _ _) => apply steady_for_each; intros
      | |- steady (CW.if_ _ _ _) => apply steady_if_
      | |- steady (CW.while_ _ _ _) => apply steady_while_
      | |- steady (CW.switch _ _ _) => apply steady_switch
      | |- steady (CW.case _ _ _) => apply steady_case
      | |- steady (CW.default _) => apply steady_default
      | |- steady (CW.indented _ _) => apply steady_indented
      | |- steady (Emit.function_definition _ _) =>
          apply steady_function_definition
      | |- steady (let x := _ in _) => cbv zeta
      end ].

Lemma steady_emit_record_option og option :
  steady (Emit.emit_record_option og option).
Proof. unfold Emit.emit_record_option. steady_goal. Qed.

Lemma steady_emit_capture_argument argument :
  steady (Emit.emit_capture_argument argument).
Proof. unfold Emit.emit_capture_argument. steady_goal. Qed.

Lemma steady_read_has_doc command k :
  (∀ b, steady (k b)) → steady (Emit.read_has_doc command k).
Proof.
  intros Hk. unfold Emit.read_has_doc.
  destruct (Command.has_doc command); [apply Hk|]. by intros hf _.
Qed.

#[local] Hint Resolve steady_emit_record_option steady_emit_capture_argument
  : steady.

Lemma steady_emit_make_args_cmd_function command :
  steady (Emit.emit_make_args_cmd_function command).
Proof. unfold Emit.emit_make_args_cmd_function. steady_goal. Qed.

Lemma steady_emit_emit_args_og_function og :
  steady (Emit.emit_emit_args_og_function og).
Proof. unfold Emit.emit_emit_args_og_function. steady_goal. Qed.

Lemma steady_emit_dispatch_function command :
  steady (Emit.emit_dispatch_function command).
Proof. unfold Emit.emit_dispatch_function. steady_goal. Qed.

Lemma steady_emit_parse_args_cmd_function command :
  steady (Emit.emit_parse_args_cmd_function command).
Proof.
  unfold Emit.emit_parse_args_cmd_function, Emit.long_opt_row. cbv zeta.
  apply steady_function_definition.
  repeat (apply steady_and_then; [steady_goal|]); steady_goal.
  all: try (apply steady_read_has_doc; intros; steady_goal).
Qed.

Lemma steady_emit_autocmds commands : steady (Emit.emit_autocmds commands).
Proof. unfold Emit.emit_autocmds. steady_goal. Qed.

Lemma steady_op_c_command process section_contents command :
  steady (op_c_command process section_contents command).
Proof.
  intros hf Hi. unfold op_c_command.
  assert (Hemit : ∀ command', steady
            (Emit.emit_make_args_cmd_function command' ;;
             Emit.emit_parse_args_cmd_function command' ;;
             Emit.emit_dispatch_function command')%emit).
  { auto using steady_emit_make_args_cmd_function,
      steady_emit_parse_args_cmd_function, steady_emit_dispatch_function
      with steady. }
  destruct (section_contents !! _) as [[doc|]|]; cbn.
  2,3: by apply Hemit.
  unfold pod2text. destruct (process 0 _) as [text|]; cbn; [|done].
  pose proof (steady_writeln
    ("static const char " +:+ Command.symbol command +:+ "_usage[] = "
     +:+ CW.quote_string text +:+ ";") [] hf Hi) as Hw.
  destruct (CW.writeln _ _ hf) as [hf1|e]; cbn; [|exact Hw].
  pose proof (Hemit (Command.set_has_doc command true) hf1) as He.
  rewrite Hw in He. specialize (He Hi).
  destruct ((_ ;; _)%emit hf1); [congruence | done].
Qed.

Lemma steady_op_c_output process optgroups commands section_contents
  full_usage :
  steady
    (CW.sysinclude "getopt.h" ;;
     CW.sysinclude "stdlib.h" ;;
     CW.sysinclude "string.h" ;;
     CW.include "util.h" ;;
     CW.include "autocmd.h" ;;
     CW.writeln "const char full_usage[] = %s;" [CW.quote_string full_usage] ;;
     for_each optgroups (fun og =>
       Emit.prototype (OptGroup.emit_args_function og)
         (negb (OptGroup.export_emit_args og))) ;;
     for_each commands (fun command =>
       Emit.prototype (Command.parse_args_function command)
         (negb (Command.export_parse_args command))) ;;
     for_each optgroups Emit.emit_emit_args_og_function ;;
     for_each commands (op_c_command process section_contents) ;;
     Emit.emit_autocmds commands)%emit.
Proof.
  repeat lazymatch goal with
    | |- steady (and_then _ _) => apply steady_and_then
    | |- steady (for_each _ _) => apply steady_for_each; intros ?
    end.
  all: auto using steady_emit_emit_args_og_function, steady_op_c_command,
         steady_emit_autocmds with steady.
Qed.

(** X16.  The C mode fails no assertion and closes every block it opens:
    whatever the file and the formatter, [op_c] never ends with an
    [AssertionError] (the indentation of the writer is never negative, and
    the two walks of the file keep their buffers in step with their
    sections), and when it succeeds the indentation is back at zero. *)
Theorem c_mode_assertions_never_fail
  (pod2text_process : Z → string → option string)
  (commands_file : list event) (defs : gset string)
  (optgroups : list OptGroup.t) (commands : list Command.t) :
  op_c pod2text_process commands_file defs optgroups commands
    ≠ Err AssertionError
  ∧ ∀ hf, op_c pod2text_process commands_file defs optgroups commands = Ok hf
      → indent hf = 0.
Proof.
  pose proof (pod_run_holds (defs ∪ {["DOC"]}) optgroups commands true
                commands_file) as Hpod.
  pose proof (pod_run_holds (defs ∪ {["DOC"]}) optgroups commands false
                commands_file) as Hman.
  split.
  - intros Hr. unfold op_c in Hr.
    apply bind_Err in Hr as [Hr | (pod & Hp & Hr)];
      [rewrite Hr in Hpod; by apply Hpod|].
    apply bind_Err in Hr as [Hr | (manpod & Hm & Hr)];
      [rewrite Hr in Hman; by apply Hman|].
    apply bind_Err in Hr as [Hr | (full_usage & Hu & Hr)].
    + unfold pod2text in Hr. by destruct (pod2text_process _ _).
    + pose proof (steady_op_c_output pod2text_process optgroups commands
        (Pod.section_contents (self pod)) full_usage
        {| out := EmptyString; indent := 0 |}) as Hs.
      rewrite Hr in Hs. by apply Hs.
  - intros hf Hr. unfold op_c in Hr.
    apply bind_Ok in Hr as (pod & Hp & Hr).
    apply bind_Ok in Hr as (manpod & Hm & Hr).
    apply bind_Ok in Hr as (full_usage & Hu & Hr).
    pose proof (steady_op_c_output pod2text_process optgroups commands
      (Pod.section_contents (self pod)) full_usage
      {| out := EmptyString; indent := 0 |}) as Hs.
    rewrite Hr in Hs. by apply Hs.
Qed.

(** ** Escaping for POD *)

Lemma PODESCAPE_cases (c : ascii) :
  (c = "<"%char ∧ Pod.PODESCAPE c = Some "E<lt>")
  ∨ (c = ">"%char ∧ Pod.PODESCAPE c = Some "E<gt>")
  ∨ (c = "|"%char ∧ Pod.PODESCAPE c = Some "E<verbar>")
  ∨ (c = "/"%char ∧ Pod.PODESCAPE c = Some "E<sol>")
  ∨ (Pod.PODESCAPE c = None ∧ c ≠ "<"%char ∧ c ≠ ">"%char
     ∧ c ≠ "|"%char ∧ c ≠ "/"%char).
Proof.
  unfold Pod.PODESCAPE, chr_eqb.
  destruct (Ascii.eqb_spec c "<"); [by left|].
  destruct (Ascii.eqb_spec c ">"); [by right; left|].
  destruct (Ascii.eqb_spec c "|"); [by right; right; left|].
  destruct (Ascii.eqb_spec c "/"); [by right; right; right; left|].
  by right; right; right; right.
Qed.

(** The escaped text never begins with the character that opens the
    argument of an entity. *)
Lemma escape_head (text : string) :
  Pod.escape text = EmptyString
  ∨ ∃ d rest, Pod.escape text = String d rest ∧ d ≠ "<"%char.
Proof.
  destruct text as [|c text]; [by left|]. right. cbn [Pod.escape].
  destruct (PODESCAPE_cases c)
    as [[-> ->]|[[-> ->]|[[-> ->]|[[-> ->]|(-> & Hc & _)]]]];
    eexists _, _; (split; [reflexivity|done]).
Qed.

Lemma unescape_plain (c : ascii) (text : string) :
  Pod.PODESCAPE c = None →
  unescape_from 0 (String c (Pod.escape text))
  = String c (unescape_from 0 (Pod.escape text)).
Proof.
  intros Hc. cbn [unescape_from starts_with]. unfold chr_eqb.
  destruct (Ascii.eqb_spec "E" c) as [<-|_]; [|done]. cbn [andb].
  destruct (escape_head text) as [->|(d & rest & -> & Hd)]; [done|].
  cbn [starts_with]. unfold chr_eqb.
  destruct (Ascii.eqb_spec "<" d) as [<-|_]; done.
Qed.

Lemma unescape_entity (text : string) :
  unescape_from 0 ("E<lt>" +:+ text) = String "<" (unescape_from 0 text)
  ∧ unescape_from 0 ("E<gt>" +:+ text) = String ">" (unescape_from 0 text)
  ∧ unescape_from 0 ("E<verbar>" +:+ text)
    = String "|" (unescape_from 0 text)
  ∧ unescape_from 0 ("E<sol>" +:+ text) = String "/" (unescape_from 0 text).
Proof. repeat split; reflexivity. Qed.

Lemma unescape_escape (text : string) :
  unescape (Pod.escape text) = text.
Proof.
  unfold unescape. induction text as [|c text IH]; [done|].
  cbn [Pod.escape].
  destruct (PODESCAPE_cases c)
    as [[-> ->]|[[-> ->]|[[-> ->]|[[-> ->]|(Hc & _)]]]].
  1-4: destruct (unescape_entity (Pod.escape text)) as (H1 & H2 & H3 & H4);
    rewrite ?H1, ?H2, ?H3, ?H4; by rewrite IH.
  rewrite Hc, unescape_plain by done. by rewrite IH.
Qed.

Lemma escape_no_bar (text : string) :
  all_chars (λ c, negb (chr_eqb c "|") && negb (chr_eqb c "/"))
    (Pod.escape text) = true.
Proof.
  induction text as [|c text IH]; [done|]. cbn [Pod.escape].
  destruct (PODESCAPE_cases c)
    as [[-> ->]|[[-> ->]|[[-> ->]|[[-> ->]|(-> & _ & _ & Hbar & Hsol)]]]].
  1-4: by rewrite all_chars_app, IH.
  cbn [all_chars]. rewrite IH. unfold chr_eqb.
  destruct (Ascii.eqb_spec c "|"); [done|].
  by destruct (Ascii.eqb_spec c "/").
Qed.

(** X17.  Escaping for POD loses nothing: reading the four entities back
    gives the text that was escaped, so two texts with the same escaped
    form are the same; and no vertical bar or slash is left in the
    escaped text.  [quote] is this escape outside a [pre] element. *)
Theorem pod_escape_law :
  (∀ text, unescape (Pod.escape text) = text)
  ∧ (∀ text text', Pod.escape text = Pod.escape text' → text = text')
  ∧ (∀ text,
       all_chars (λ c, negb (chr_eqb c "|") && negb (chr_eqb c "/"))
         (Pod.escape text) = true)
  ∧ (∀ r text, Pod.pre_depth r <= 0 →
       unescape (Pod.quote r text) = text).
Proof.
  split; [apply unescape_escape|]. split; [|split; [apply escape_no_bar|]].
  - intros text text' Heq. rewrite <- (unescape_escape text), Heq.
    apply unescape_escape.
  - intros r text Hpre. unfold Pod.quote.
    destruct (Z.ltb_spec 0 (Pod.pre_depth r)); [lia|].
    apply unescape_escape.
Qed.

Lemma pod_escape_law_witness :
  Pod.pre_depth (Pod.with_pre_depth 0 pre_state) <= 0
  ∧ unescape (Pod.quote (Pod.with_pre_depth 0 pre_state) "a<b|E<lt>")
    = "a<b|E<lt>".
Proof.
  split; [done|].
  apply (proj2 (proj2 (proj2 pod_escape_law))). done.
Defined.

(** ** The order of the IR *)

Lemma ir_extends_refl s : ir_extends s s.
Proof. by split. Qed.

Lemma ir_extends_trans s1 s2 s3 :
  ir_extends s1 s2 → ir_extends s2 s3 → ir_extends s1 s3.
Proof. intros [H1 H2] [H3 H4]. split; by etrans. Qed.

Ltac extends_goal :=
  split; cbn; first [ done | by apply prefix_app_r ].

Lemma slurp_start_extends method kw s s' :
  Slurp.start method kw s = Ok s' → ir_extends s s'.
Proof.
  intros Hr. unfold Slurp.start in Hr.
  repeat case_bool_decide; try discriminate.
  - unfold Slurp.on_command_start in Hr. result_inv; subst; extends_goal.
  - unfold Slurp.on_optgroup_start in Hr. result_inv; subst; extends_goal.
  - unfold Slurp.on_option_start in Hr. result_inv; subst; extends_goal.
  - unfold Slurp.on_argument_start in Hr. result_inv; subst; extends_goal.
  - unfold Slurp.on_optgroup_reference_start in Hr. result_inv; subst;
      extends_goal.
  - apply ignore_Ok in Hr as ->. apply ir_extends_refl.
Qed.

Lemma slurp_stop_extends method s s' :
  Slurp.stop method s = Ok s' → ir_extends s s'.
Proof.
  intros Hr. unfold Slurp.stop in Hr.
  repeat case_bool_decide; try discriminate.
  - unfold Slurp.on_command_end, Slurp.need in Hr. result_inv; subst;
      extends_goal.
  - unfold Slurp.on_optgroup_end, Slurp.need in Hr. cbn in Hr.
    result_inv; subst; extends_goal.
  - unfold Slurp.on_option_end, Slurp.need in Hr. cbn in Hr.
    result_inv; subst; extends_goal.
  - unfold Slurp.on_argument_end, Slurp.need in Hr. cbn in Hr.
    result_inv; subst; extends_goal.
  - unfold Slurp.on_optgroup_reference_end, Slurp.need in Hr. cbn in Hr.
    result_inv; subst; extends_goal.
  - apply ignore_Ok in Hr as ->. apply ir_extends_refl.
Qed.

Lemma slurp_parse_extends file (r r' : UsageFileReader CommandSlurpingReader) :
  parse file r = Ok r' → ir_extends (self r) (self r').
Proof.
  apply (parse_invariant (ir_extends (self r)));
    [| | |apply ir_extends_refl].
  - intros method kw s s' Hs Hstart.
    eapply ir_extends_trans; [exact Hs|]. by eapply slurp_start_extends.
  - intros method s s' Hs Hstop.
    eapply ir_extends_trans; [exact Hs|]. by eapply slurp_stop_extends.
  - by intros cdata s s' Hs [= <-].
Qed.

(** X18.  Ingest records in document order and never changes or drops
    what it has recorded: the commands and the groups read from the
    first events of a file are, unchanged and in the same order, the
    first commands and groups read from the whole file. *)
Theorem ingest_only_appends (defs : gset string) (file1 file2 : list event)
  (r1 r2 : UsageFileReader CommandSlurpingReader) :
  Slurp.ingest defs file1 = Ok r1 →
  Slurp.ingest defs (file1 ++ file2) = Ok r2 →
  commands (self r1) `prefix_of` commands (self r2)
  ∧ optgroups (self r1) `prefix_of` optgroups (self r2).
Proof.
  unfold Slurp.ingest. intros H1 H2. rewrite parse_app, H1 in H2.
  cbn in H2. by apply slurp_parse_extends in H2.
Qed.

Lemma ingest_only_appends_witness :
  ∃ r1, Slurp.ingest ∅ (take 3 pair_file) = Ok r1
        ∧ commands (self r1) `prefix_of` commands (self pair_ir)
        ∧ optgroups (self r1) `prefix_of` optgroups (self pair_ir).
Proof.
  destruct (Slurp.ingest ∅ (take 3 pair_file)) as [r1|e] eqn:H1;
    [|vm_compute in H1; discriminate].
  exists r1. split; [done|].
  apply (ingest_only_appends ∅ (take 3 pair_file) (drop 3 pair_file)
           r1 pair_ir H1).
  vm_compute. reflexivity.
Defined.

(** *** The entries of the section-contents map *)

Lemma filter_key_absent {V} (k : string) (l : list (string * V)) :
  k ∉ l.*1 → filter (fun entry => entry.1 = k) l = [].
Proof.
  induction l as [|[k' v'] l IH]; intros Hk; [reflexivity|].
  cbn [fmap list_fmap fst] in Hk. apply not_elem_of_cons in Hk as [Hne Hk].
  rewrite filter_cons_False by (cbn; congruence). by apply IH.
Qed.

Lemma filter_key_singleton {V} (k : string) (v : V) (l : list (string * V)) :
  NoDup l.*1 → (k, v) ∈ l → filter (fun entry => entry.1 = k) l = [(k, v)].
Proof.
  induction l as [|[k' v'] l IH]; intros Hnd Hin.
  - by apply elem_of_nil in Hin.
  - cbn [fmap list_fmap fst] in Hnd. apply NoDup_cons in Hnd as [Hk' Hnd].
    apply elem_of_cons in Hin as [[= <- <-]|Hin].
    + rewrite filter_cons_True by done. f_equal. by apply filter_key_absent.
    + rewrite filter_cons_False; [by apply IH|].
      cbn. intros ->. apply Hk'. apply list_elem_of_fmap. by exists (k, v).
Qed.

Lemma entries_keyed_lookup (title : string) (contents : option string)
  (r : Pod.t) :
  Pod.section_contents r !! title = Some contents →
  entries_keyed title r = [(title, contents)].
Proof.
  intros Hlookup. unfold entries_keyed. apply filter_key_singleton.
  - apply NoDup_fst_map_to_list.
  - by apply elem_of_map_to_list.
Qed.

(** *** The events that close a section *)

Lemma section_start_records (r r' : UsageFileReader Pod.t) tag attributes t :
  tag = "usage" ∨ tag = "section" → enabled_p r = true →
  handle (StartElement tag attributes) r = Ok r' →
  recorded_or_pending t (self r) → recorded t (self r').
Proof.
  intros Htag Hen Hr Ht. cbn [handle] in Hr. unfold StartElementHandler in Hr.
  rewrite Hen in Hr. cbn [negb] in Hr.
  apply bind_Ok in Hr as (s & Hstart & [= <-]). cbn [self].
  cbn [start_handler Pod.handlers] in Hstart.
  destruct Htag as [-> | ->].
  - change (on_start_function "usage") with "on_usage_start" in Hstart.
    unfold Pod.start in Hstart. revert Hstart. decide_methods. intros Hstart.
    apply bind_Ok in Hstart as ([] & _ & Hstart).
    apply bind_Ok in Hstart as (program & _ & Hstart).
    apply bind_Ok in Hstart as (summary & _ & Hstart).
    unfold Pod.on_usage_start, Pod.on_section_start, Pod.on_section_end
      in Hstart.
    apply bind_Ok in Hstart as (r1 & Hhead & [= <-]).
    apply head1_spec in Hhead as (e & _ & _ & Hrec).
    apply (keeps_advances _ _ (flush_paragraph_keeps _)).
    apply (keeps_advances _ _ (on_cdata_keeps _ _)). by apply Hrec.
  - change (on_start_function "section") with "on_section_start" in Hstart.
    unfold Pod.start in Hstart. revert Hstart. decide_methods. intros Hstart.
    apply bind_Ok in Hstart as ([] & _ & Hstart).
    apply bind_Ok in Hstart as (name & _ & Hhead).
    unfold Pod.on_section_start in Hhead.
    apply head1_spec in Hhead as (e & _ & _ & Hrec). by apply Hrec.
Qed.

Lemma closes_section_records optgroups commands (r r' : UsageFileReader Pod.t)
  ev t :
  Pod.optgroups (self r)
  = ordered_dict ((fun og => (OptGroup.name og, og)) <$> optgroups) →
  Pod.commands (self r)
  = ordered_dict ((fun c => (Command.name c, c)) <$> commands) →
  enabled_p r = true → closes_section optgroups ev = true →
  handle ev r = Ok r' →
  recorded_or_pending t (self r) → recorded t (self r').
Proof.
  intros Hogs Hcmds Hen Hclose Hr Ht.
  destruct ev as [tag attributes|tag| |]; try discriminate.
  - unfold closes_section in Hclose.
    destruct (decide (tag = "usage")) as [Husage|Husage];
      [eapply (section_start_records r r' tag attributes); eauto|].
    destruct (decide (tag = "section")) as [Hsection|Hsection];
      [eapply (section_start_records r r' tag attributes); eauto|].
    rewrite !bool_decide_eq_false_2 in Hclose by done. cbn [orb] in Hclose.
    destruct (element_title optgroups (StartElement tag attributes))
      as [title|] eqn:Htitle; [|discriminate].
    by eapply (element_title_opens optgroups commands r r').
  - cbn [closes_section] in Hclose. apply bool_decide_eq_true_1 in Hclose.
    subst tag. by eapply usage_end_records.
Qed.




(** ** The registry and the names of the commands *)

Lemma allnames_spec (command : Command.t) :
  Command.allnames command = registry_names command.
Proof. reflexivity. Qed.

Lemma registry_names_command_names (command : Command.t) (name : string) :
  name ∈ registry_names command → name ∈ command_names command.
Proof.
  intros Hname. unfold command_names. rewrite allnames_spec.
  apply elem_of_union_l. by apply elem_of_list_to_set.
Qed.

Lemma registry_entry_names_NoDup (l : list Command.t) :
  commands_apart l →
  NoDup (registry_entry_names l)
  ↔ ∀ command, command ∈ l → NoDup (registry_names command).
Proof.
  unfold registry_entry_names.
  induction l as [|c l IH]; intros Hl.
  - split; [|intros _; apply NoDup_nil_2].
    intros _ command Hc. by apply elem_of_nil in Hc.
  - destruct Hl as [Hc Hl]. cbn [mbind list_bind].
    change (mbind registry_names l) with (l ≫= registry_names).
    rewrite NoDup_app, (IH Hl). split.
    + intros (Hnames & _ & Hrest) command [->|Hin]%elem_of_cons;
        [done | by apply Hrest].
    + intros Hall. split; [apply Hall; by left|]. split.
      * intros name Hname (c' & Hname' & Hc')%list_elem_of_bind.
        apply (Hc c' Hc' name); by apply registry_names_command_names.
      * intros command Hin. apply Hall. by right.
Qed.

(** C8, as its correction.  The output of [op_c] ends with the registry:
    the opening line of [autocmds], then, for every command in
    declaration order, one entry for its primary name and one for each
    of its alternate names in order, each holding that name as a string
    literal and, as [.main], the command's dispatcher
    [<symbol>_dispatch]; then the single sentinel [{0}] and the closing
    line.  After a successful ingest the entries of different commands
    never share a name, so that the names of the entries are pairwise
    different exactly when no command lists a name twice. *)
Theorem op_c_registry :
  (∀ (pod2text_process : Z → string → option string)
     (commands_file : list event) (defs : gset string)
     (optgroups : list OptGroup.t) (commands : list Command.t)
     (hf : CWriter),
     op_c pod2text_process commands_file defs optgroups commands = Ok hf →
     ∃ before, out hf = before +:+ registry_text EmptyString commands)
  ∧ (∀ (defs : gset string) (commands_file : list event)
       (r : UsageFileReader CommandSlurpingReader),
       Slurp.ingest defs commands_file = Ok r →
       NoDup (registry_entry_names (commands (self r)))
       ↔ ∀ command, command ∈ commands (self r) →
                    NoDup (registry_names command)).
Proof.
  split.
  - intros pod2text_process commands_file defs optgroups commands hf Hr.
    unfold op_c in Hr.
    apply bind_Ok in Hr as (pod & _ & Hr).
    apply bind_Ok in Hr as (manpod & _ & Hr).
    apply bind_Ok in Hr as (full_usage & _ & Hr).
    assert (Hpeel : ∀ a b hf0 hf',
               well_behaved a → (a ;; b)%emit hf0 = Ok hf' → indent hf0 = 0 →
               ∃ hf1, indent hf1 = 0 ∧ b hf1 = Ok hf').
    { intros a b hf0 hf' Ha H Hi.
      destruct (and_then_Ok _ _ _ _ Ha H) as (hf1 & ? & ? & ? & ?).
      exists hf1. split; [congruence | done]. }
    assert (Hi : indent {| out := EmptyString; indent := 0 |} = 0) by done.
    revert Hr Hi. generalize {| out := EmptyString; indent := 0 |}.
    intros hf0 Hr Hi.
    do 10 (apply Hpeel in Hr as (hf1 & Hi' & Hr);
           [|first [ solve [wb]
                   | apply wb_for_each; intros;
                     apply wb_emit_emit_args_og_function
                   | apply wb_for_each; intros; apply wb_op_c_command ]
            |done];
           clear hf0 Hi; rename hf1 into hf0, Hi' into Hi).
    rewrite (emits_emit_autocmds commands 0 ltac:(lia) hf0 Hi) in Hr.
    injection Hr as <-. cbn [out]. eauto.
  - intros defs commands_file r Hr.
    apply registry_entry_names_NoDup.
    by destruct (ingest_names_apart _ _ _ Hr) as (Hapart & _).
Qed.

(** In [greet_file] the command [greet] has the alias [g]: the output
    ends with the registry, whose entries are named [greet] and [g]. *)
Lemma op_c_registry_witness :
  ∃ hf,
    op_c echo_process greet_file ∅ (optgroups (self greet_ir))
      (commands (self greet_ir)) = Ok hf
    ∧ (∃ before,
         out hf
         = before +:+ registry_text EmptyString (commands (self greet_ir)))
    ∧ registry_entry_names (commands (self greet_ir)) = ["greet"; "g"]
    ∧ occurrences (registry_entry EmptyString "greet" "greet_dispatch")
        (out hf) = 1%nat
    ∧ occurrences (registry_entry EmptyString "g" "greet_dispatch")
        (out hf) = 1%nat
    ∧ NoDup (registry_entry_names (commands (self greet_ir))).
Proof.
  pose proof op_c_registry as [Htext Hnames].
  eexists. split; [vm_compute; reflexivity|].
  split; [|split; [|split; [|split]]].
  - apply (Htext echo_process greet_file ∅ (optgroups (self greet_ir))
             (commands (self greet_ir))).
    vm_compute. reflexivity.
  - vm_compute. reflexivity.
  - vm_compute. reflexivity.
  - vm_compute. reflexivity.
  - apply (Hnames ∅ greet_file greet_ir); [vm_compute; reflexivity|].
    apply Forall_forall, (bool_decide_eq_true_1 _). vm_compute. reflexivity.
Defined.

(** C8, as stated, fails on [pair_file], whose first command lists the
    names [push,p,push]: ingest accepts the repeated name, since the
    names of one command are compared as a set, and the registry has two
    entries named [push]. *)
Lemma repeated_name_counterexample :
  ∃ r hf,
    Slurp.ingest ∅ pair_file = Ok r
    ∧ op_c echo_process pair_file ∅ (optgroups (self r)) (commands (self r))
      = Ok hf
    ∧ registry_entry_names (commands (self r)) = ["push"; "p"; "push"; "pull"]
    ∧ occurrences (registry_entry EmptyString "push" "push_dispatch")
        (out hf) = 2%nat
    ∧ occurrences (".name = " +:+ spec_string_literal "push" +:+ ",")
        (out hf) = 2%nat.
Proof.
  eexists _, _. split; [vm_compute; reflexivity|].
  split; [vm_compute; reflexivity|]. split; [reflexivity|].
  split; vm_compute; reflexivity.
Qed.
